(** * VaultSandbox client: envelope verification, decryption and delivery

    A shallow embedding of the cryptographic core (crypto/utils.ts,
    crypto/signature.ts, crypto/keypair.ts, crypto/decrypt.ts) and of the two
    delivery strategies (strategies/polling-strategy.ts,
    strategies/sse-strategy.ts), followed by the properties established about
    them.

    Conventions.
    - A [Uint8Array] is a [list byte]; a JavaScript string is a [string]
      whose characters stand for its code units (the wire strings are ASCII:
      base64url text and algorithm names).
    - A JavaScript [number] that counts or indexes is an [N] or a [Z]; a
      duration in milliseconds is an exact rational [Q].
    - Code that throws returns a [result]; code that mutates an object or
      talks to the runtime runs in the monad [Eff.M], which threads the mutable
      state and records every call to an external primitive.
    - Code of the caller that the library calls back synchronously (the
      [test] of a [RegExp] filter, a predicate) is a function on a heap of
      the caller's objects that returns or throws. *)

From Stdlib Require Import List String Ascii NArith ZArith QArith Qminmax Lia Lqa Bool.
From Stdlib Require Import DecimalString.
From Stdlib.Strings Require Import Byte.
Import ListNotations.

Set Implicit Arguments.

(* ================================================================== *)
(** * Part I. The embedding                                            *)
(* ================================================================== *)

(** ** JavaScript runtime values *)

Definition bytes := list byte.

(** The error classes of types/index.ts, and [JsError] for everything else
    the runtime or a library can throw (TypeError, SyntaxError, ...).  Only
    [ApiError] carries a [statusCode] property. *)
Inductive exn : Type :=
| ApiError (statusCode : Z) (message : string)
| NetworkError (message : string)
| TimeoutError (message : string)
| DecryptionError (message : string)
| SignatureVerificationError (message : string)
| InboxNotFoundError (message : string)
| EmailNotFoundError (message : string)
| SSEError (message : string)
| StrategyError (message : string)
| JsError (message : string).

Definition message_of (e : exn) : string :=
  match e with
  | ApiError _ m | NetworkError m | TimeoutError m | DecryptionError m
  | SignatureVerificationError m | InboxNotFoundError m
  | EmailNotFoundError m | SSEError m | StrategyError m | JsError m => m
  end.

(** ['statusCode' in error], followed by reading the property. *)
Definition statusCode_of (e : exn) : option Z :=
  match e with
  | ApiError c _ => Some c
  | _ => None
  end.

Inductive result (A : Type) : Type :=
| Ok (a : A)
| Err (e : exn).
Arguments Ok {A} a.
Arguments Err {A} e.

(** ** The effect monad

    [Eff.M St Ev A] is a computation over a mutable state [St] that records the
    external calls it makes as events [Ev], oldest first, and either returns
    or throws.  A throw keeps the state changes and the events made so far,
    as a JavaScript exception does. *)
Module Eff.
Section Monad.
Variables St Ev : Type.

Definition M (A : Type) : Type := St -> St * list Ev * result A.

Definition ret {A} (a : A) : M A := fun s => (s, [], Ok a).

Definition throw {A} (e : exn) : M A := fun s => (s, [], Err e).

Definition bind {A B} (m : M A) (k : A -> M B) : M B :=
  fun s =>
    match m s with
    | (s1, t1, Ok a) =>
        match k a s1 with
        | (s2, t2, r) => (s2, t1 ++ t2, r)
        end
    | (s1, t1, Err e) => (s1, t1, Err e)
    end.

(** [try { m } catch (e) { h e }] *)
Definition try_catch {A} (m : M A) (h : exn -> M A) : M A :=
  fun s =>
    match m s with
    | (s1, t1, Ok a) => (s1, t1, Ok a)
    | (s1, t1, Err e) =>
        match h e s1 with
        | (s2, t2, r) => (s2, t1 ++ t2, r)
        end
    end.

Definition get : M St := fun s => (s, [], Ok s).
Definition put (s' : St) : M unit := fun _ => (s', [], Ok tt).
Definition modify (f : St -> St) : M unit := fun s => (f s, [], Ok tt).
Definition emit (e : Ev) : M unit := fun s => (s, [e], Ok tt).

(** Lifting the outcome of an external call. *)
Definition lift {A} (r : result A) : M A := fun s => (s, [], r).

Definition state_of {A} (x : St * list Ev * result A) : St := fst (fst x).
Definition events_of {A} (x : St * list Ev * result A) : list Ev := snd (fst x).
Definition outcome_of {A} (x : St * list Ev * result A) : result A := snd x.
End Monad.
End Eff.

Arguments Eff.ret {St Ev A} a.
Arguments Eff.throw {St Ev A} e.
Arguments Eff.bind {St Ev A B} m k.
Arguments Eff.try_catch {St Ev A} m h.
Arguments Eff.get {St Ev}.
Arguments Eff.put {St Ev} s'.
Arguments Eff.modify {St Ev} f.
Arguments Eff.emit {St Ev} e.
Arguments Eff.lift {St Ev A} r.
Arguments Eff.state_of {St Ev A} x.
Arguments Eff.events_of {St Ev A} x.
Arguments Eff.outcome_of {St Ev A} x.

Declare Scope eff_scope.
Delimit Scope eff_scope with eff.
Notation "x <- m ;; k" := (Eff.bind m (fun x => k))
  (at level 61, m at next level, right associativity) : eff_scope.
Notation "m ;;; k" := (Eff.bind m (fun _ => k))
  (at level 61, right associativity) : eff_scope.

(** Checking a decidable property of every number below a bound. *)
Fixpoint all_below (n : nat) (p : N -> bool) : bool :=
  match n with
  | O => true
  | S m => p (N.of_nat m) && all_below m p
  end.

(** ** crypto/utils.ts: the codec *)
Module Codec.
Local Open Scope N_scope.

(** *** The runtime's base64 (Node's [Buffer])

    [Buffer.from(b).toString('base64')] is RFC 4648 base64 with padding.
    [Buffer.from(s, 'base64')] is Node's lenient decoder: it accepts the
    standard and the URL-safe alphabet, skips any other character, and
    stops at the first ['=']. *)

Definition b64_alphabet : string :=
  "ABCDEFGHIJKLMNOPQRSTUVWXYZabcdefghijklmnopqrstuvwxyz0123456789+/".

Definition b64_char (n : N) : ascii :=
  match String.get (N.to_nat n) b64_alphabet with
  | Some c => c
  | None => "="%char
  end.

Definition byte_of_N (n : N) : byte :=
  match Byte.of_N (n mod 256) with
  | Some b => b
  | None => x00
  end.

Fixpoint Buffer_toString_base64 (buf : bytes) : string :=
  match buf with
  | [] => EmptyString
  | [a] =>
      let a := Byte.to_N a in
      String (b64_char (N.shiftr a 2))
        (String (b64_char (N.shiftl (N.land a 3) 4)) "==")
  | [a; b] =>
      let a := Byte.to_N a in
      let b := Byte.to_N b in
      String (b64_char (N.shiftr a 2))
        (String (b64_char (N.lor (N.shiftl (N.land a 3) 4) (N.shiftr b 4)))
           (String (b64_char (N.shiftl (N.land b 15) 2)) "="))
  | a :: b :: c :: rest =>
      let a := Byte.to_N a in
      let b := Byte.to_N b in
      let c := Byte.to_N c in
      String (b64_char (N.shiftr a 2))
        (String (b64_char (N.lor (N.shiftl (N.land a 3) 4) (N.shiftr b 4)))
           (String (b64_char (N.lor (N.shiftl (N.land b 15) 2) (N.shiftr c 6)))
              (String (b64_char (N.land c 63))
                 (Buffer_toString_base64 rest))))
  end.

Inductive b64_class : Type :=
| Sextet (n : N)
| Stop
| Skip.

Definition unbase64 (ch : ascii) : b64_class :=
  let n := N_of_ascii ch in
  if (65 <=? n) && (n <=? 90) then Sextet (n - 65)
  else if (97 <=? n) && (n <=? 122) then Sextet (n - 71)
  else if (48 <=? n) && (n <=? 57) then Sextet (n + 4)
  else if (n =? 43) || (n =? 45) then Sextet 62
  else if (n =? 47) || (n =? 95) then Sextet 63
  else if n =? 61 then Stop
  else Skip.

Fixpoint sextets (s : string) : list N :=
  match s with
  | EmptyString => []
  | String ch rest =>
      match unbase64 ch with
      | Sextet n => n :: sextets rest
      | Stop => []
      | Skip => sextets rest
      end
  end.

Fixpoint decode_sextets (l : list N) : bytes :=
  match l with
  | a :: b :: c :: d :: rest =>
      byte_of_N (N.lor (N.shiftl (N.land a 63) 2) (N.shiftr (N.land b 48) 4))
      :: byte_of_N (N.lor (N.shiftl (N.land b 15) 4) (N.shiftr (N.land c 60) 2))
      :: byte_of_N (N.lor (N.shiftl (N.land c 3) 6) (N.land d 63))
      :: decode_sextets rest
  | [a; b; c] =>
      [ byte_of_N (N.lor (N.shiftl (N.land a 63) 2) (N.shiftr (N.land b 48) 4));
        byte_of_N (N.lor (N.shiftl (N.land b 15) 4) (N.shiftr (N.land c 60) 2)) ]
  | [a; b] =>
      [ byte_of_N (N.lor (N.shiftl (N.land a 63) 2) (N.shiftr (N.land b 48) 4)) ]
  | _ => []
  end.

Definition Buffer_from_base64 (s : string) : bytes :=
  decode_sextets (sextets s).

(** *** String methods *)

(** [s.replace(/from/g, to)] for one-character patterns. *)
Fixpoint replace_char (from to : ascii) (s : string) : string :=
  match s with
  | EmptyString => EmptyString
  | String ch rest =>
      String (if Ascii.eqb ch from then to else ch) (replace_char from to rest)
  end.

(** [s.replace(/ch/g, '')] *)
Fixpoint remove_char (from : ascii) (s : string) : string :=
  match s with
  | EmptyString => EmptyString
  | String ch rest =>
      if Ascii.eqb ch from then remove_char from rest
      else String ch (remove_char from rest)
  end.

(** [s.repeat(n)] for a one-character [s]. *)
Fixpoint repeat_char (ch : ascii) (n : nat) : string :=
  match n with
  | 0%nat => EmptyString
  | S m => String ch (repeat_char ch m)
  end.

(** *** The exported functions *)

Definition toBase64Url (buffer : bytes) : string :=
  let base64 := Buffer_toString_base64 buffer in
  remove_char "=" (replace_char "/" "_" (replace_char "+" "-" base64)).

Definition fromBase64Url (base64url : string) : bytes :=
  let base64 := replace_char "_" "/" (replace_char "-" "+" base64url) in
  let pad := (String.length base64 mod 4)%nat in
  let base64 :=
    if Nat.eqb pad 0%nat then base64
    else (base64 ++ repeat_char "=" (4 - pad))%string in
  Buffer_from_base64 base64.

(** A list has no underlying [ArrayBuffer] to be a view of: the copy made
    for a view and the buffer returned as it is hold the same bytes. *)
Definition ensureOwnBuffer (buffer : bytes) : bytes := buffer.

Definition concatBuffers (buffers : list bytes) : bytes :=
  List.concat buffers.

Definition toBase64 (buffer : bytes) : string := Buffer_toString_base64 buffer.

Definition fromBase64 (base64 : string) : bytes := Buffer_from_base64 base64.

(** *** Names for the pieces of the two functions, used to state lemmas *)

(** The characters of the URL-safe alphabet, as [toBase64Url] produces
    them and as [fromBase64Url] maps them back. *)
Definition url_char (ch : ascii) : ascii :=
  let ch := if Ascii.eqb ch "+" then "-"%char else ch in
  if Ascii.eqb ch "/" then "_"%char else ch.

Definition unurl_char (ch : ascii) : ascii :=
  let ch := if Ascii.eqb ch "-" then "+"%char else ch in
  if Ascii.eqb ch "_" then "/"%char else ch.

Definition to_url (base64 : string) : string :=
  remove_char "=" (replace_char "/" "_" (replace_char "+" "-" base64)).

Definition of_url (base64url : string) : string :=
  replace_char "_" "/" (replace_char "-" "+" base64url).

(** The four sextets of a group of three bytes, and the last sextet of a
    short final group. *)
Definition s0 (a : N) : N := N.shiftr a 2.
Definition s1 (a b : N) : N := N.lor (N.shiftl (N.land a 3) 4) (N.shiftr b 4).
Definition s2 (b c : N) : N := N.lor (N.shiftl (N.land b 15) 2) (N.shiftr c 6).
Definition s3 (c : N) : N := N.land c 63.
Definition s1_last (a : N) : N := N.shiftl (N.land a 3) 4.
Definition s2_last (b : N) : N := N.shiftl (N.land b 15) 2.

(** The three bytes of a group of four sextets. *)
Definition d0 (a b : N) : N := N.lor (N.shiftl (N.land a 63) 2) (N.shiftr (N.land b 48) 4).
Definition d1 (b c : N) : N := N.lor (N.shiftl (N.land b 15) 4) (N.shiftr (N.land c 60) 2).
Definition d2 (c d : N) : N := N.lor (N.shiftl (N.land c 3) 6) (N.land d 63).

(** The text [fromBase64Url] hands to [Buffer.from]. *)
Definition padded (base64url : string) : string :=
  let base64 := of_url base64url in
  let pad := (String.length base64 mod 4)%nat in
  if Nat.eqb pad 0%nat then base64
  else (base64 ++ repeat_char "=" (4 - pad))%string.

Definition sextet_char_ok (n : N) : bool :=
  let ch := url_char (b64_char n) in
  negb (Ascii.eqb ch "=") && negb (Ascii.eqb ch "+") && negb (Ascii.eqb ch "/")
  && Ascii.eqb (unurl_char ch) (b64_char n)
  && match unbase64 (unurl_char ch) with
     | Sextet m => N.eqb m n
     | _ => false
     end.

Definition byte_ok (a : N) : bool :=
  (s0 a <? 64) && (s1_last a <? 64) && (s2_last a <? 64) && (s3 a <? 64)
  && (d0 (s0 a) (s1_last a) =? a)
  && (N.lor (N.shiftl (N.shiftr a 4) 4) (N.shiftr (N.shiftl (N.land a 15) 2) 2) =? a).

Definition byte_pair_ok (a b : N) : bool :=
  (s1 a b <? 64) && (s2 a b <? 64)
  && (d0 (s0 a) (s1 a b) =? a)
  && (d1 (s1 a b) (s2_last b) =? b)
  && (N.land (s1 a b) 15 =? N.shiftr b 4)
  && (N.land (s2 a b) 60 =? N.shiftl (N.land a 15) 2)
  && (d2 (s2 a b) (s3 b) =? b).

End Codec.

(** ** crypto/constants.ts, crypto/signature.ts, crypto/keypair.ts,
       crypto/decrypt.ts *)
Module Crypto.
Import Codec.
Local Open Scope string_scope.
Local Open Scope eff_scope.

(** *** Data *)

(** A string property of the JSON payload as the runtime holds it:
    [Some s] when the property is a string, [None] when it is absent
    ([undefined]), on which calling [.replace] throws a [TypeError]. *)
Definition field := option string.

Record Algs : Type := {
  kem : string;
  sig : string;
  aead : string;
  kdf : string
}.

Record EncryptedData : Type := {
  v : Z;
  ct_kem : field;
  nonce : field;
  aad : field;
  ciphertext : field;
  signature : field;      (* the property named [sig] *)
  server_sig_pk : field;
  algs : Algs
}.

Record Keypair : Type := {
  publicKey : bytes;
  secretKey : bytes;
  publicKeyB64 : string
}.

Definition HKDF_CONTEXT : string := "vaultsandbox:email:v1".
Definition MLDSA65_PUBLIC_KEY_SIZE : N := 1952.

(** *** The external primitives

    The signature and KEM library, WebCrypto and [TextEncoder] are not
    part of the program: they are a parameter of the embedding.  Each call
    returns or throws. *)

Record CryptoKey : Type := {
  key_format : string;
  key_data : bytes;
  key_algorithm : string;
  key_usages : list string
}.

Record HkdfParams : Type := {
  hkdf_name : string;
  hkdf_hash : string;
  hkdf_salt : bytes;
  hkdf_info : bytes
}.

Record AesGcmParams : Type := {
  gcm_name : string;
  gcm_iv : bytes;
  gcm_additionalData : bytes;
  gcm_tagLength : N
}.

Record Primitives : Type := {
  TextEncoder_encode : string -> bytes;
  ml_dsa65_verify : bytes -> bytes -> bytes -> result bool;
  ml_kem768_decapsulate : bytes -> bytes -> result bytes;
  subtle_digest : string -> bytes -> result bytes;
  subtle_importKey : string -> bytes -> string -> list string -> result CryptoKey;
  subtle_deriveBits : HkdfParams -> CryptoKey -> N -> result bytes;
  subtle_decrypt : AesGcmParams -> CryptoKey -> bytes -> result bytes
}.

(** The calls a computation makes to the primitives, in order. *)
Inductive call : Type :=
| Call_verify (sg msg pk : bytes)
| Call_decapsulate (ct sk : bytes)
| Call_digest (alg : string) (data : bytes)
| Call_importKey (format : string) (raw : bytes) (alg : string) (usages : list string)
| Call_deriveBits (params : HkdfParams) (key : CryptoKey) (length : N)
| Call_decrypt (params : AesGcmParams) (key : CryptoKey) (data : bytes).

Definition is_decapsulate (c : call) : bool :=
  match c with
  | Call_decapsulate _ _ => true
  | _ => false
  end.

(** The crypto code keeps no state of its own. *)
Definition M (A : Type) : Type := Eff.M unit call A.

Definition run {A} (m : M A) : list call * result A :=
  (Eff.events_of (m tt), Eff.outcome_of (m tt)).

Section WithPrimitives.
Variable P : Primitives.

Definition verify (sg msg pk : bytes) : M bool :=
  Eff.emit (Call_verify sg msg pk) ;;; Eff.lift (ml_dsa65_verify P sg msg pk).

Definition decapsulate (ct sk : bytes) : M bytes :=
  Eff.emit (Call_decapsulate ct sk) ;;; Eff.lift (ml_kem768_decapsulate P ct sk).

Definition digest (alg : string) (data : bytes) : M bytes :=
  Eff.emit (Call_digest alg data) ;;; Eff.lift (subtle_digest P alg data).

Definition importKey (format : string) (raw : bytes) (alg : string)
           (usages : list string) : M CryptoKey :=
  Eff.emit (Call_importKey format raw alg usages) ;;;
  Eff.lift (subtle_importKey P format raw alg usages).

Definition deriveBits (params : HkdfParams) (key : CryptoKey) (length : N) : M bytes :=
  Eff.emit (Call_deriveBits params key length) ;;;
  Eff.lift (subtle_deriveBits P params key length).

Definition aes_decrypt (params : AesGcmParams) (key : CryptoKey) (data : bytes) : M bytes :=
  Eff.emit (Call_decrypt params key data) ;;;
  Eff.lift (subtle_decrypt P params key data).

(** [fromBase64Url(encryptedData.x)] on a property of the payload. *)
Definition decode_field (f : field) : M bytes :=
  match f with
  | Some s => Eff.ret (fromBase64Url s)
  | None =>
      Eff.throw (JsError "Cannot read properties of undefined (reading 'replace')")
  end.

(** [new Uint8Array([version])]: the number is stored modulo 256. *)
Definition uint8_of_number (n : Z) : byte :=
  byte_of_N (Z.to_N (n mod 256)).

(** [new DataView(buf).setUint32(0, n, false)] on a fresh 4-byte
    buffer: the value modulo 2^32, most significant byte first. *)
Definition setUint32_be (n : N) : bytes :=
  let n := (n mod 4294967296)%N in
  [ byte_of_N (N.shiftr n 24); byte_of_N (N.shiftr n 16);
    byte_of_N (N.shiftr n 8); byte_of_N n ].

(** **** signature.ts *)

Definition buildAlgsCiphersuite (a : Algs) : string :=
  kem a ++ ":" ++ sig a ++ ":" ++ aead a ++ ":" ++ kdf a.

Definition buildTranscript (version : Z) (algsCiphersuite : string)
           (ctKem nonce aad ciphertext serverSigPk : bytes) (context : string) : bytes :=
  let versionBytes := [uint8_of_number version] in
  let algsBytes := TextEncoder_encode P algsCiphersuite in
  let contextBytes := TextEncoder_encode P context in
  concatBuffers
    [versionBytes; algsBytes; contextBytes; ctKem; nonce; aad; ciphertext; serverSigPk].

Definition verifySignature (encryptedData : EncryptedData) : M bool :=
  Eff.try_catch
    (sg <- decode_field (signature encryptedData) ;;
     ctKem <- decode_field (ct_kem encryptedData) ;;
     nonceBytes <- decode_field (nonce encryptedData) ;;
     aadBytes <- decode_field (aad encryptedData) ;;
     ciphertextBytes <- decode_field (ciphertext encryptedData) ;;
     serverSigPk <- decode_field (server_sig_pk encryptedData) ;;
     let algsCiphersuite := buildAlgsCiphersuite (algs encryptedData) in
     let transcript :=
       buildTranscript (v encryptedData) algsCiphersuite ctKem nonceBytes
                       aadBytes ciphertextBytes serverSigPk HKDF_CONTEXT in
     isValid <- verify (ensureOwnBuffer sg) (ensureOwnBuffer transcript)
                       (ensureOwnBuffer serverSigPk) ;;
     if negb isValid
     then Eff.throw (SignatureVerificationError
                       "SIGNATURE VERIFICATION FAILED - Data may be tampered!")
     else Eff.ret true)
    (fun error =>
       match error with
       | SignatureVerificationError _ => Eff.throw error
       | _ => Eff.throw (SignatureVerificationError
                           ("Signature verification error: " ++ message_of error))
       end).

Definition verifySignatureSafe (encryptedData : EncryptedData) : M bool :=
  Eff.try_catch (verifySignature encryptedData) (fun _ => Eff.ret false).

(** **** keypair.ts *)

Definition deriveKey (ikm : bytes) (context : string) (aad ctKem : bytes) : M bytes :=
  let contextBytes := TextEncoder_encode P context in
  saltBuffer <- digest "SHA-256" ctKem ;;
  let salt := saltBuffer in
  let aadLength := setUint32_be (N.of_nat (List.length aad)) in
  let info := concatBuffers [contextBytes; aadLength; aad] in
  let ikmClean := ensureOwnBuffer ikm in
  let saltClean := ensureOwnBuffer salt in
  let infoClean := ensureOwnBuffer info in
  baseKey <- importKey "raw" ikmClean "HKDF" ["deriveBits"] ;;
  derivedBits <- deriveBits
                   {| hkdf_name := "HKDF"; hkdf_hash := "SHA-512";
                      hkdf_salt := saltClean; hkdf_info := infoClean |}
                   baseKey 256 ;;
  Eff.ret (ensureOwnBuffer derivedBits).

(** **** decrypt.ts *)

Definition decrypt (encryptedData : EncryptedData) (keypair : Keypair) : M bytes :=
  Eff.try_catch
    (_ <- verifySignature encryptedData ;;
     ctKem <- decode_field (ct_kem encryptedData) ;;
     nonceBytes <- decode_field (nonce encryptedData) ;;
     aadBytes <- decode_field (aad encryptedData) ;;
     ciphertextBytes <- decode_field (ciphertext encryptedData) ;;
     sharedSecret <- decapsulate ctKem (ensureOwnBuffer (secretKey keypair)) ;;
     aesKey <- deriveKey sharedSecret HKDF_CONTEXT aadBytes ctKem ;;
     let aesKeyClean := ensureOwnBuffer aesKey in
     let nonceClean := ensureOwnBuffer nonceBytes in
     let aadClean := ensureOwnBuffer aadBytes in
     let ciphertextClean := ensureOwnBuffer ciphertextBytes in
     cryptoKey <- importKey "raw" aesKeyClean "AES-GCM" ["decrypt"] ;;
     plaintext <- aes_decrypt
                    {| gcm_name := "AES-GCM"; gcm_iv := nonceClean;
                       gcm_additionalData := aadClean; gcm_tagLength := 128 |}
                    cryptoKey ciphertextClean ;;
     Eff.ret plaintext)
    (fun error =>
       match error with
       | SignatureVerificationError _ => Eff.throw error
       | DecryptionError _ => Eff.throw error
       | _ => Eff.throw (DecryptionError ("Decryption failed: " ++ message_of error))
       end).

(** **** The verifier as the specification words it

    The decoded byte fields of an envelope, the canonical ciphersuite
    string and the transcript in the order the specification lists its
    parts. *)

Record Decoded : Type := {
  d_sig : bytes;
  d_ctKem : bytes;
  d_nonce : bytes;
  d_aad : bytes;
  d_ciphertext : bytes;
  d_serverSigPk : bytes
}.

Definition spec_decode (e : EncryptedData) : option Decoded :=
  match signature e, ct_kem e, nonce e, aad e, ciphertext e, server_sig_pk e with
  | Some sg, Some ck, Some n, Some a, Some c, Some pk =>
      Some {| d_sig := fromBase64Url sg; d_ctKem := fromBase64Url ck;
              d_nonce := fromBase64Url n; d_aad := fromBase64Url a;
              d_ciphertext := fromBase64Url c;
              d_serverSigPk := fromBase64Url pk |}
  | _, _, _, _, _, _ => None
  end.

Definition spec_ciphersuite (e : EncryptedData) : string :=
  kem (algs e) ++ ":" ++ sig (algs e) ++ ":" ++ aead (algs e) ++ ":" ++ kdf (algs e).

Definition spec_transcript (e : EncryptedData) (d : Decoded) : bytes :=
  ([uint8_of_number (v e)]
     ++ TextEncoder_encode P (spec_ciphersuite e)
     ++ TextEncoder_encode P HKDF_CONTEXT
     ++ d_ctKem d ++ d_nonce d ++ d_aad d ++ d_ciphertext d
     ++ d_serverSigPk d)%list.

(** The envelope's signature verifies against the transcript derived
    from the envelope's own fields. *)
Definition signature_verifies (e : EncryptedData) : bool :=
  match spec_decode e with
  | Some d =>
      match ml_dsa65_verify P (d_sig d) (spec_transcript e d) (d_serverSigPk d) with
      | Ok true => true
      | _ => false
      end
  | None => false
  end.

(** The value of a 4-byte big-endian field. *)
Definition be_value (b : bytes) : N :=
  fold_left (fun acc x => (acc * 256 + Byte.to_N x)%N) b 0%N.

(** The info string of the key derivation as the specification words
    it. *)
Definition spec_info (context : string) (aad : bytes) : bytes :=
  (TextEncoder_encode P context ++ setUint32_be (N.of_nat (List.length aad)) ++ aad)%list.

End WithPrimitives.

(** A trivial instance of the primitives, for running the code on examples:
    the digest is 32 zero bytes, every signature is rejected. *)
Definition rejecting : Primitives := {|
  TextEncoder_encode := list_byte_of_string;
  ml_dsa65_verify := fun _ _ _ => Ok false;
  ml_kem768_decapsulate := fun _ _ => Ok (repeat x00 32);
  subtle_digest := fun _ _ => Ok (repeat x00 32);
  subtle_importKey := fun f raw alg us =>
    Ok {| key_format := f; key_data := raw; key_algorithm := alg; key_usages := us |};
  subtle_deriveBits := fun _ _ n => Ok (repeat x00 (N.to_nat (n / 8)));
  subtle_decrypt := fun _ _ data => Ok data
|}.

(** The same with a verifier that accepts every signature. *)
Definition accepting : Primitives := {|
  TextEncoder_encode := list_byte_of_string;
  ml_dsa65_verify := fun _ _ _ => Ok true;
  ml_kem768_decapsulate := fun _ _ => Ok (repeat x00 32);
  subtle_digest := fun _ _ => Ok (repeat x00 32);
  subtle_importKey := fun f raw alg us =>
    Ok {| key_format := f; key_data := raw; key_algorithm := alg; key_usages := us |};
  subtle_deriveBits := fun _ _ n => Ok (repeat x00 (N.to_nat (n / 8)));
  subtle_decrypt := fun _ _ data => Ok data
|}.

Definition sample_envelope : EncryptedData := {|
  v := 1;
  ct_kem := Some "AAEC";
  nonce := Some "AwQF";
  aad := Some "BgcI";
  ciphertext := Some "CQoL";
  signature := Some "DA0O";
  server_sig_pk := Some "DxAR";
  algs := {| kem := "ML-KEM-768"; sig := "ML-DSA-65";
             aead := "AES-256-GCM"; kdf := "HKDF-SHA-512" |}
|}.

Definition sample_keypair : Keypair := {|
  publicKey := [x01]; secretKey := [x02]; publicKeyB64 := "AQ"
|}.

End Crypto.

(** ** utils/email-utils.ts: the filter of a wait *)
Module Mail.
Local Open Scope string_scope.

(** A decrypted email, with the parts the delivery layer reads. *)
Record IEmail : Type := {
  id : string;
  from : string;
  subject : string
}.

(** What the objects a caller passes in can reach of the JavaScript heap:
    the [lastIndex] of its regular expressions, the variables its predicate
    closes over.  A location holds a number. *)
Definition heap : Type := nat -> Z.

Definition update (l : nat) (v : Z) (h : heap) : heap :=
  fun l' => if Nat.eqb l' l then v else h l'.

(** Code of the caller, run synchronously: it reads and writes the heap
    and returns or throws. *)
Definition user (A : Type) : Type := heap -> heap * result A.

(** [string | RegExp].  [test] is the [test] method of the regular
    expression: with the [g] or [y] flag it starts at the object's
    [lastIndex] and moves it, so that its answer depends on the calls made
    before. *)
Inductive matcher : Type :=
| MatchString (s : string)
| MatchRegExp (test : string -> user bool).

Record WaitOptions : Type := {
  timeout : option Q;
  pollInterval : option Q;
  subject_filter : option matcher;          (* [options.subject] *)
  from_filter : option matcher;             (* [options.from] *)
  predicate : option (IEmail -> user bool)
}.

(** [haystack.includes(needle)] *)
Definition includes (haystack needle : string) : bool :=
  match String.index 0 needle haystack with
  | Some _ => true
  | None => false
  end.

(** One of the two filter blocks of [matchesFilters], with [true] for
    falling through to the next block; an absent filter and the empty
    string are falsy and let every email pass. *)
Definition passes (m : option matcher) (text : string) : user bool :=
  fun h =>
    match m with
    | None => (h, Ok true)
    | Some (MatchString "") => (h, Ok true)
    | Some (MatchString s) => (h, Ok (includes text s))
    | Some (MatchRegExp test) => test text h
    end.

Definition matchesFilters (email : IEmail) (options : WaitOptions) : user bool :=
  fun h =>
    match passes (subject_filter options) (subject email) h with
    | (h1, Err error) => (h1, Err error)
    | (h1, Ok false) => (h1, Ok false)
    | (h1, Ok true) =>
        match passes (from_filter options) (from email) h1 with
        | (h2, Err error) => (h2, Err error)
        | (h2, Ok false) => (h2, Ok false)
        | (h2, Ok true) =>
            match predicate options with
            | Some p => p email h2
            | None => (h2, Ok true)
            end
        end
    end.

Fixpoint findMatchingEmail (emails : list IEmail) (options : WaitOptions) (h : heap)
  : heap * result (option IEmail) :=
  match emails with
  | [] => (h, Ok None)
  | email :: rest =>
      match matchesFilters email options h with
      | (h', Err error) => (h', Err error)
      | (h', Ok true) => (h', Ok (Some email))
      | (h', Ok false) => findMatchingEmail rest options h'
      end
  end.

Definition no_options : WaitOptions := {|
  timeout := None; pollInterval := None; subject_filter := None;
  from_filter := None; predicate := None
|}.

(** *** Examples of regular expressions

    [new RegExp(needle)] for a text without special characters: with no
    flag, [lastIndex] is neither read nor written. *)
Definition literal (needle : string) : string -> user bool :=
  fun text h => (h, Ok (includes text needle)).

(** [new RegExp(needle, 'g')], the object at location [l]: the search
    starts at [lastIndex], which is then set past the match, or to 0 when
    there is none. *)
Definition literal_g (l : nat) (needle : string) : string -> user bool :=
  fun text h =>
    match String.index (Z.to_nat (h l)) needle text with
    | Some i => (update l (Z.of_nat (i + String.length needle)) h, Ok true)
    | None => (update l 0 h, Ok false)
    end.

(** A heap in which every [lastIndex] is 0. *)
Definition fresh_heap : heap := fun _ => 0%Z.

End Mail.

(** ** http/api-client.ts: the errors of the API client *)
Module ApiClient.
Local Open Scope string_scope.

Record AxiosResponse : Type := {
  status : Z;
  data_error : option string         (* [response.data?.error] *)
}.

Record AxiosError : Type := {
  response : option AxiosResponse;
  message : string
}.

(** [a || b] on strings: the empty string and [undefined] are falsy. *)
Definition or_else (a : option string) (b : string) : string :=
  match a with
  | Some "" | None => b
  | Some x => x
  end.

Definition lower_char (ch : ascii) : ascii :=
  let n := N_of_ascii ch in
  if ((65 <=? n) && (n <=? 90))%N then ascii_of_N (n + 32) else ch.

Fixpoint toLowerCase (s : string) : string :=
  match s with
  | EmptyString => EmptyString
  | String ch rest => String (lower_char ch) (toLowerCase rest)
  end.

Definition handleError (error : AxiosError) : exn :=
  match response error with
  | None => NetworkError (or_else (Some (message error)) "Network error occurred")
  | Some r =>
      let msg := or_else (data_error r) (message error) in
      if (status r =? 404)%Z then
        if Mail.includes (toLowerCase msg) "inbox" then InboxNotFoundError msg
        else if Mail.includes (toLowerCase msg) "email" then EmailNotFoundError msg
        else ApiError (status r) msg
      else ApiError (status r) msg
  end.

End ApiClient.

(** ** strategies/polling-strategy.ts *)
Module Polling.
Import Mail.
Local Open Scope string_scope.
Local Open Scope Q_scope.

Definition Qlt_bool (a b : Q) : bool := negb (Qle_bool b a).

Record PollingConfig : Type := {
  cfg_initialInterval : option Q;
  cfg_maxBackoff : option Q;
  cfg_backoffMultiplier : option Q;
  cfg_jitterFactor : option Q
}.

Record PollingStrategy : Type := {
  initialInterval : Q;
  maxBackoff : Q;
  backoffMultiplier : Q;
  jitterFactor : Q
}.

(** [a ?? b] *)
Definition nullish {A} (a : option A) (b : A) : A :=
  match a with
  | Some x => x
  | None => b
  end.

(** The constructor. *)
Definition new_PollingStrategy (config : PollingConfig) : PollingStrategy := {|
  initialInterval := nullish (cfg_initialInterval config) 2000;
  maxBackoff := nullish (cfg_maxBackoff config) 30000;
  backoffMultiplier := nullish (cfg_backoffMultiplier config) 1.5;
  jitterFactor := nullish (cfg_jitterFactor config) 0.3
|}.

Definition default_config : PollingConfig := {|
  cfg_initialInterval := None; cfg_maxBackoff := None;
  cfg_backoffMultiplier := None; cfg_jitterFactor := None
|}.

Record SyncStatus : Type := {
  emailCount : Z;
  emailsHash : string
}.

(** *** The environment of one pass through the loop body

    What the API client answers, what [Math.random()] returns, how time
    passes while the pass awaits, and what other code of the caller has done
    to the caller's objects, since the filters last ran, when the pass runs
    them; synchronous code takes no time. *)
Record tick : Type := {
  sync : result SyncStatus;         (* [getSyncStatus] *)
  emails : result (list IEmail);    (* [listEmails] then [decryptEmails] *)
  latency : Q;                      (* time taken by the awaited calls *)
  random : Q;                       (* [Math.random()] *)
  overshoot : Q;                    (* how late [sleep] wakes up *)
  meanwhile : heap -> heap          (* other code of the caller, during the awaits *)
}.

Inductive io : Type :=
| Io_getSyncStatus
| Io_listEmails
| Io_sleep (ms : Q)
| Io_callback (emailId : string).

Inductive outcome : Type :=
| Returned (email : IEmail)
| Thrown (e : exn)
| Waiting.                           (* the script ends while the loop runs *)

(** The local variables of [waitForEmail] that live across passes;
    [elapsed] is [Date.now() - startTime]. *)
Record state : Type := {
  elapsed : Q;
  lastHash : option string;
  currentBackoff : Q;
  objects : heap                     (* the caller's objects, as the filters left them *)
}.

(** A pass ends the wait, leaving the caller's objects as [h], or goes on
    to the next pass. *)
Inductive step : Type :=
| Done (o : outcome) (h : heap)
| Next (st : state).

Section Wait.
Variable this : PollingStrategy.
Variable options : WaitOptions.

Definition the_timeout : Q := nullish (timeout options) 30000.
Definition the_pollInterval : Q := nullish (pollInterval options) (initialInterval this).

(** The [catch] block of the loop body. *)
Definition on_error (error : exn) : exn :=
  match statusCode_of error with
  | Some 404%Z => InboxNotFoundError "Inbox not found or has been deleted"
  | _ => error
  end.

Definition hash_changed (lastHash : option string) (h : string) : bool :=
  match lastHash with
  | None => true
  | Some l => negb (String.eqb h l)
  end.

Definition jitter (r currentBackoff : Q) : Q :=
  r * jitterFactor this * currentBackoff.

Definition desiredWaitTime (r currentBackoff : Q) : Q :=
  Qmin (currentBackoff + jitter r currentBackoff) (maxBackoff this).

Definition waitTime (r currentBackoff remainingTime : Q) : Q :=
  Qmin (desiredWaitTime r currentBackoff) remainingTime.

Definition nextBackoff (currentBackoff : Q) : Q :=
  Qmin (currentBackoff * backoffMultiplier this) (maxBackoff this).

(** From the computation of [remainingTime] to the end of the body. *)
Definition sleep_and_back_off (tk : tick) (syncStatus : SyncStatus) (st : state)
  : list io * step :=
  let now := elapsed st + latency tk in
  let remainingTime := the_timeout - now in
  if Qle_bool remainingTime 0 then ([], Done (Thrown (TimeoutError
                                       "No matching email received within timeout"))
                                        (objects st))
  else
    let w := waitTime (random tk) (currentBackoff st) remainingTime in
    let currentBackoff' :=
      match lastHash st with
      | Some l =>
          if String.eqb (emailsHash syncStatus) l
          then nextBackoff (currentBackoff st)
          else currentBackoff st
      | None => currentBackoff st
      end in
    ([Io_sleep w],
     Next {| elapsed := now + w + overshoot tk;
             lastHash := lastHash st;
             currentBackoff := currentBackoff';
             objects := objects st |}).

(** One pass through the body of the [while] loop.  An error thrown by
    the filters is caught by the [catch] block like any other. *)
Definition iteration (tk : tick) (st : state) : list io * step :=
  match sync tk with
  | Err error => ([Io_getSyncStatus], Done (Thrown (on_error error)) (objects st))
  | Ok syncStatus =>
      if hash_changed (lastHash st) (emailsHash syncStatus) then
        let st1 h := {| elapsed := elapsed st;
                        lastHash := Some (emailsHash syncStatus);
                        currentBackoff := the_pollInterval;
                        objects := h |} in
        if (0 <? emailCount syncStatus)%Z then
          match emails tk with
          | Err error =>
              ([Io_getSyncStatus; Io_listEmails],
               Done (Thrown (on_error error)) (objects st))
          | Ok emails =>
              match findMatchingEmail emails options (meanwhile tk (objects st)) with
              | (h, Err error) =>
                  ([Io_getSyncStatus; Io_listEmails], Done (Thrown (on_error error)) h)
              | (h, Ok (Some matchingEmail)) =>
                  ([Io_getSyncStatus; Io_listEmails], Done (Returned matchingEmail) h)
              | (h, Ok None) =>
                  let '(evs, r) := sleep_and_back_off tk syncStatus (st1 h) in
                  (Io_getSyncStatus :: Io_listEmails :: evs, r)
              end
          end
        else
          let '(evs, r) := sleep_and_back_off tk syncStatus (st1 (objects st)) in
          (Io_getSyncStatus :: evs, r)
      else
        let '(evs, r) := sleep_and_back_off tk syncStatus st in
        (Io_getSyncStatus :: evs, r)
  end.

(** The [while] loop, one pass per tick of the environment; with the
    result, the caller's objects as the wait leaves them. *)
Fixpoint loop (script : list tick) (st : state) : list io * outcome * heap :=
  if Qlt_bool (elapsed st) the_timeout then
    match script with
    | [] => ([], Waiting, objects st)
    | tk :: rest =>
        match iteration tk st with
        | (evs, Done o h) => (evs, o, h)
        | (evs, Next st') =>
            let '(evs', o, h) := loop rest st' in ((evs ++ evs')%list, o, h)
        end
    end
  else ([], Thrown (TimeoutError "No matching email received within timeout"),
        objects st).

(** The variables at the start of a wait called when the caller's objects
    are [h]. *)
Definition initial (h : heap) : state :=
  {| elapsed := 0; lastHash := None; currentBackoff := the_pollInterval;
     objects := h |}.

Definition waitForEmail (h : heap) (script : list tick) : list io * outcome * heap :=
  loop script (initial h).

(** The passes of a run that went through all of [ticks] and is still
    in the loop: the events so far and the variables it has reached. *)
Fixpoint run_ticks (ticks : list tick) (st : state) : option (list io * state) :=
  match ticks with
  | [] => Some ([], st)
  | tk :: rest =>
      if Qlt_bool (elapsed st) the_timeout then
        match iteration tk st with
        | (_, Done _ _) => None
        | (evs, Next st') =>
            match run_ticks rest st' with
            | Some (evs', st'') => Some ((evs ++ evs')%list, st'')
            | None => None
            end
        end
      else None
  end.

(** The interval a pass sleeps on: the poll interval when the digest is
    new, the interval carried over otherwise. *)
Definition interval_of (tk_hash : string) (st : state) : Q :=
  if hash_changed (lastHash st) tk_hash then the_pollInterval
  else currentBackoff st.

(** *** The sleep as the specification words it *)
Definition spec_interval (interval : Q) : Q :=
  Qmin (interval * backoffMultiplier this) (maxBackoff this).

Definition spec_sleep (interval r remainingTimeBeforeTimeout : Q) : Q :=
  Qmin (interval + r * (interval * jitterFactor this)) remainingTimeBeforeTimeout.

End Wait.

Fixpoint sleeps (evs : list io) : list Q :=
  match evs with
  | [] => []
  | Io_sleep w :: rest => w :: sleeps rest
  | _ :: rest => sleeps rest
  end.

(** *** subscribe: the background watch *)

(** The variables captured by the closures of one [subscribe] call. *)
Record PollingSubscription : Type := {
  isActive : bool;
  seenEmails : list string
}.

Definition new_subscription : PollingSubscription :=
  {| isActive := true; seenEmails := [] |}.

Definition seen (s : PollingSubscription) (emailId : string) : bool :=
  existsb (String.eqb emailId) (seenEmails s).

(** The [for] loop over the fetched emails: each email not seen before is
    recorded and handed to the callback, whose failure is caught. *)
Fixpoint notify (emails : list IEmail) (s : PollingSubscription)
  : list io * PollingSubscription :=
  match emails with
  | [] => ([], s)
  | email :: rest =>
      if seen s (id email) then notify rest s
      else
        let s' := {| isActive := isActive s;
                 seenEmails := (seenEmails s ++ [id email])%list |} in
        let '(evs, s'') := notify rest s' in
        (Io_callback (id email) :: evs, s'')
  end.

(** One pass of the [poll] loop, entered when [isActive] holds. *)
Definition poll_round (this : PollingStrategy) (fetched : result (list IEmail))
           (s : PollingSubscription) : list io * PollingSubscription :=
  if isActive s then
    let '(evs, s') :=
      match fetched with
      | Ok emails => let '(evs, s') := notify emails s in (Io_listEmails :: evs, s')
      | Err _ => ([Io_listEmails], s)
      end in
    if isActive s' then ((evs ++ [Io_sleep (initialInterval this)])%list, s')
    else (evs, s')
  else ([], s).

(** The handle's [unsubscribe]. *)
Definition unsubscribe (s : PollingSubscription) : PollingSubscription :=
  {| isActive := false; seenEmails := seenEmails s |}.

(** *** A run for examples: a quiet inbox, a long timeout *)
Definition quiet_tick (r : Q) : tick := {|
  sync := Ok {| emailCount := 0; emailsHash := "h0" |};
  emails := Ok [];
  latency := 0;
  random := r;
  overshoot := 0;
  meanwhile := fun h => h
|}.

Definition long_wait : WaitOptions := {|
  timeout := Some 1000000; pollInterval := None; subject_filter := None;
  from_filter := None; predicate := None
|}.

Definition gone_tick : tick := {|
  sync := Err (ApiError 404 "Not Found");
  emails := Ok [];
  latency := 0;
  random := 0;
  overshoot := 0;
  meanwhile := fun h => h
|}.

End Polling.

(** ** strategies/sse-strategy.ts *)
Module SSE.
Import Mail.
Local Open Scope string_scope.
Local Open Scope eff_scope.

(** A callback is a function object; all that matters of it here is its
    identity. *)
Definition callback := nat.

Record InboxSubscription : Type := {
  emailAddress : string;
  inboxHash : string;
  keypair : Crypto.Keypair;
  callbacks : list callback      (* a [Set]: insertion order, no duplicates *)
}.

(** The [EventSource] object the strategy holds. *)
Record EventSource : Type := {
  es_url : string;
  readyState : Z                 (* 0 connecting, 1 open, 2 closed *)
}.

(** A timer handle; it stays in [reconnectTimer] after it has fired. *)
Record Timeout : Type := {
  delay : Q;
  pending : bool
}.

Record SSEConfig : Type := {
  cfg_url : string;
  cfg_apiKey : string;
  cfg_reconnectInterval : option Q;
  cfg_maxReconnectAttempts : option Z;
  cfg_backoffMultiplier : option Q
}.

Record SSEStrategy : Type := {
  url : string;
  apiKey : string;
  reconnectInterval : Q;
  maxReconnectAttempts : Z;
  backoffMultiplier : Q;
  eventSource : option EventSource;
  subscriptions : list (string * InboxSubscription);   (* a [Map], in insertion order *)
  reconnectAttempts : Z;
  reconnectTimer : option Timeout;
  isClosing : bool
}.

Definition new_SSEStrategy (config : SSEConfig) : SSEStrategy := {|
  url := cfg_url config;
  apiKey := cfg_apiKey config;
  reconnectInterval := Polling.nullish (cfg_reconnectInterval config) 5000;
  maxReconnectAttempts := Polling.nullish (cfg_maxReconnectAttempts config) 10%Z;
  backoffMultiplier := Polling.nullish (cfg_backoffMultiplier config) 2;
  eventSource := None;
  subscriptions := [];
  reconnectAttempts := 0%Z;
  reconnectTimer := None;
  isClosing := false
|}.

(** *** Assignments to the fields *)

Definition set_eventSource (x : option EventSource) (s : SSEStrategy) : SSEStrategy := {|
  url := url s; apiKey := apiKey s; reconnectInterval := reconnectInterval s;
  maxReconnectAttempts := maxReconnectAttempts s;
  backoffMultiplier := backoffMultiplier s;
  eventSource := x; subscriptions := subscriptions s;
  reconnectAttempts := reconnectAttempts s; reconnectTimer := reconnectTimer s;
  isClosing := isClosing s
|}.

Definition set_subscriptions (x : list (string * InboxSubscription)) (s : SSEStrategy)
  : SSEStrategy := {|
  url := url s; apiKey := apiKey s; reconnectInterval := reconnectInterval s;
  maxReconnectAttempts := maxReconnectAttempts s;
  backoffMultiplier := backoffMultiplier s;
  eventSource := eventSource s; subscriptions := x;
  reconnectAttempts := reconnectAttempts s; reconnectTimer := reconnectTimer s;
  isClosing := isClosing s
|}.

Definition set_reconnectAttempts (x : Z) (s : SSEStrategy) : SSEStrategy := {|
  url := url s; apiKey := apiKey s; reconnectInterval := reconnectInterval s;
  maxReconnectAttempts := maxReconnectAttempts s;
  backoffMultiplier := backoffMultiplier s;
  eventSource := eventSource s; subscriptions := subscriptions s;
  reconnectAttempts := x; reconnectTimer := reconnectTimer s;
  isClosing := isClosing s
|}.

Definition set_reconnectTimer (x : option Timeout) (s : SSEStrategy) : SSEStrategy := {|
  url := url s; apiKey := apiKey s; reconnectInterval := reconnectInterval s;
  maxReconnectAttempts := maxReconnectAttempts s;
  backoffMultiplier := backoffMultiplier s;
  eventSource := eventSource s; subscriptions := subscriptions s;
  reconnectAttempts := reconnectAttempts s; reconnectTimer := x;
  isClosing := isClosing s
|}.

Definition set_isClosing (x : bool) (s : SSEStrategy) : SSEStrategy := {|
  url := url s; apiKey := apiKey s; reconnectInterval := reconnectInterval s;
  maxReconnectAttempts := maxReconnectAttempts s;
  backoffMultiplier := backoffMultiplier s;
  eventSource := eventSource s; subscriptions := subscriptions s;
  reconnectAttempts := reconnectAttempts s; reconnectTimer := reconnectTimer s;
  isClosing := x
|}.

(** *** [Map] and [Set] *)

Fixpoint map_get (k : string) (m : list (string * InboxSubscription))
  : option InboxSubscription :=
  match m with
  | [] => None
  | (k', x) :: rest => if String.eqb k k' then Some x else map_get k rest
  end.

(** [m.set(k, x)]: in place for a key that is present, at the end for a new
    one. *)
Fixpoint map_set (k : string) (x : InboxSubscription) (m : list (string * InboxSubscription))
  : list (string * InboxSubscription) :=
  match m with
  | [] => [(k, x)]
  | (k', y) :: rest =>
      if String.eqb k k' then (k', x) :: rest else (k', y) :: map_set k x rest
  end.

Definition map_delete (k : string) (m : list (string * InboxSubscription))
  : list (string * InboxSubscription) :=
  filter (fun kv => negb (String.eqb k (fst kv))) m.

Definition values (m : list (string * InboxSubscription)) : list InboxSubscription :=
  map snd m.

Definition set_add (c : callback) (l : list callback) : list callback :=
  if existsb (Nat.eqb c) l then l else (l ++ [c])%list.

Definition set_delete (c : callback) (l : list callback) : list callback :=
  filter (fun c' => negb (Nat.eqb c c')) l.

Definition with_callbacks (l : list callback) (sub : InboxSubscription)
  : InboxSubscription := {|
  emailAddress := emailAddress sub; inboxHash := inboxHash sub;
  keypair := keypair sub; callbacks := l
|}.

(** *** The runtime and the calls made to it *)

(** Whether [new EventSource(url)] returns (or throws). *)
Record Runtime : Type := {
  EventSource_constructs : string -> bool
}.

Inductive io : Type :=
| Io_open (sseUrl : string)              (* [new EventSource(sseUrl, ...)] *)
| Io_close (sseUrl : string)             (* [eventSource.close()] *)
| Io_setReconnectTimer (ms : Q)
| Io_clearReconnectTimer (ms : Q)
| Io_setWaitTimer (ms : Q)
| Io_clearWaitTimer (ms : Q)
| Io_callback (c : callback) (emailId : string).

Definition M (A : Type) : Type := Eff.M SSEStrategy io A.

Definition nonempty (h : string) : bool := negb (String.eqb h "").

(** The hashes a connection is opened with. *)
Definition hashes (s : SSEStrategy) : list string :=
  filter nonempty (map inboxHash (values (subscriptions s))).

Definition stream_url (s : SSEStrategy) : string :=
  url s ++ "/api/events?inboxes=" ++ String.concat "," (hashes s).

Definition is_empty {A} (l : list A) : bool :=
  match l with
  | [] => true
  | _ => false
  end.

(** The state [disconnect] leaves and the calls it makes. *)
Definition disconnected (s : SSEStrategy) : SSEStrategy :=
  set_eventSource None (set_reconnectTimer None s).

Definition disconnect_events (s : SSEStrategy) : list io :=
  (match reconnectTimer s with
   | Some t => [Io_clearReconnectTimer (delay t)]
   | None => []
   end
   ++ match eventSource s with
      | Some es => [Io_close (es_url es)]
      | None => []
      end)%list.

Definition exhausted : exn :=
  SSEError "Failed to establish SSE connection after maximum retry attempts".

Section WithRuntime.
Variable R : Runtime.

Definition disconnect : M unit :=
  s <- Eff.get ;;
  match reconnectTimer s with
  | Some t =>
      Eff.emit (Io_clearReconnectTimer (delay t)) ;;;
      Eff.modify (set_reconnectTimer None)
  | None => Eff.ret tt
  end ;;;
  s <- Eff.get ;;
  match eventSource s with
  | Some es =>
      Eff.emit (Io_close (es_url es)) ;;;
      Eff.modify (set_eventSource None)
  | None => Eff.ret tt
  end.

Definition handleConnectionError : M unit :=
  s <- Eff.get ;;
  if isClosing s then Eff.ret tt
  else
    disconnect ;;;
    s <- Eff.get ;;
    if (reconnectAttempts s <? maxReconnectAttempts s)%Z then
      let backoffDelay :=
        (reconnectInterval s * Qpower (backoffMultiplier s) (reconnectAttempts s))%Q in
      Eff.emit (Io_setReconnectTimer backoffDelay) ;;;
      Eff.modify (set_reconnectTimer (Some {| delay := backoffDelay; pending := true |}))
    else
      Eff.throw (SSEError "Failed to establish SSE connection after maximum retry attempts").

Definition connect : M unit :=
  s <- Eff.get ;;
  if isClosing s then Eff.ret tt
  else if is_empty (subscriptions s) then Eff.ret tt
  else
    let inboxHashes := String.concat "," (hashes s) in
    if String.eqb inboxHashes "" then Eff.ret tt
    else
      let sseUrl := url s ++ "/api/events?inboxes=" ++ inboxHashes in
      Eff.try_catch
        (Eff.emit (Io_open sseUrl) ;;;
         if EventSource_constructs R sseUrl
         then Eff.modify (set_eventSource (Some {| es_url := sseUrl; readyState := 0 |}))
         else Eff.throw (JsError "Invalid URL"))
        (fun _ => handleConnectionError).

Definition reconnect : M unit :=
  disconnect ;;; connect.

Definition subscribe (emailAddress inboxHash : string) (keypair : Crypto.Keypair)
           (cb : callback) : M (string * callback) :=
  s <- Eff.get ;;
  match map_get emailAddress (subscriptions s) with
  | Some _ => Eff.ret tt
  | None =>
      Eff.modify (set_subscriptions
                    (map_set emailAddress
                       {| emailAddress := emailAddress; inboxHash := inboxHash;
                          keypair := keypair; callbacks := [] |}
                       (subscriptions s)))
  end ;;;
  Eff.modify (fun s =>
                match map_get emailAddress (subscriptions s) with
                | Some subscription =>
                    set_subscriptions
                      (map_set emailAddress
                         (with_callbacks (set_add cb (callbacks subscription)) subscription)
                         (subscriptions s)) s
                | None => s
                end) ;;;
  s <- Eff.get ;;
  match eventSource s with
  | None => connect
  | Some es => if (readyState es =? 2)%Z then connect else reconnect
  end ;;;
  Eff.ret (emailAddress, cb).

(** The [unsubscribe] of the handle returned by [subscribe]. *)
Definition unsubscribe (handle : string * callback) : M unit :=
  let '(emailAddress, cb) := handle in
  s <- Eff.get ;;
  match map_get emailAddress (subscriptions s) with
  | None => Eff.ret tt
  | Some sub =>
      let remaining := set_delete cb (callbacks sub) in
      Eff.modify (fun s =>
                    set_subscriptions
                      (map_set emailAddress (with_callbacks remaining sub)
                               (subscriptions s)) s) ;;;
      if is_empty remaining then
        Eff.modify (fun s => set_subscriptions (map_delete emailAddress (subscriptions s)) s) ;;;
        s <- Eff.get ;;
        if is_empty (subscriptions s) then disconnect else reconnect
      else Eff.ret tt
  end.

Definition close : M unit :=
  Eff.modify (set_isClosing true) ;;;
  disconnect ;;;
  Eff.modify (set_subscriptions []).

(** *** The handlers the strategy installs *)

(** [eventSource.onopen] *)
Definition eventSource_onopen : M unit :=
  Eff.modify (fun s =>
                match eventSource s with
                | Some es =>
                    set_eventSource (Some {| es_url := es_url es; readyState := 1 |}) s
                | None => s
                end) ;;;
  Eff.modify (set_reconnectAttempts 0).

(** [eventSource.onerror] *)
Definition eventSource_onerror : M unit :=
  handleConnectionError.

(** The callback of the reconnect timer, run by the runtime when the
    timer is due. *)
Definition reconnectTimer_fires : M unit :=
  s <- Eff.get ;;
  match reconnectTimer s with
  | Some t =>
      if pending t then
        Eff.modify (set_reconnectTimer (Some {| delay := delay t; pending := false |})) ;;;
        Eff.modify (fun s => set_reconnectAttempts (reconnectAttempts s + 1) s) ;;;
        connect
      else Eff.ret tt
  | None => Eff.ret tt
  end.

Record SSEMessageData : Type := {
  inboxId : string;
  emailId : string
}.

Fixpoint notify (cbs : list callback) (emailId : string) : M unit :=
  match cbs with
  | [] => Eff.ret tt
  | c :: rest => Eff.emit (Io_callback c emailId) ;;; notify rest emailId
  end.

(** [parsed] is what [JSON.parse(data)] gives, [decrypted] what
    [decryptEmailData] gives for the message. *)
Definition handleMessage (parsed : result SSEMessageData) (decrypted : result IEmail)
  : M unit :=
  Eff.try_catch
    (messageData <- Eff.lift parsed ;;
     s <- Eff.get ;;
     match find (fun sub => String.eqb (inboxHash sub) (inboxId messageData))
                (values (subscriptions s)) with
     | None => Eff.ret tt
     | Some subscription =>
         email <- Eff.lift decrypted ;;
         notify (callbacks subscription) (id email)
     end)
    (fun error =>
       Eff.throw (SSEError ("Failed to process SSE message: " ++ message_of error))).

(** [eventSource.onmessage] *)
Definition eventSource_onmessage (parsed : result SSEMessageData)
           (decrypted : result IEmail) : M unit :=
  Eff.try_catch (handleMessage parsed decrypted) (fun _ => Eff.ret tt).

(** *** waitForEmail *)

Inductive promise : Type :=
| Pending
| Fulfilled (email : IEmail)
| Rejected (e : exn).

(** The variables of one [waitForEmail] call, captured by its closures,
    and the state of the promise it returned. *)
Record Wait : Type := {
  w_handle : string * callback;
  w_timeout : Q;
  w_options : WaitOptions;
  resolved : bool;
  settled : promise
}.

(** The promise executor.  [cb] is the closure created for this call and
    [elapsed] the value of [Date.now() - startTime] at the final test.  An
    executor that throws rejects the promise. *)
Definition waitForEmail (emailAddress inboxHash : string) (keypair : Crypto.Keypair)
           (options : WaitOptions) (cb : callback) (elapsed : Q) : M Wait :=
  let timeout := Polling.nullish (Mail.timeout options) 30000%Q in
  let wait r p := {| w_handle := (emailAddress, cb); w_timeout := timeout;
                     w_options := options; resolved := r; settled := p |} in
  Eff.try_catch
    (Eff.emit (Io_setWaitTimer timeout) ;;;
     subscription <- subscribe emailAddress inboxHash keypair cb ;;
     if Qle_bool timeout elapsed then
       Eff.emit (Io_clearWaitTimer timeout) ;;;
       unsubscribe subscription ;;;
       Eff.ret (wait true
                     (Rejected (TimeoutError "No matching email received within timeout")))
     else Eff.ret (wait false Pending))
    (fun error => Eff.ret (wait false (Rejected error))).

Definition settle (p : promise) (w : Wait) : Wait := {|
  w_handle := w_handle w; w_timeout := w_timeout w; w_options := w_options w;
  resolved := resolved w;
  settled := match settled w with
             | Pending => p
             | already => already
             end
|}.

Definition set_resolved (w : Wait) : Wait := {|
  w_handle := w_handle w; w_timeout := w_timeout w; w_options := w_options w;
  resolved := true; settled := settled w
|}.

(** The callback of the wait's timer. *)
Definition wait_timer_fires (w : Wait) : M Wait :=
  if resolved w then Eff.ret w
  else
    unsubscribe (w_handle w) ;;;
    Eff.ret (settle (Rejected (TimeoutError "No matching email received within timeout")) w).

(** The callback the wait registered, called with a delivered email
    when the caller's objects are [h]: the variables of the wait and the
    caller's objects as it leaves them, and its run on the strategy.  It is
    an [async] function: what it throws rejects the promise it returns, not
    the promise of the wait. *)
Definition wait_receives (w : Wait) (email : IEmail) (h : heap) (s : SSEStrategy)
  : Wait * heap * (SSEStrategy * list io * result unit) :=
  if resolved w then (w, h, (s, [], Ok tt))
  else
    match matchesFilters email (w_options w) h with
    | (h', Err error) => (w, h', (s, [], Err error))
    | (h', Ok false) => (w, h', (s, [], Ok tt))
    | (h', Ok true) =>
        match unsubscribe (w_handle w) s with
        | (s', evs, Ok _) =>
            (settle (Fulfilled email) (set_resolved w), h',
             (s', Io_clearWaitTimer (w_timeout w) :: evs, Ok tt))
        | (s', evs, Err error) =>
            (set_resolved w, h',
             (s', Io_clearWaitTimer (w_timeout w) :: evs, Err error))
        end
    end.

(** *** Names used to state the properties *)

(** The registry after the first half of [subscribe]. *)
Definition register (a h : string) (k : Crypto.Keypair) (cb : callback)
           (m : list (string * InboxSubscription)) : list (string * InboxSubscription) :=
  let m1 := match map_get a m with
            | Some _ => m
            | None => map_set a {| emailAddress := a; inboxHash := h; keypair := k;
                                   callbacks := [] |} m
            end in
  match map_get a m1 with
  | Some subscription =>
      map_set a (with_callbacks (set_add cb (callbacks subscription)) subscription) m1
  | None => m1
  end.

(** The connection held, if any, was opened for the hashes of the
    current registry, and the strategy is not closed. *)
Definition connection_current (s : SSEStrategy) : Prop :=
  forall es, eventSource s = Some es ->
             es_url es = stream_url s /\ isClosing s = false /\ hashes s <> [].

Definition well_formed (s : SSEStrategy) : Prop :=
  NoDup (map fst (subscriptions s)) /\ connection_current s.

(** *** What can happen to a strategy *)

Inductive action : Type :=
| Subscribe (emailAddress inboxHash : string) (keypair : Crypto.Keypair) (cb : callback)
| Unsubscribe (handle : string * callback)
| Close
| OnOpen
| OnError
| TimerFires
| OnMessage (parsed : result SSEMessageData) (decrypted : result IEmail).

Definition perform (a : action) : M unit :=
  match a with
  | Subscribe e h k c => subscribe e h k c ;;; Eff.ret tt
  | Unsubscribe h => unsubscribe h
  | Close => close
  | OnOpen => eventSource_onopen
  | OnError => eventSource_onerror
  | TimerFires => reconnectTimer_fires
  | OnMessage p d => eventSource_onmessage p d
  end.

(** The state after a sequence of actions, each run to its end whether
    it returns or throws. *)
Fixpoint after (actions : list action) (s : SSEStrategy) : SSEStrategy :=
  match actions with
  | [] => s
  | a :: rest => after rest (Eff.state_of (perform a s))
  end.

Definition reachable (s : SSEStrategy) : Prop :=
  exists config actions, s = after actions (new_SSEStrategy config).

End WithRuntime.

(** The calls that open or close the stream. *)
Fixpoint stream_events (evs : list io) : list io :=
  match evs with
  | [] => []
  | Io_open u :: rest => Io_open u :: stream_events rest
  | Io_close u :: rest => Io_close u :: stream_events rest
  | _ :: rest => stream_events rest
  end.

(** *** Examples *)

Definition sample_config : SSEConfig := {|
  cfg_url := "http://localhost:3000"; cfg_apiKey := "test-key";
  cfg_reconnectInterval := None; cfg_maxReconnectAttempts := None;
  cfg_backoffMultiplier := None
|}.

(** A configuration that allows no reconnection attempt. *)
Definition no_retry_config : SSEConfig := {|
  cfg_url := "http://localhost:3000"; cfg_apiKey := "test-key";
  cfg_reconnectInterval := Some 10%Q; cfg_maxReconnectAttempts := Some 0%Z;
  cfg_backoffMultiplier := Some 1%Q
|}.

Definition always_constructs : Runtime := {| EventSource_constructs := fun _ => true |}.

Definition inbox_a : InboxSubscription := {|
  emailAddress := "a@x"; inboxHash := "h1"; keypair := Crypto.sample_keypair;
  callbacks := [1%nat]
|}.

Definition inbox_b : InboxSubscription := {|
  emailAddress := "b@x"; inboxHash := "h2"; keypair := Crypto.sample_keypair;
  callbacks := [2%nat]
|}.

(** Two inboxes subscribed one after the other on a fresh strategy. *)
Definition two_inboxes : SSEStrategy :=
  after always_constructs
        [Subscribe "a@x" "h1" Crypto.sample_keypair 1%nat;
         Subscribe "b@x" "h2" Crypto.sample_keypair 2%nat]
        (new_SSEStrategy sample_config).

Definition zero_timeout : WaitOptions := {|
  timeout := Some 0%Q; pollInterval := None; subject_filter := None;
  from_filter := None; predicate := None
|}.

End SSE.

(** ** crypto/utils.ts, closer to the runtime: typed arrays as views *)
Module Buffers.
Import Codec.

(** A [Uint8Array] as the runtime has it: a window on an [ArrayBuffer]. *)
Record Uint8Array : Type := {
  buffer : bytes;
  byteOffset : nat;
  byteLength : nat
}.

(** The elements the array shows. *)
Definition contents (a : Uint8Array) : bytes :=
  firstn (byteLength a) (skipn (byteOffset a) (buffer a)).

(** [new Uint8Array(a)]: a fresh buffer holding a copy of the elements. *)
Definition copy_of (a : Uint8Array) : Uint8Array :=
  {| buffer := contents a; byteOffset := 0; byteLength := List.length (contents a) |}.

Definition owned (a : Uint8Array) : Prop :=
  byteOffset a = 0%nat /\ byteLength a = List.length (buffer a).

(** [ensureOwnBuffer] on a view. *)
Definition ensureOwnBuffer_view (a : Uint8Array) : Uint8Array :=
  if negb (Nat.eqb (byteOffset a) 0)
     || negb (Nat.eqb (byteLength a) (List.length (buffer a)))
  then copy_of a
  else a.

(** [result.set(buf, offset)]: a [RangeError] when [buf] does not fit. *)
Definition typed_set (res buf : bytes) (offset : nat) : result bytes :=
  if (offset + List.length buf <=? List.length res)%nat
  then Ok (firstn offset res ++ buf ++ skipn (offset + List.length buf) res)
  else Err (JsError "offset is out of bounds").

(** [buffers.reduce((sum, buf) => sum + buf.length, 0)] *)
Definition totalLength (buffers : list bytes) : nat :=
  fold_left (fun sum buf => (sum + List.length buf)%nat) buffers 0%nat.

(** The [for] loop of [concatBuffers]. *)
Fixpoint concat_loop (buffers : list bytes) (res : bytes) (offset : nat) : result bytes :=
  match buffers with
  | [] => Ok res
  | buf :: rest =>
      match typed_set res buf offset with
      | Ok res' => concat_loop rest res' (offset + List.length buf)
      | Err e => Err e
      end
  end.

(** [concatBuffers] as the source computes it: a zeroed array of the total
    length, filled buffer by buffer. *)
Definition concatBuffers_loop (buffers : list bytes) : result bytes :=
  concat_loop buffers (repeat x00 (totalLength buffers)) 0.

Definition ascii_char_ok (n : N) : bool :=
  match unbase64 (unurl_char (ascii_of_N n)), unbase64 (ascii_of_N n) with
  | Sextet a, Sextet b => N.eqb a b
  | Stop, Stop => true
  | Skip, Skip => true
  | _, _ => false
  end.

Definition std_char_ok (n : N) : bool :=
  match unbase64 (b64_char n) with
  | Sextet m => N.eqb m n
  | _ => false
  end.

End Buffers.

(** ** crypto/signature.ts, crypto/keypair.ts, crypto/decrypt.ts: the rest *)
Module Keys.
Import Codec Crypto.
Local Open Scope string_scope.
Local Open Scope eff_scope.

Definition PUBLIC_KEY_SIZE : nat := 1184.
Definition SECRET_KEY_SIZE : nat := 2400.

(** [validateServerPublicKey]; decoding a string never throws, so the
    [catch] is never entered. *)
Definition validateServerPublicKey (serverPublicKey : string) : bool :=
  let publicKey := fromBase64Url serverPublicKey in
  N.eqb (N.of_nat (List.length publicKey)) MLDSA65_PUBLIC_KEY_SIZE.

(** [generateKeypair], given what [ml_kem768.keygen()] returns. *)
Definition generateKeypair (keygen : bytes * bytes) : Keypair :=
  {| publicKey := fst keygen; secretKey := snd keygen;
     publicKeyB64 := toBase64Url (fst keygen) |}.

(** The [for] loop of [validateKeypair]: [false] at the first index where
    the two arrays differ; reading past the end of an array gives
    [undefined], which differs from every byte. *)
Fixpoint same_bytes (decoded publicKey : bytes) : bool :=
  match decoded with
  | [] => true
  | d :: decoded' =>
      match publicKey with
      | [] => false
      | p :: publicKey' => if Byte.eqb d p then same_bytes decoded' publicKey' else false
      end
  end.

Definition validateKeypair (keypair : Keypair) : bool :=
  if String.eqb (publicKeyB64 keypair) EmptyString then false
  else if negb (Nat.eqb (List.length (publicKey keypair)) PUBLIC_KEY_SIZE) then false
  else if negb (Nat.eqb (List.length (secretKey keypair)) SECRET_KEY_SIZE) then false
  else
    let decodedPublicKey := fromBase64Url (publicKeyB64 keypair) in
    if negb (Nat.eqb (List.length decodedPublicKey) (List.length (publicKey keypair)))
    then false
    else same_bytes decodedPublicKey (publicKey keypair).

Definition nat_to_string (n : nat) : string :=
  NilEmpty.string_of_uint (Nat.to_uint n).

Definition derivePublicKeyFromSecret (secretKey : bytes) : result bytes :=
  if negb (Nat.eqb (List.length secretKey) SECRET_KEY_SIZE) then
    Err (DecryptionError
           ("Cannot derive public key: secret key has invalid length "
              ++ nat_to_string (List.length secretKey)
              ++ ", expected " ++ nat_to_string SECRET_KEY_SIZE))
  else Ok (skipn (List.length secretKey - PUBLIC_KEY_SIZE) secretKey).

(** *** decryptMetadata, decryptParsed, decryptRaw

    [TextDecoder] and [JSON.parse] are further primitives; [J] is the type
    of parsed JSON values. *)
Record TextPrimitives (J : Type) : Type := {
  TextDecoder_decode : bytes -> string;
  JSON_parse : string -> result J
}.
Arguments TextDecoder_decode {J} _ _.
Arguments JSON_parse {J} _ _.

Section WithPrimitives.
Variable P : Primitives.
Variable J : Type.
Variable T : TextPrimitives J.

Definition decryptMetadata (encryptedData : EncryptedData) (keypair : Keypair) : M J :=
  plaintext <- decrypt P encryptedData keypair ;;
  Eff.try_catch
    (let jsonString := TextDecoder_decode T plaintext in
     Eff.lift (JSON_parse T jsonString))
    (fun error =>
       Eff.throw (DecryptionError
                    ("Failed to parse decrypted metadata: " ++ message_of error))).

Definition decryptParsed (encryptedData : EncryptedData) (keypair : Keypair) : M J :=
  decryptMetadata encryptedData keypair.

Definition decryptRaw (encryptedData : EncryptedData) (keypair : Keypair) : M string :=
  plaintext <- decrypt P encryptedData keypair ;;
  Eff.try_catch
    (let base64String := TextDecoder_decode T plaintext in
     let rawEmailBytes := fromBase64 base64String in
     Eff.ret (TextDecoder_decode T rawEmailBytes))
    (fun error =>
       Eff.throw (DecryptionError
                    ("Failed to decode decrypted raw email: " ++ message_of error))).

End WithPrimitives.

(** The errors the crypto layer lets out. *)
Definition crypto_error (e : exn) : bool :=
  match e with
  | SignatureVerificationError _ | DecryptionError _ => true
  | _ => false
  end.

Definition ascii_text : TextPrimitives string := {|
  TextDecoder_decode := string_of_list_byte;
  JSON_parse := fun s =>
    if String.eqb s EmptyString then Err (JsError "Unexpected end of JSON input")
    else Ok s
|}.

End Keys.

(** ** utils/email-utils.ts: decrypting what the server sends *)
Module EmailUtils.
Import Codec Crypto Keys Mail.
Local Open Scope string_scope.
Local Open Scope eff_scope.

(** [att.content]: a base64 string as the server sends it, bytes once
    decoded, or nothing. *)
Inductive AttachmentContent : Type :=
| ContentString (s : string)
| ContentBytes (b : bytes)
| ContentUndefined.

Record AttachmentData : Type := {
  filename : string;
  content : AttachmentContent
}.

(** The parts of the decrypted JSON documents that the code reads. *)
Record DecryptedMetadata : Type := {
  m_from : string;
  m_subject : string
}.

Record DecryptedParsed : Type := {
  attachments : option (list AttachmentData)
}.

Record EmailData : Type := {
  ed_id : string;
  encryptedMetadata : EncryptedData;
  encryptedParsed : option EncryptedData
}.

(** An [Email] instance: what the waits filter on, and the attachments. *)
Record Email : Type := {
  as_IEmail : IEmail;
  email_attachments : list AttachmentData
}.

Inductive io : Type :=
| Io_getEmail (emailAddress emailId : string)
| Io_crypto (c : call).

Definition M (A : Type) : Type := Eff.M unit io A.

(** A call into the crypto layer, its calls to the primitives recorded. *)
Definition crypto {A} (m : Crypto.M A) : M A :=
  fun s => (s, map Io_crypto (Eff.events_of (m tt)), Eff.outcome_of (m tt)).

Definition crypto_calls (evs : list io) : list call :=
  flat_map (fun ev => match ev with Io_crypto c => [c] | Io_getEmail _ _ => [] end) evs.

Section WithPrimitives.
Variable P : Primitives.
Variable TM : TextPrimitives DecryptedMetadata.
Variable TP : TextPrimitives DecryptedParsed.
(** What [apiClient.getEmail] answers. *)
Variable apiClient_getEmail : string -> string -> result EmailData.

Definition getEmail (emailAddress emailId : string) : M EmailData :=
  Eff.emit (Io_getEmail emailAddress emailId) ;;;
  Eff.lift (apiClient_getEmail emailAddress emailId).

(** The function mapped over [parsed.attachments]; the empty string is
    falsy and is left as it is. *)
Definition decode_attachment (att : AttachmentData) : AttachmentData :=
  match content att with
  | ContentString EmptyString => att
  | ContentString s => {| filename := filename att; content := ContentBytes (fromBase64 s) |}
  | _ => att
  end.

(** The constructor of [Email]. *)
Definition new_Email (emailData : EmailData) (metadata : DecryptedMetadata)
           (parsed : option DecryptedParsed) : Email :=
  {| as_IEmail := {| id := ed_id emailData; from := m_from metadata;
                     subject := m_subject metadata |};
     email_attachments :=
       match parsed with
       | Some p => match attachments p with Some l => l | None => [] end
       | None => []
       end |}.

Definition decryptEmailData (emailData : EmailData) (keypair : Keypair)
           (emailAddress : string) : M Email :=
  fullEmailData <- match encryptedParsed emailData with
                   | Some _ => Eff.ret emailData
                   | None => getEmail emailAddress (ed_id emailData)
                   end ;;
  _ <- crypto (verifySignature P (encryptedMetadata fullEmailData)) ;;
  metadata <- crypto (decryptMetadata P TM (encryptedMetadata fullEmailData) keypair) ;;
  parsed <- match encryptedParsed fullEmailData with
            | Some ep =>
                _ <- crypto (verifySignature P ep) ;;
                parsed <- crypto (decryptParsed P TP ep keypair) ;;
                Eff.ret (Some match attachments parsed with
                              | Some l => {| attachments := Some (map decode_attachment l) |}
                              | None => parsed
                              end)
            | None => Eff.ret None
            end ;;
  Eff.ret (new_Email fullEmailData metadata parsed).

(** The loop of [PollingStrategy.decryptEmails] and of [Inbox.listEmails]. *)
Fixpoint decryptEmails (emailsData : list EmailData) (keypair : Keypair)
         (emailAddress : string) : M (list Email) :=
  match emailsData with
  | [] => Eff.ret []
  | emailData :: rest =>
      email <- decryptEmailData emailData keypair emailAddress ;;
      emails <- decryptEmails rest keypair emailAddress ;;
      Eff.ret (email :: emails)
  end.

(** *** Names used to state the properties *)

(** The decapsulation an envelope is entitled to: the one of its own KEM
    ciphertext with the recipient's secret key, when its signature
    verifies. *)
Definition entitled (e : EncryptedData) (kp : Keypair) : list call :=
  if signature_verifies P e then
    match spec_decode e with
    | Some d => [Call_decapsulate (d_ctKem d) (secretKey kp)]
    | None => []
    end
  else [].

(** The email data that is decrypted: the one given when it carries the
    parsed content, the one fetched otherwise. *)
Definition fullEmailData (emailData : EmailData) (emailAddress : string)
  : result EmailData :=
  match encryptedParsed emailData with
  | Some _ => Ok emailData
  | None => apiClient_getEmail emailAddress (ed_id emailData)
  end.

End WithPrimitives.

Definition fetches (emailData : EmailData) (emailAddress : string) : list io :=
  match encryptedParsed emailData with
  | Some _ => []
  | None => [Io_getEmail emailAddress (ed_id emailData)]
  end.

Definition decapsulations (l : list call) : list call := filter is_decapsulate l.

(** An email whose two envelopes are the sample envelope. *)
Definition sample_email : EmailData := {|
  ed_id := "m1";
  encryptedMetadata := sample_envelope;
  encryptedParsed := Some sample_envelope
|}.

Definition no_metadata : TextPrimitives DecryptedMetadata := {|
  TextDecoder_decode := string_of_list_byte;
  JSON_parse := fun _ => Err (JsError "Unexpected end of JSON input")
|}.

Definition no_parsed : TextPrimitives DecryptedParsed := {|
  TextDecoder_decode := string_of_list_byte;
  JSON_parse := fun _ => Err (JsError "Unexpected end of JSON input")
|}.

End EmailUtils.

(** ** utils/email-utils.ts: what a filter asks of a text *)
Module Filters.
Import Mail.
Local Open Scope string_scope.

(** A filter block lets the text pass, taking the caller's objects from
    [h] to [h']: a string filter when the string occurs in the text, a
    regular expression when its [test] answers [true]. *)
Definition accepts (m : option matcher) (text : string) (h h' : heap) : Prop :=
  match m with
  | None => h' = h
  | Some (MatchString s) => h' = h /\ exists before after, text = before ++ s ++ after
  | Some (MatchRegExp test) => test text h = (h', Ok true)
  end.

(** The filters answer [false] on each email of the list in turn, taking
    the caller's objects from [h] to [h']. *)
Fixpoint rejects (emails : list IEmail) (options : WaitOptions) (h h' : heap) : Prop :=
  match emails with
  | [] => h' = h
  | email :: rest =>
      exists h1, matchesFilters email options h = (h1, Ok false)
                 /\ rejects rest options h1 h'
  end.

(** Two emails and the filters [{subject: /Reset/g, from: 'boss@'}], the
    regular expression at location 0. *)
Definition reset_from_peer : IEmail :=
  {| id := "e1"; from := "peer@x"; subject := "Password Reset" |}.

Definition reset_from_boss : IEmail :=
  {| id := "e2"; from := "boss@x"; subject := "Reset" |}.

Definition reset_filters : WaitOptions := {|
  timeout := None; pollInterval := None;
  subject_filter := Some (MatchRegExp (literal_g 0 "Reset"));
  from_filter := Some (MatchString "boss@"); predicate := None
|}.

End Filters.

(** ** strategies/polling-strategy.ts: runs of the wait and of the watch *)
Module PollingRuns.
Import Mail Polling.
Local Open Scope string_scope.
Local Open Scope Q_scope.

Definition is_listEmails (ev : io) : bool :=
  match ev with
  | Io_listEmails => true
  | _ => false
  end.

(** The number of times the email list was fetched. *)
Definition listings (evs : list io) : nat := List.length (filter is_listEmails evs).

(** The calls and the result of a run of the wait. *)
Definition calls_of (r : list io * outcome * heap) : list io := fst (fst r).

Definition result_of (r : list io * outcome * heap) : outcome := snd (fst r).

(** The wait has returned or thrown. *)
Definition ended (o : outcome) : bool :=
  match o with
  | Waiting => false
  | _ => true
  end.

(** The least interval a pass can sleep on. *)
Definition floor_interval (this : PollingStrategy) (options : WaitOptions) : Q :=
  Qmin (the_pollInterval this options) (maxBackoff this).

(** Time does not run backwards and [Math.random()] is not negative. *)
Definition tick_ok (tk : tick) : Prop :=
  0 <= latency tk /\ 0 <= random tk /\ 0 <= overshoot tk.

Definition timeout_error : exn :=
  TimeoutError "No matching email received within timeout".

(** Where the result of a wait comes from: a returned email was in a
    fetched list and the filters answered [true] on it; a thrown error is the
    timeout or what the [catch] block makes of an error of a call or of an
    error the filters threw on a fetched email, and never carries the status
    code 404. *)
Definition explained (options : WaitOptions) (script : list tick) (o : outcome) : Prop :=
  match o with
  | Returned e =>
      exists tk l h h',
        In tk script /\ emails tk = Ok l /\ In e l
        /\ matchesFilters e options h = (h', Ok true)
  | Thrown x =>
      statusCode_of x <> Some 404%Z
      /\ (x = timeout_error
          \/ (exists tk err, In tk script /\ (sync tk = Err err \/ emails tk = Err err)
                             /\ x = on_error err)
          \/ (exists tk l e h h' err,
                 In tk script /\ emails tk = Ok l /\ In e l
                 /\ matchesFilters e options h = (h', Err err)
                 /\ x = on_error err))
  | Waiting => True
  end.

(** The identifiers handed to the callback, in order. *)
Fixpoint delivered (evs : list io) : list string :=
  match evs with
  | [] => []
  | Io_callback emailId :: rest => emailId :: delivered rest
  | _ :: rest => delivered rest
  end.

(** The [poll] loop of [subscribe] over what the successive fetches
    return. *)
Fixpoint poll (this : PollingStrategy) (fetches : list (result (list IEmail)))
         (s : PollingSubscription) : list io * PollingSubscription :=
  match fetches with
  | [] => ([], s)
  | fetched :: rest =>
      let '(evs, s') := poll_round this fetched s in
      let '(evs', s'') := poll this rest s' in
      ((evs ++ evs')%list, s'')
  end.

Definition short_wait : WaitOptions := {|
  timeout := Some 3000; pollInterval := None; subject_filter := None;
  from_filter := None; predicate := None
|}.

(** A pass on an inbox that holds one email, which the filters
    [Filters.reset_filters] turn down. *)
Definition busy_tick : tick := {|
  sync := Ok {| emailCount := 1; emailsHash := "h1" |};
  emails := Ok [Filters.reset_from_peer];
  latency := 0;
  random := 0;
  overshoot := 0;
  meanwhile := fun h => h
|}.

End PollingRuns.

(** ** strategies/sse-strategy.ts: runs of the strategy *)
Module SSERuns.
Import Mail SSE.
Local Open Scope string_scope.

(** The calls made while a sequence of actions runs, each action to its
    end whether it returns or throws. *)
Fixpoint trace (R : Runtime) (actions : list action) (s : SSEStrategy) : list io :=
  match actions with
  | [] => []
  | a :: rest =>
      (Eff.events_of (perform R a s) ++ trace R rest (Eff.state_of (perform R a s)))%list
  end.

Definition is_callback (ev : io) : bool :=
  match ev with
  | Io_callback _ _ => true
  | _ => false
  end.

(** The delays of the reconnect timers set. *)
Fixpoint timers (evs : list io) : list Q :=
  match evs with
  | [] => []
  | Io_setReconnectTimer d :: rest => d :: timers rest
  | _ :: rest => timers rest
  end.

(** [k] times: the connection fails, then the reconnect timer fires. *)
Fixpoint failures (k : nat) : list action :=
  match k with
  | O => []
  | S k' => OnError :: TimerFires :: failures k'
  end.

(** Every entry of the registry is filed under its own address and
    holds at least one callback, none twice. *)
Definition tidy (m : list (string * InboxSubscription)) : Prop :=
  Forall (fun kv => emailAddress (snd kv) = fst kv
                    /\ callbacks (snd kv) <> []
                    /\ NoDup (callbacks (snd kv))) m.

(** What a message delivers. *)
Definition deliveries (parsed : result SSEMessageData) (decrypted : result IEmail)
           (s : SSEStrategy) : list io :=
  match parsed, decrypted with
  | Ok messageData, Ok email =>
      match find (fun sub => String.eqb (inboxHash sub) (inboxId messageData))
                 (values (subscriptions s)) with
      | Some subscription => map (fun c => Io_callback c (id email)) (callbacks subscription)
      | None => []
      end
  | _, _ => []
  end.

(** A strategy that was closed and holds nothing. *)
Definition closed (s : SSEStrategy) : Prop :=
  isClosing s = true /\ eventSource s = None /\ reconnectTimer s = None.

(** The settings of the strategy, which nothing changes. *)
Definition same_settings (s s' : SSEStrategy) : Prop :=
  reconnectInterval s' = reconnectInterval s
  /\ backoffMultiplier s' = backoffMultiplier s
  /\ maxReconnectAttempts s' = maxReconnectAttempts s
  /\ isClosing s' = isClosing s.

(** The callback of the handle is registered for the address of the
    handle. *)
Definition registered (handle : string * callback) (s : SSEStrategy) : Prop :=
  exists sub, map_get (fst handle) (subscriptions s) = Some sub
              /\ In (snd handle) (callbacks sub).

(** The action subscribes the callback of the handle to the address of
    the handle. *)
Definition resubscribes (handle : string * callback) (a : action) : bool :=
  match a with
  | Subscribe e _ _ c => String.eqb e (fst handle) && Nat.eqb c (snd handle)
  | _ => false
  end.

Fixpoint remove_first (u : string) (l : list string) : list string :=
  match l with
  | [] => []
  | x :: rest => if String.eqb u x then rest else x :: remove_first u rest
  end.

(** The connections that are open after the calls [evs], by the URL they
    were opened for, oldest first, when [opened] were open before and every
    call of the constructor returned. *)
Fixpoint open_streams (evs : list io) (opened : list string) : list string :=
  match evs with
  | [] => opened
  | Io_open u :: rest => open_streams rest (opened ++ [u])
  | Io_close u :: rest => open_streams rest (remove_first u opened)
  | _ :: rest => open_streams rest opened
  end.

(** The stream of one inbox fails; a second inbox subscribes before the
    reconnect timer is due; the timer fires; both inboxes unsubscribe. *)
Definition late_timer_run : list action :=
  [Subscribe "a@x" "h1" Crypto.sample_keypair 1%nat;
   OnError;
   Subscribe "b@x" "h2" Crypto.sample_keypair 2%nat;
   TimerFires;
   Unsubscribe ("b@x", 2%nat);
   Unsubscribe ("a@x", 1%nat)].

(** A wait that has not ended, as [waitForEmail] leaves it for the first
    callback of [two_inboxes]. *)
Definition pending_wait : Wait := {|
  w_handle := ("a@x", 1%nat); w_timeout := 30000%Q; w_options := no_options;
  resolved := false; settled := Pending
|}.

Definition a_mail : IEmail := {| id := "e1"; from := "x@y"; subject := "hello" |}.

(** The stream of one inbox fails, and a second inbox subscribes before
    the reconnect timer is due. *)
Definition subscribed_during_backoff : SSEStrategy :=
  after always_constructs
        [Subscribe "a@x" "h1" Crypto.sample_keypair 1%nat;
         OnError;
         Subscribe "b@x" "h2" Crypto.sample_keypair 2%nat]
        (new_SSEStrategy sample_config).

End SSERuns.

(** ** http/api-client.ts: the retry interceptor *)
Module Retry.
Import ApiClient.
Local Open Scope string_scope.

(** The parts of [ClientConfig] that [setupRetry] reads. *)
Record RetryConfig : Type := {
  maxRetries : option Z;
  retryDelay : option Q;
  retryOn : option (list Z)
}.

(** The request configuration, with the property the interceptor adds. *)
Record RequestConfig : Type := {
  retryCount_ : option Z                 (* [__retryCount] *)
}.

(** What the interceptor is called with: the error and [error.config]. *)
Record Rejection : Type := {
  error : AxiosError;
  config : option RequestConfig
}.

Inductive decision : Type :=
| Rethrow                                        (* [throw error] *)
| Retry (delay : Q) (config' : RequestConfig)    (* sleep, then request again *)
| Throw (e : exn).                               (* [throw this.handleError(error)] *)

Definition the_maxRetries (this : RetryConfig) : Z := Polling.nullish (maxRetries this) 3%Z.
Definition the_retryDelay (this : RetryConfig) : Q := Polling.nullish (retryDelay this) 1000%Q.
Definition the_retryOn (this : RetryConfig) : list Z :=
  Polling.nullish (retryOn this) [408; 429; 500; 502; 503; 504]%Z.

(** The rejection handler installed by [setupRetry]. *)
Definition on_rejected (this : RetryConfig) (r : Rejection) : decision :=
  match config r with
  | None => Rethrow
  | Some requestConfig =>
      let retryCount := match retryCount_ requestConfig with
                        | Some n => n
                        | None => 0%Z
                        end in
      let shouldRetry :=
        (retryCount <? the_maxRetries this)%Z
        && match response (error r) with
           | Some resp => existsb (Z.eqb (status resp)) (the_retryOn this)
           | None => false
           end in
      if shouldRetry then
        Retry (the_retryDelay this * Qpower 2 retryCount)%Q
              {| retryCount_ := Some (retryCount + 1)%Z |}
      else Throw (handleError (error r))
  end.

(** One answer of the server to a request: a response, or a failure,
    which carries the configuration of the request unless the failure
    happened before there was one. *)
Inductive answer (A : Type) : Type :=
| Responds (data : A)
| Fails (e : AxiosError) (with_config : bool).
Arguments Responds {A} data.
Arguments Fails {A} e with_config.

Inductive io : Type :=
| Io_request
| Io_sleep (ms : Q).

Inductive outcome (A : Type) : Type :=
| Returned (a : A)
| Thrown (e : exn)
| Pending.                      (* the script ends before the server answers *)
Arguments Returned {A} a.
Arguments Thrown {A} e.
Arguments Pending {A}.

(** A request through the client: each failure goes to the handler, and a
    retry is a request with the configuration the handler updated. *)
Fixpoint request {A} (this : RetryConfig) (script : list (answer A))
         (requestConfig : RequestConfig) : list io * outcome A :=
  match script with
  | [] => ([Io_request], Pending)
  | Responds data :: _ => ([Io_request], Returned data)
  | Fails e with_config :: rest =>
      match on_rejected this {| error := e;
                                config := if with_config then Some requestConfig
                                          else None |} with
      | Rethrow => ([Io_request], Thrown (JsError (message e)))
      | Throw x => ([Io_request], Thrown x)
      | Retry d config' =>
          let '(evs, o) := request this rest config' in
          (Io_request :: Io_sleep d :: evs, o)
      end
  end.

Definition fresh : RequestConfig := {| retryCount_ := None |}.

(** The sleeps of a run, in order. *)
Fixpoint delays (evs : list io) : list Q :=
  match evs with
  | [] => []
  | Io_sleep d :: rest => d :: delays rest
  | _ :: rest => delays rest
  end.

(** The number of requests sent. *)
Fixpoint requests (evs : list io) : nat :=
  match evs with
  | [] => O
  | Io_request :: rest => S (requests rest)
  | _ :: rest => requests rest
  end.

(** A failure the handler may retry: it has its configuration and a
    response whose status is in the list. *)
Definition retryable (this : RetryConfig) {A} (a : answer A) : bool :=
  match a with
  | Fails e true =>
      match response e with
      | Some resp => existsb (Z.eqb (status resp)) (the_retryOn this)
      | None => false
      end
  | _ => false
  end.

Definition count_of (c : RequestConfig) : Z :=
  match retryCount_ c with
  | Some n => n
  | None => 0%Z
  end.

Definition default_retry : RetryConfig :=
  {| maxRetries := None; retryDelay := None; retryOn := None |}.

Definition unavailable : AxiosError :=
  {| response := Some {| status := 503; data_error := None |};
     message := "Request failed with status code 503" |}.

End Retry.


(** ** client.ts and inbox.ts: exporting and importing an inbox *)
Module Client.
Import Codec Crypto Keys.
Local Open Scope string_scope.

(** What the client throws: the two error classes of types/index.ts that
    only it uses, and the errors of the layers below. *)
Inductive thrown : Type :=
| InvalidImportDataError (message : string)
| InboxAlreadyExistsError (message : string)
| Other (e : exn).

Inductive outcome (A : Type) : Type :=
| Returns (a : A)
| Throws (e : thrown).
Arguments Returns {A} a.
Arguments Throws {A} e.

Definition and_then {A B} (m : outcome A) (k : A -> outcome B) : outcome B :=
  match m with
  | Returns a => k a
  | Throws e => Throws e
  end.

(** The data as its type has it: every property a string. *)
Record ExportedInboxData : Type := {
  emailAddress : string;
  expiresAt : string;
  inboxHash : string;
  serverSigPk : string;
  publicKeyB64 : string;
  secretKeyB64 : string;
  exportedAt : string
}.

Record InboxData : Type := {
  data_emailAddress : string;
  data_expiresAt : string;
  data_inboxHash : string;
  data_serverSigPk : string
}.

Inductive StrategyType : Type := sse | polling | auto.

Record ClientConfig : Type := {
  url : string;
  apiKey : string;
  strategy : option StrategyType;
  pollingInterval : option Q;
  sseReconnectInterval : option Q;
  sseMaxReconnectAttempts : option Z
}.

(** The strategy object the client creates, by the arguments of its
    constructor. *)
Inductive DeliveryStrategy : Type :=
| NewSSEStrategy (config : SSE.SSEConfig)
| NewPollingStrategy (config : Polling.PollingConfig).

(** An [Inbox]; [expiresAt] is the time value of its [Date]. *)
Record Inbox : Type := {
  inbox_emailAddress : string;
  inbox_expiresAt : Z;
  inbox_inboxHash : string;
  inbox_keypair : Keypair;
  inbox_serverPublicKey : string;
  inbox_strategy : option DeliveryStrategy
}.

Record VaultSandboxClient : Type := {
  config : ClientConfig;
  serverPublicKey : option string;
  inboxes : list (string * Inbox);       (* a [Map], in insertion order *)
  the_strategy : option DeliveryStrategy
}.

Definition new_VaultSandboxClient (config : ClientConfig) : VaultSandboxClient :=
  {| config := config; serverPublicKey := None; inboxes := []; the_strategy := None |}.

Inductive io : Type :=
| Io_getServerInfo.

(** *** [Map] *)

Fixpoint map_get (k : string) (m : list (string * Inbox)) : option Inbox :=
  match m with
  | [] => None
  | (k', x) :: rest => if String.eqb k k' then Some x else map_get k rest
  end.

Fixpoint map_set (k : string) (x : Inbox) (m : list (string * Inbox))
  : list (string * Inbox) :=
  match m with
  | [] => [(k, x)]
  | (k', y) :: rest =>
      if String.eqb k k' then (k', x) :: rest else (k', y) :: map_set k x rest
  end.

Definition map_has (k : string) (m : list (string * Inbox)) : bool :=
  match map_get k m with
  | Some _ => true
  | None => false
  end.

(** *** Strings *)

(** The white space [trim] removes, among the characters a [string]
    holds: tab, line feed, vertical tab, form feed, carriage return, space
    and no-break space. *)
Definition is_white_space (ch : ascii) : bool :=
  let n := N_of_ascii ch in
  ((9 <=? n) && (n <=? 13) || (n =? 32) || (n =? 160))%N.

(** [!s || s.trim() === ''] *)
Fixpoint blank (s : string) : bool :=
  match s with
  | EmptyString => true
  | String ch rest => is_white_space ch && blank rest
  end.

Definition truthy (s : string) : bool := negb (String.eqb s EmptyString).

Section WithDates.
(** [new Date(s).getTime()], [None] for an invalid date, and
    [toISOString] on a valid one. *)
Variable Date_parse : string -> option Z.
Variable toISOString : Z -> string.

(** *** inbox.ts *)

(** The constructor; its [debug] call formats the date, which throws a
    [RangeError] on an invalid one. *)
Definition new_Inbox (inboxData : InboxData) (keypair : Keypair)
           (serverPublicKey : string) : outcome Inbox :=
  match Date_parse (data_expiresAt inboxData) with
  | Some t =>
      Returns {| inbox_emailAddress := data_emailAddress inboxData;
                 inbox_expiresAt := t;
                 inbox_inboxHash := data_inboxHash inboxData;
                 inbox_keypair := keypair;
                 inbox_serverPublicKey := serverPublicKey;
                 inbox_strategy := None |}
  | None => Throws (Other (JsError "Invalid time value"))
  end.

Definition setStrategy (strategy : DeliveryStrategy) (inbox : Inbox) : Inbox :=
  {| inbox_emailAddress := inbox_emailAddress inbox;
     inbox_expiresAt := inbox_expiresAt inbox;
     inbox_inboxHash := inbox_inboxHash inbox;
     inbox_keypair := inbox_keypair inbox;
     inbox_serverPublicKey := inbox_serverPublicKey inbox;
     inbox_strategy := Some strategy |}.

(** [Inbox.export], at the time [now]. *)
Definition export (inbox : Inbox) (now : Z) : ExportedInboxData :=
  {| emailAddress := inbox_emailAddress inbox;
     expiresAt := toISOString (inbox_expiresAt inbox);
     inboxHash := inbox_inboxHash inbox;
     serverSigPk := inbox_serverPublicKey inbox;
     publicKeyB64 := toBase64 (publicKey (inbox_keypair inbox));
     secretKeyB64 := toBase64 (secretKey (inbox_keypair inbox));
     exportedAt := toISOString now |}.

(** *** client.ts *)

Definition createStrategy (this : VaultSandboxClient) : DeliveryStrategy :=
  let strategyType := Polling.nullish (strategy (config this)) auto in
  match strategyType with
  | sse | auto =>
      NewSSEStrategy
        {| SSE.cfg_url := url (config this);
           SSE.cfg_apiKey := apiKey (config this);
           SSE.cfg_reconnectInterval :=
             Some (Polling.nullish (sseReconnectInterval (config this)) 5000%Q);
           SSE.cfg_maxReconnectAttempts :=
             Some (Polling.nullish (sseMaxReconnectAttempts (config this)) 10%Z);
           SSE.cfg_backoffMultiplier := Some 2%Q |}
  | polling =>
      NewPollingStrategy
        {| Polling.cfg_initialInterval :=
             Some (Polling.nullish (pollingInterval (config this)) 2000%Q);
           Polling.cfg_maxBackoff := Some 30000%Q;
           Polling.cfg_backoffMultiplier := Some 1.5%Q;
           Polling.cfg_jitterFactor := Some 0.3%Q |}
  end.

(** [getServerInfo] is what the API client answers: the server's key, or
    an error. *)
Definition ensureInitialized (this : VaultSandboxClient) (getServerInfo : result string)
  : VaultSandboxClient * list io * outcome unit :=
  match serverPublicKey this with
  | Some pk =>
      if truthy pk then (this, [], Returns tt)
      else
        match getServerInfo with
        | Ok serverSigPk =>
            ({| config := config this; serverPublicKey := Some serverSigPk;
                inboxes := inboxes this;
                the_strategy := Some (createStrategy this) |},
             [Io_getServerInfo], Returns tt)
        | Err e => (this, [Io_getServerInfo], Throws (Other e))
        end
  | None =>
      match getServerInfo with
      | Ok serverSigPk =>
          ({| config := config this; serverPublicKey := Some serverSigPk;
              inboxes := inboxes this;
              the_strategy := Some (createStrategy this) |},
           [Io_getServerInfo], Returns tt)
      | Err e => (this, [Io_getServerInfo], Throws (Other e))
      end
  end.

Definition requiredFields (data : ExportedInboxData) : list (string * string) :=
  [ ("emailAddress", emailAddress data);
    ("expiresAt", expiresAt data);
    ("inboxHash", inboxHash data);
    ("serverSigPk", serverSigPk data);
    ("secretKeyB64", secretKeyB64 data);
    ("exportedAt", exportedAt data) ].

(** The loop of [validateRequiredFields]. *)
Fixpoint check_fields (fields : list (string * string)) : outcome unit :=
  match fields with
  | [] => Returns tt
  | (field, value) :: rest =>
      if blank value
      then Throws (InvalidImportDataError ("Missing or invalid field: " ++ field))
      else check_fields rest
  end.

Definition validateRequiredFields (data : ExportedInboxData) : outcome unit :=
  check_fields (requiredFields data).

Definition set_publicKeyB64 (x : string) (data : ExportedInboxData) : ExportedInboxData :=
  {| emailAddress := emailAddress data; expiresAt := expiresAt data;
     inboxHash := inboxHash data; serverSigPk := serverSigPk data;
     publicKeyB64 := x; secretKeyB64 := secretKeyB64 data;
     exportedAt := exportedAt data |}.

(** Returns the data, which it may have completed. *)
Definition ensurePublicKeyPresent (data : ExportedInboxData) : outcome ExportedInboxData :=
  if truthy (publicKeyB64 data) then Returns data
  else
    let secretKeyBytes := fromBase64 (secretKeyB64 data) in
    match derivePublicKeyFromSecret secretKeyBytes with
    | Ok publicKeyBytes => Returns (set_publicKeyB64 (toBase64 publicKeyBytes) data)
    | Err error =>
        Throws (InvalidImportDataError
                  ("Failed to derive public key from secret key: " ++ message_of error))
    end.

Definition validateTimestamps (data : ExportedInboxData) : outcome unit :=
  match Date_parse (expiresAt data), Date_parse (exportedAt data) with
  | Some _, Some _ => Returns tt
  | _, _ => Throws (InvalidImportDataError "Invalid timestamp format")
  end.

Definition checkInboxDoesNotExist (this : VaultSandboxClient) (emailAddress : string)
  : outcome unit :=
  if map_has emailAddress (inboxes this)
  then Throws (InboxAlreadyExistsError ("Inbox already exists: " ++ emailAddress))
  else Returns tt.

Definition validateServerPublicKey (this : VaultSandboxClient) (serverSigPk : string)
  : outcome unit :=
  match serverPublicKey this with
  | Some pk =>
      if String.eqb serverSigPk pk then Returns tt
      else Throws (InvalidImportDataError
                     "Server public key mismatch. This inbox was created for a different server.")
  | None =>
      Throws (InvalidImportDataError
                "Server public key mismatch. This inbox was created for a different server.")
  end.

(** Decoding a string never throws, so the [catch] is never entered. *)
Definition decodeBase64Key (keyB64 keyType : string) : outcome bytes :=
  Returns (fromBase64 keyB64).

Definition validateKeyLength (key : bytes) (expectedLength : nat) (keyType : string)
  : outcome unit :=
  if negb (Nat.eqb (List.length key) expectedLength) then
    Throws (InvalidImportDataError
              ("Invalid " ++ keyType ++ " key length: expected "
                 ++ nat_to_string expectedLength ++ ", got "
                 ++ nat_to_string (List.length key)))
  else Returns tt.

Definition decodeAndValidateKeys (data : ExportedInboxData) : outcome Keypair :=
  and_then (decodeBase64Key (publicKeyB64 data) "public") (fun publicKey =>
  and_then (decodeBase64Key (secretKeyB64 data) "secret") (fun secretKey =>
  and_then (validateKeyLength publicKey PUBLIC_KEY_SIZE "public") (fun _ =>
  and_then (validateKeyLength secretKey SECRET_KEY_SIZE "secret") (fun _ =>
  Returns {| Crypto.publicKey := publicKey; Crypto.secretKey := secretKey;
             Crypto.publicKeyB64 := toBase64Url publicKey |})))).

Definition buildInboxData (data : ExportedInboxData) : InboxData :=
  {| data_emailAddress := emailAddress data;
     data_expiresAt := expiresAt data;
     data_inboxHash := inboxHash data;
     data_serverSigPk := serverSigPk data |}.

Definition createAndTrackInbox (this : VaultSandboxClient) (inboxData : InboxData)
           (keypair : Keypair) : VaultSandboxClient * outcome Inbox :=
  match new_Inbox inboxData keypair (data_serverSigPk inboxData) with
  | Throws e => (this, Throws e)
  | Returns inbox =>
      let inbox := match the_strategy this with
                   | Some strategy => setStrategy strategy inbox
                   | None => inbox
                   end in
      ({| config := config this; serverPublicKey := serverPublicKey this;
          inboxes := map_set (inbox_emailAddress inbox) inbox (inboxes this);
          the_strategy := the_strategy this |},
       Returns inbox)
  end.

Definition importInbox (this : VaultSandboxClient) (getServerInfo : result string)
           (data : ExportedInboxData) : VaultSandboxClient * list io * outcome Inbox :=
  match validateRequiredFields data with
  | Throws e => (this, [], Throws e)
  | Returns _ =>
  match ensurePublicKeyPresent data with
  | Throws e => (this, [], Throws e)
  | Returns data =>
  match validateTimestamps data with
  | Throws e => (this, [], Throws e)
  | Returns _ =>
  match checkInboxDoesNotExist this (emailAddress data) with
  | Throws e => (this, [], Throws e)
  | Returns _ =>
  match ensureInitialized this getServerInfo with
  | (this, evs, Throws e) => (this, evs, Throws e)
  | (this, evs, Returns _) =>
  match validateServerPublicKey this (serverSigPk data) with
  | Throws e => (this, evs, Throws e)
  | Returns _ =>
  match decodeAndValidateKeys data with
  | Throws e => (this, evs, Throws e)
  | Returns keypair =>
      let inboxData := buildInboxData data in
      let '(this, r) := createAndTrackInbox this inboxData keypair in
      (this, evs, r)
  end end end end end end end.

Definition exportInbox (this : VaultSandboxClient) (emailAddress : string) (now : Z)
  : outcome ExportedInboxData :=
  match map_get emailAddress (inboxes this) with
  | None => Throws (Other (InboxNotFoundError ("Inbox not found: " ++ emailAddress)))
  | Some inbox => Returns (export inbox now)
  end.

End WithDates.

Definition b64_char_ok (n : N) : bool := negb (is_white_space (b64_char n)).

(** *** Examples: a clock that knows one instant *)

Definition iso_epoch : string := "1970-01-01T00:00:00.000Z".

Definition epoch_parse (s : string) : option Z :=
  if String.eqb s iso_epoch then Some 0%Z else None.

Definition epoch_format (t : Z) : string := iso_epoch.

Definition sample_inbox : Inbox := {|
  inbox_emailAddress := "a@x";
  inbox_expiresAt := 0;
  inbox_inboxHash := "h1";
  inbox_keypair := generateKeypair (repeat x00 1184, repeat x01 2400);
  inbox_serverPublicKey := "server-key";
  inbox_strategy := None
|}.

Definition sample_client : VaultSandboxClient := {|
  config := {| url := "http://localhost:3000"; apiKey := "test-key"; strategy := None;
               pollingInterval := None; sseReconnectInterval := None;
               sseMaxReconnectAttempts := None |};
  serverPublicKey := Some "server-key";
  inboxes := [];
  the_strategy := None
|}.

End Client.


(* ================================================================== *)
(** * Part II. Properties                                              *)
(* ================================================================== *)

Module CodecFacts.
Import Codec.

Lemma all_below_spec (n : nat) (p : N -> bool) :
  all_below n p = true -> forall k, (k < N.of_nat n)%N -> p k = true.
Proof.
  induction n as [|m IH]; intros H k Hk.
  - lia.
  - simpl in H. apply andb_true_iff in H. destruct H as [Hm Hrest].
    destruct (N.eq_dec k (N.of_nat m)) as [->|Hne]; [assumption|].
    apply IH; [assumption | lia].
Qed.

Lemma to_N_lt (a : byte) : (Byte.to_N a < N.of_nat 256)%N.
Proof. pose proof (Byte.to_N_bounded a). lia. Qed.

Lemma byte_of_to_N (a : byte) : byte_of_N (Byte.to_N a) = a.
Proof.
  unfold byte_of_N. rewrite N.mod_small.
  - now rewrite Byte.of_to_N.
  - pose proof (Byte.to_N_bounded a). lia.
Qed.

(** Induction three bytes at a time, as the encoder consumes them. *)
Lemma triples_ind (P : bytes -> Prop) :
  P [] ->
  (forall a, P [a]) ->
  (forall a b, P [a; b]) ->
  (forall a b c rest, P rest -> P (a :: b :: c :: rest)) ->
  forall buf, P buf.
Proof.
  intros H0 H1 H2 H3.
  fix IH 1.
  intros [|a [|b [|c rest]]];
    [exact H0 | apply H1 | apply H2 | apply H3; apply IH].
Qed.

Lemma sextet_chars : all_below 64 sextet_char_ok = true.
Proof. vm_compute. reflexivity. Qed.

Lemma sextet_char (n : N) :
  (n < 64)%N ->
  let ch := url_char (b64_char n) in
  Ascii.eqb ch "=" = false /\ Ascii.eqb ch "+" = false /\
  Ascii.eqb ch "/" = false /\ unbase64 (unurl_char ch) = Sextet n /\
  unurl_char ch = b64_char n.
Proof.
  intros Hn ch.
  pose proof (@all_below_spec 64 sextet_char_ok sextet_chars n Hn) as H.
  unfold sextet_char_ok in H. fold ch in H.
  repeat (apply andb_true_iff in H; destruct H as [H ?]).
  repeat match goal with
         | K : negb _ = true |- _ => apply negb_true_iff in K
         end.
  destruct (unbase64 (unurl_char ch)) as [m| |]; try discriminate.
  match goal with K : N.eqb _ _ = true |- _ => apply N.eqb_eq in K; subst m end.
  match goal with K : Ascii.eqb _ _ = true |- _ => apply Ascii.eqb_eq in K end.
  auto.
Qed.

Lemma bytes_ok : all_below 256 byte_ok = true.
Proof. vm_compute. reflexivity. Qed.

Lemma byte_pairs_ok :
  all_below 256 (fun a => all_below 256 (byte_pair_ok a)) = true.
Proof. vm_compute. reflexivity. Qed.

Ltac split_andb H :=
  repeat (apply andb_true_iff in H;
          let K := fresh "K" in destruct H as [H K]).

Lemma byte_facts (x : byte) :
  let a := Byte.to_N x in
  (s0 a < 64 /\ s1_last a < 64 /\ s2_last a < 64 /\ s3 a < 64)%N
  /\ d0 (s0 a) (s1_last a) = a
  /\ N.lor (N.shiftl (N.shiftr a 4) 4) (N.shiftr (N.shiftl (N.land a 15) 2) 2) = a.
Proof.
  intros a. pose proof (@all_below_spec 256 byte_ok bytes_ok a (to_N_lt x)) as H.
  unfold byte_ok in H. split_andb H.
  repeat match goal with
         | K : (_ <? _)%N = true |- _ => apply N.ltb_lt in K
         | K : (_ =? _)%N = true |- _ => apply N.eqb_eq in K
         end.
  auto.
Qed.

Lemma byte_pair_facts (x y : byte) :
  let a := Byte.to_N x in
  let b := Byte.to_N y in
  (s1 a b < 64 /\ s2 a b < 64)%N
  /\ d0 (s0 a) (s1 a b) = a
  /\ d1 (s1 a b) (s2_last b) = b
  /\ N.land (s1 a b) 15 = N.shiftr b 4
  /\ N.land (s2 a b) 60 = N.shiftl (N.land a 15) 2
  /\ d2 (s2 a b) (s3 b) = b.
Proof.
  intros a b.
  pose proof (@all_below_spec 256 _ byte_pairs_ok a (to_N_lt x)) as H.
  cbv beta in H.
  pose proof (@all_below_spec 256 _ H b (to_N_lt y)) as H'.
  unfold byte_pair_ok in H'. split_andb H'.
  repeat match goal with
         | K : (_ <? _)%N = true |- _ => apply N.ltb_lt in K
         | K : (_ =? _)%N = true |- _ => apply N.eqb_eq in K
         end.
  auto 10.
Qed.

(** The middle byte of a full group depends on three bytes only through
    the two middle sextets. *)
Lemma d1_middle (x y z : byte) :
  let a := Byte.to_N x in
  let b := Byte.to_N y in
  let c := Byte.to_N z in
  d1 (s1 a b) (s2 b c) = b.
Proof.
  intros a b c. unfold d1.
  destruct (byte_pair_facts x y) as (_ & _ & _ & E1 & _).
  destruct (byte_pair_facts y z) as (_ & _ & _ & _ & E2 & _).
  fold a b in E1. fold b c in E2. rewrite E1, E2.
  apply (byte_facts y).
Qed.

Lemma to_url_sextet (n : N) (s : string) :
  (n < 64)%N ->
  to_url (String (b64_char n) s) = String (url_char (b64_char n)) (to_url s).
Proof.
  intros Hn. destruct (sextet_char Hn) as (Heq & _).
  unfold to_url. cbn [replace_char remove_char].
  fold (url_char (b64_char n)). now rewrite Heq.
Qed.

Lemma sextets_of_url_sextet (n : N) (s : string) :
  (n < 64)%N ->
  sextets (of_url (String (url_char (b64_char n)) s)) = n :: sextets (of_url s).
Proof.
  intros Hn. destruct (sextet_char Hn) as (_ & _ & _ & Hs & _).
  unfold of_url. cbn [replace_char sextets].
  fold (unurl_char (url_char (b64_char n))). now rewrite Hs.
Qed.

(** The shape of the encoded text, group by group. *)
Lemma toBase64Url_nil : toBase64Url [] = EmptyString.
Proof. reflexivity. Qed.

Lemma toBase64Url_one (x : byte) :
  let a := Byte.to_N x in
  toBase64Url [x] =
  String (url_char (b64_char (s0 a)))
    (String (url_char (b64_char (s1_last a))) EmptyString).
Proof.
  intros a. destruct (byte_facts x) as ((H0 & H1 & _) & _). fold a in H0, H1.
  unfold toBase64Url. cbn [Buffer_toString_base64]. fold a.
  change (String (b64_char (N.shiftr a 2)) (String (b64_char (N.shiftl (N.land a 3) 4)) "=="))
    with (String (b64_char (s0 a)) (String (b64_char (s1_last a)) "==")).
  fold (to_url (String (b64_char (s0 a)) (String (b64_char (s1_last a)) "=="))).
  now rewrite !to_url_sextet.
Qed.

Lemma toBase64Url_two (x y : byte) :
  let a := Byte.to_N x in
  let b := Byte.to_N y in
  toBase64Url [x; y] =
  String (url_char (b64_char (s0 a)))
    (String (url_char (b64_char (s1 a b)))
       (String (url_char (b64_char (s2_last b))) EmptyString)).
Proof.
  intros a b.
  destruct (byte_facts x) as ((H0 & _) & _). fold a in H0.
  destruct (byte_facts y) as ((_ & _ & H2 & _) & _). fold b in H2.
  destruct (byte_pair_facts x y) as ((H1 & _) & _). fold a b in H1.
  unfold toBase64Url. cbn [Buffer_toString_base64]. fold a b.
  change (to_url (String (b64_char (s0 a)) (String (b64_char (s1 a b))
                    (String (b64_char (s2_last b)) "="))) = 
          String (url_char (b64_char (s0 a)))
            (String (url_char (b64_char (s1 a b)))
               (String (url_char (b64_char (s2_last b))) EmptyString))).
  now rewrite !to_url_sextet.
Qed.

Lemma toBase64Url_group (x y z : byte) (rest : bytes) :
  let a := Byte.to_N x in
  let b := Byte.to_N y in
  let c := Byte.to_N z in
  toBase64Url (x :: y :: z :: rest) =
  String (url_char (b64_char (s0 a)))
    (String (url_char (b64_char (s1 a b)))
       (String (url_char (b64_char (s2 b c)))
          (String (url_char (b64_char (s3 c))) (toBase64Url rest)))).
Proof.
  intros a b c.
  destruct (byte_facts x) as ((H0 & _) & _). fold a in H0.
  destruct (byte_facts z) as ((_ & _ & _ & H3) & _). fold c in H3.
  destruct (byte_pair_facts x y) as ((H1 & _) & _). fold a b in H1.
  destruct (byte_pair_facts y z) as ((_ & H2) & _). fold b c in H2.
  unfold toBase64Url. cbn [Buffer_toString_base64]. fold a b c.
  change (to_url (String (b64_char (s0 a)) (String (b64_char (s1 a b))
                    (String (b64_char (s2 b c)) (String (b64_char (s3 c))
                       (Buffer_toString_base64 rest))))) =
          String (url_char (b64_char (s0 a)))
            (String (url_char (b64_char (s1 a b)))
               (String (url_char (b64_char (s2 b c)))
                  (String (url_char (b64_char (s3 c)))
                     (to_url (Buffer_toString_base64 rest)))))).
  now rewrite !to_url_sextet.
Qed.

(** Padding never reaches the decoder's output: it stops at the first
    ['=']. *)
Lemma sextets_pad (s : string) (k : nat) :
  sextets (s ++ repeat_char "=" k) = sextets s.
Proof.
  induction s as [|ch s IH]; simpl.
  - destruct k; reflexivity.
  - destruct (unbase64 ch); [now rewrite IH | reflexivity | exact IH].
Qed.

Lemma fromBase64Url_decode (s : string) :
  fromBase64Url s = decode_sextets (sextets (of_url s)).
Proof.
  unfold fromBase64Url, Buffer_from_base64. fold (of_url s).
  destruct (Nat.eqb _ _); [reflexivity | now rewrite sextets_pad].
Qed.

Lemma decode_toBase64Url (buf : bytes) :
  decode_sextets (sextets (of_url (toBase64Url buf))) = buf.
Proof.
  induction buf as [|x|x y|x y z rest IH] using triples_ind.
  - reflexivity.
  - rewrite toBase64Url_one.
    destruct (byte_facts x) as ((H0 & H1 & _) & E & _).
    rewrite !sextets_of_url_sextet by assumption.
    cbn [of_url replace_char sextets decode_sextets].
    fold (d0 (s0 (Byte.to_N x)) (s1_last (Byte.to_N x))).
    now rewrite E, byte_of_to_N.
  - rewrite toBase64Url_two.
    destruct (byte_facts x) as ((H0 & _) & _).
    destruct (byte_facts y) as ((_ & _ & H2 & _) & _).
    destruct (byte_pair_facts x y) as ((H1 & _) & E0 & E1 & _).
    rewrite !sextets_of_url_sextet by assumption.
    cbn [of_url replace_char sextets decode_sextets].
    fold (d0 (s0 (Byte.to_N x)) (s1 (Byte.to_N x) (Byte.to_N y))).
    fold (d1 (s1 (Byte.to_N x) (Byte.to_N y)) (s2_last (Byte.to_N y))).
    now rewrite E0, E1, !byte_of_to_N.
  - rewrite toBase64Url_group.
    destruct (byte_facts x) as ((H0 & _) & _).
    destruct (byte_facts z) as ((_ & _ & _ & H3) & _).
    destruct (byte_pair_facts x y) as ((H1 & _) & E0 & _).
    destruct (byte_pair_facts y z) as ((_ & H2) & _ & _ & _ & _ & E2).
    rewrite !sextets_of_url_sextet by assumption.
    cbn [decode_sextets]. rewrite IH.
    fold (d0 (s0 (Byte.to_N x)) (s1 (Byte.to_N x) (Byte.to_N y))).
    fold (d1 (s1 (Byte.to_N x) (Byte.to_N y)) (s2 (Byte.to_N y) (Byte.to_N z))).
    fold (d2 (s2 (Byte.to_N y) (Byte.to_N z)) (s3 (Byte.to_N z))).
    now rewrite E0, E2, d1_middle, !byte_of_to_N.
Qed.

Lemma url_char_clean (n : N) :
  (n < 64)%N ->
  let ch := url_char (b64_char n) in
  ch <> "+"%char /\ ch <> "/"%char /\ ch <> "="%char.
Proof.
  intros Hn ch. destruct (sextet_char Hn) as (E1 & E2 & E3 & _). fold ch in E1, E2, E3.
  repeat split; intros ->; discriminate.
Qed.

Lemma toBase64Url_alphabet (buf : bytes) (ch : ascii) :
  In ch (list_ascii_of_string (toBase64Url buf)) ->
  ch <> "+"%char /\ ch <> "/"%char /\ ch <> "="%char.
Proof.
  induction buf as [|x|x y|x y z rest IH] using triples_ind.
  - intros [].
  - rewrite toBase64Url_one.
    destruct (byte_facts x) as ((H0 & H1 & _) & _).
    cbn [list_ascii_of_string In].
    intros [<-|[<-|[]]]; now apply url_char_clean.
  - rewrite toBase64Url_two.
    destruct (byte_facts x) as ((H0 & _) & _).
    destruct (byte_facts y) as ((_ & _ & H2 & _) & _).
    destruct (byte_pair_facts x y) as ((H1 & _) & _).
    cbn [list_ascii_of_string In].
    intros [<-|[<-|[<-|[]]]]; now apply url_char_clean.
  - rewrite toBase64Url_group.
    destruct (byte_facts x) as ((H0 & _) & _).
    destruct (byte_facts z) as ((_ & _ & _ & H3) & _).
    destruct (byte_pair_facts x y) as ((H1 & _) & _).
    destruct (byte_pair_facts y z) as ((_ & H2) & _).
    cbn [list_ascii_of_string In].
    intros [<-|[<-|[<-|[<-|Hin]]]]; try (now apply url_char_clean).
    now apply IH.
Qed.

Lemma of_url_sextet (n : N) (s : string) :
  (n < 64)%N ->
  of_url (String (url_char (b64_char n)) s) = String (b64_char n) (of_url s).
Proof.
  intros Hn. destruct (sextet_char Hn) as (_ & _ & _ & _ & Hs).
  unfold of_url. cbn [replace_char].
  fold (unurl_char (url_char (b64_char n))). now rewrite Hs.
Qed.

Lemma padded_group (c0 c1 c2 c3 : N) (s : string) :
  (c0 < 64)%N -> (c1 < 64)%N -> (c2 < 64)%N -> (c3 < 64)%N ->
  padded (String (url_char (b64_char c0)) (String (url_char (b64_char c1))
            (String (url_char (b64_char c2)) (String (url_char (b64_char c3)) s)))) =
  String (b64_char c0) (String (b64_char c1)
    (String (b64_char c2) (String (b64_char c3) (padded s)))).
Proof.
  intros H0 H1 H2 H3. unfold padded.
  rewrite !of_url_sextet by assumption. cbn [String.length].
  replace (S (S (S (S (String.length (of_url s))))))
    with (String.length (of_url s) + 1 * 4)%nat by lia.
  rewrite Nat.Div0.mod_add.
  destruct (Nat.eqb _ _); reflexivity.
Qed.

(** The decoder is handed the very text the runtime's encoder produced:
    what [toBase64Url] strips, [fromBase64Url] puts back. *)
Lemma padded_toBase64Url (buf : bytes) :
  padded (toBase64Url buf) = Buffer_toString_base64 buf.
Proof.
  induction buf as [|x|x y|x y z rest IH] using triples_ind.
  - reflexivity.
  - rewrite toBase64Url_one.
    destruct (byte_facts x) as ((H0 & H1 & _) & _).
    unfold padded. now rewrite !of_url_sextet by assumption.
  - rewrite toBase64Url_two.
    destruct (byte_facts x) as ((H0 & _) & _).
    destruct (byte_facts y) as ((_ & _ & H2 & _) & _).
    destruct (byte_pair_facts x y) as ((H1 & _) & _).
    unfold padded. now rewrite !of_url_sextet by assumption.
  - rewrite toBase64Url_group.
    destruct (byte_facts x) as ((H0 & _) & _).
    destruct (byte_facts z) as ((_ & _ & _ & H3) & _).
    destruct (byte_pair_facts x y) as ((H1 & _) & _).
    destruct (byte_pair_facts y z) as ((_ & H2) & _).
    rewrite padded_group by assumption. now rewrite IH.
Qed.

(** C10.  Encoding a byte array as base64url and decoding the text gives
    the byte array back, and the text holds no ['+'], ['/'] or ['=']: the
    padding is stripped by the encoder and put back by the decoder. *)
Theorem base64url_roundtrip (b : bytes) :
  fromBase64Url (toBase64Url b) = b
  /\ (forall ch, In ch (list_ascii_of_string (toBase64Url b)) ->
                 ch <> "+"%char /\ ch <> "/"%char /\ ch <> "="%char)
  /\ fromBase64Url (toBase64Url b) = Buffer_from_base64 (padded (toBase64Url b))
  /\ padded (toBase64Url b) = Buffer_toString_base64 b.
Proof.
  split; [|split; [|split]].
  - rewrite fromBase64Url_decode. apply decode_toBase64Url.
  - intros ch. apply toBase64Url_alphabet.
  - reflexivity.
  - apply padded_toBase64Url.
Qed.

End CodecFacts.

Module CryptoFacts.
Import Codec Crypto.
Local Open Scope string_scope.

Local Opaque fromBase64Url.

Section WithPrimitives.
Variable P : Primitives.

Lemma transcript_as_specified (e : EncryptedData) (d : Decoded) :
  buildTranscript P (v e) (buildAlgsCiphersuite (algs e)) (d_ctKem d) (d_nonce d)
                  (d_aad d) (d_ciphertext d) (d_serverSigPk d) HKDF_CONTEXT
  = spec_transcript P e d.
Proof.
  unfold buildTranscript, spec_transcript, concatBuffers, buildAlgsCiphersuite,
    spec_ciphersuite.
  cbn [List.concat]. now rewrite app_nil_r.
Qed.

(** What one run of the verifier does, case by case. *)
Lemma verifySignature_run (e : EncryptedData) :
  run (verifySignature P e) =
  match spec_decode e with
  | None =>
      ([], Err (SignatureVerificationError
                  ("Signature verification error: " ++
                   "Cannot read properties of undefined (reading 'replace')")))
  | Some d =>
      ([Call_verify (d_sig d) (spec_transcript P e d) (d_serverSigPk d)],
       match ml_dsa65_verify P (d_sig d) (spec_transcript P e d) (d_serverSigPk d) with
       | Ok true => Ok true
       | Ok false =>
           Err (SignatureVerificationError
                  "SIGNATURE VERIFICATION FAILED - Data may be tampered!")
       | Err (SignatureVerificationError m) => Err (SignatureVerificationError m)
       | Err err =>
           Err (SignatureVerificationError
                  ("Signature verification error: " ++ message_of err))
       end)
  end.
Proof.
  unfold spec_decode.
  destruct e as [ver ck n a c sg pk al].
  cbn [signature ct_kem nonce aad ciphertext server_sig_pk].
  destruct sg as [sg|]; [|reflexivity].
  destruct ck as [ck|]; [|reflexivity].
  destruct n as [n|]; [|reflexivity].
  destruct a as [a|]; [|reflexivity].
  destruct c as [c|]; [|reflexivity].
  destruct pk as [pk|]; [|reflexivity].
  set (e := {| v := ver; ct_kem := Some ck; nonce := Some n; aad := Some a;
               ciphertext := Some c; signature := Some sg;
               server_sig_pk := Some pk; algs := al |}).
  set (d := {| d_sig := fromBase64Url sg; d_ctKem := fromBase64Url ck;
               d_nonce := fromBase64Url n; d_aad := fromBase64Url a;
               d_ciphertext := fromBase64Url c;
               d_serverSigPk := fromBase64Url pk |}).
  pose proof (transcript_as_specified e d) as T.
  unfold run, verifySignature, Eff.try_catch, Eff.bind, decode_field, Eff.ret,
    verify, Eff.emit, Eff.lift, Eff.events_of, Eff.outcome_of, ensureOwnBuffer.
  cbn [signature ct_kem nonce aad ciphertext server_sig_pk v algs e
       fst snd app].
  cbn [v algs e d d_ctKem d_nonce d_aad d_ciphertext d_serverSigPk] in T.
  rewrite T.
  cbn [d_sig d_serverSigPk d].
  destruct (ml_dsa65_verify P (fromBase64Url sg) (spec_transcript P e d)
                            (fromBase64Url pk)) as [[|]|err].
  - reflexivity.
  - reflexivity.
  - destruct err; reflexivity.
Qed.

Lemma verifySignature_outcome (e : EncryptedData) :
  (snd (run (verifySignature P e)) = Ok true <-> signature_verifies P e = true)
  /\ (signature_verifies P e = false ->
      exists m, snd (run (verifySignature P e)) = Err (SignatureVerificationError m)).
Proof.
  rewrite verifySignature_run. unfold signature_verifies.
  destruct (spec_decode e) as [d|]; cbn [snd].
  - destruct (ml_dsa65_verify P (d_sig d) (spec_transcript P e d) (d_serverSigPk d))
      as [[|]|err].
    + split; [tauto | discriminate].
    + split; [split; discriminate | eauto].
    + split; [split; [destruct err|]; discriminate | destruct err; eauto].
  - split; [split; discriminate | eauto].
Qed.

Ltac finish_events :=
  cbn; repeat rewrite <- app_assoc; cbn [app]; reflexivity.

(** A rejected envelope: [decrypt] stops where the verifier stopped. *)
Lemma decrypt_run_rejected (e : EncryptedData) (kp : Keypair) (m : string) :
  snd (run (verifySignature P e)) = Err (SignatureVerificationError m) ->
  run (decrypt P e kp) =
  (fst (run (verifySignature P e)), Err (SignatureVerificationError m)).
Proof.
  unfold run, decrypt, Eff.try_catch, Eff.bind, Eff.events_of, Eff.outcome_of.
  destruct (verifySignature P e tt) as [[s1 t1] [b|err]]; cbn [fst snd].
  - discriminate.
  - intros [= ->]. cbn. now rewrite app_nil_r.
Qed.

(** An accepted envelope: the next call is the decapsulation of the
    envelope's KEM ciphertext, and it is the only decapsulation. *)
Lemma decrypt_run_accepted (e : EncryptedData) (kp : Keypair) (d : Decoded) (b : bool) :
  spec_decode e = Some d ->
  snd (run (verifySignature P e)) = Ok b ->
  exists rest,
    fst (run (decrypt P e kp)) =
    (fst (run (verifySignature P e))
       ++ Call_decapsulate (d_ctKem d) (secretKey kp) :: rest)%list
    /\ forallb (fun c => negb (is_decapsulate c)) rest = true.
Proof.
  intros Hd.
  unfold run, decrypt, Eff.try_catch, Eff.bind, Eff.events_of, Eff.outcome_of.
  destruct (verifySignature P e tt) as [[s1 t1] [b'|err]]; cbn [fst snd];
    [intros _ | discriminate].
  unfold spec_decode in Hd.
  destruct (signature e), (ct_kem e) as [ck|], (nonce e) as [n|], (aad e) as [a|],
    (ciphertext e) as [c|], (server_sig_pk e); try discriminate.
  injection Hd as <-. cbn [d_ctKem].
  unfold decode_field, Eff.ret, decapsulate, Eff.emit, Eff.lift, Eff.bind,
    ensureOwnBuffer.
  destruct (ml_kem768_decapsulate P (fromBase64Url ck) (secretKey kp)) as [ss|err1].
  2:{ eexists. split; [destruct err1; finish_events | reflexivity]. }
  unfold deriveKey, digest, importKey, deriveBits, aes_decrypt, Eff.bind, Eff.emit,
    Eff.lift, Eff.ret, ensureOwnBuffer.
  destruct (subtle_digest P "SHA-256" (fromBase64Url ck)) as [salt|err2].
  2:{ eexists. split; [destruct err2; finish_events | reflexivity]. }
  destruct (subtle_importKey P "raw" ss "HKDF" ["deriveBits"]) as [bk|err3].
  2:{ eexists. split; [destruct err3; finish_events | reflexivity]. }
  match goal with
  | |- context [subtle_deriveBits P ?p ?k ?n] =>
      destruct (subtle_deriveBits P p k n) as [okm|err4]
  end.
  2:{ eexists. split; [destruct err4; finish_events | reflexivity]. }
  destruct (subtle_importKey P "raw" okm "AES-GCM" ["decrypt"]) as [ak|err5].
  2:{ eexists. split; [destruct err5; finish_events | reflexivity]. }
  match goal with
  | |- context [subtle_decrypt P ?p ?k ?c] =>
      destruct (subtle_decrypt P p k c) as [pt|err6]
  end.
  2:{ eexists. split; [destruct err6; finish_events | reflexivity]. }
  eexists. split; [finish_events | reflexivity].
Qed.

Lemma to_N_byte_of_N (n : N) : Byte.to_N (byte_of_N n) = (n mod 256)%N.
Proof.
  unfold byte_of_N.
  destruct (Byte.of_N (n mod 256)) as [b|] eqn:E.
  - now apply Byte.to_of_N.
  - apply Byte.of_N_None_iff in E.
    pose proof (N.mod_upper_bound n 256). lia.
Qed.

Lemma setUint32_be_value (n : N) :
  List.length (setUint32_be n) = 4%nat
  /\ be_value (setUint32_be n) = (n mod 4294967296)%N.
Proof.
  split; [reflexivity|].
  unfold setUint32_be, be_value. cbn [fold_left].
  rewrite !to_N_byte_of_N, !N.shiftr_div_pow2.
  set (m := (n mod 4294967296)%N).
  assert (Hm : (m < 4294967296)%N) by (apply N.mod_upper_bound; lia).
  change (2 ^ 24)%N with 16777216%N. change (2 ^ 16)%N with 65536%N.
  change (2 ^ 8)%N with 256%N.
  clearbody m. clear n.
  pose proof (N.div_mod m 256 ltac:(lia)) as E0.
  pose proof (N.div_mod (m / 256) 256 ltac:(lia)) as E1.
  pose proof (N.div_mod (m / 256 / 256) 256 ltac:(lia)) as E2.
  rewrite !N.Div0.div_div in E1, E2.
  change (256 * 256)%N with 65536%N in *.
  change (65536 * 256)%N with 16777216%N in *.
  assert (H3 : (m / 16777216 < 256)%N)
    by (apply N.Div0.div_lt_upper_bound; lia).
  rewrite (N.mod_small (m / 16777216) 256) by exact H3.
  replace (m / 65536 / 256)%N with (m / 16777216)%N in E2
    by (now rewrite N.Div0.div_div).
  lia.
Qed.

(** C1.  An envelope whose signature does not verify against the
    transcript built from its own fields makes [decrypt] fail with
    [SignatureVerificationError] without any call to the KEM
    decapsulation; and whenever [decrypt] does call the decapsulation,
    the verifier has accepted that envelope first: the first call of the
    run is the verification of the envelope's signature over its own
    transcript, it returned true, and the one decapsulation follows it. *)
Theorem decrypt_verifies_before_decapsulation (e : EncryptedData) (kp : Keypair) :
  (signature_verifies P e = false ->
   (exists m, snd (run (decrypt P e kp)) = Err (SignatureVerificationError m))
   /\ forall ct sk, ~ In (Call_decapsulate ct sk) (fst (run (decrypt P e kp))))
  /\ (forall ct sk,
         In (Call_decapsulate ct sk) (fst (run (decrypt P e kp))) ->
         signature_verifies P e = true
         /\ exists d rest,
             spec_decode e = Some d
             /\ ml_dsa65_verify P (d_sig d) (spec_transcript P e d) (d_serverSigPk d)
                = Ok true
             /\ fst (run (decrypt P e kp)) =
                Call_verify (d_sig d) (spec_transcript P e d) (d_serverSigPk d)
                :: Call_decapsulate (d_ctKem d) (secretKey kp) :: rest
             /\ forallb (fun c => negb (is_decapsulate c)) rest = true
             /\ ct = d_ctKem d /\ sk = secretKey kp).
Proof.
  assert (Hrej : signature_verifies P e = false ->
                 (exists m, snd (run (decrypt P e kp)) = Err (SignatureVerificationError m))
                 /\ forall ct sk,
                     ~ In (Call_decapsulate ct sk) (fst (run (decrypt P e kp)))).
  { intros Hbad.
    destruct (proj2 (verifySignature_outcome e) Hbad) as [m Hm].
    rewrite (decrypt_run_rejected e kp Hm). cbn [fst snd].
    split; [eauto|]. intros ct sk.
    rewrite verifySignature_run.
    destruct (spec_decode e); cbn [fst In]; intuition discriminate. }
  split; [exact Hrej|].
  intros ct sk Hin.
  destruct (signature_verifies P e) eqn:Hv.
  2:{ exfalso. exact (proj2 (Hrej eq_refl) ct sk Hin). }
  split; [reflexivity|].
  pose proof (proj2 (proj1 (verifySignature_outcome e)) Hv) as Hok.
  unfold signature_verifies in Hv.
  destruct (spec_decode e) as [d|] eqn:Hd; [|discriminate].
  destruct (ml_dsa65_verify P (d_sig d) (spec_transcript P e d) (d_serverSigPk d))
    as [[|]|] eqn:Hver; try discriminate.
  destruct (decrypt_run_accepted e kp Hd Hok) as (rest & Hev & Hrest).
  rewrite verifySignature_run, Hd in Hev. cbn [fst app] in Hev.
  exists d, rest. repeat split; try assumption.
  - rewrite Hev in Hin. cbn [In] in Hin.
    destruct Hin as [Hx|[Hx|Hx]]; [discriminate | now injection Hx |].
    rewrite forallb_forall in Hrest. specialize (Hrest _ Hx). discriminate.
  - rewrite Hev in Hin. cbn [In] in Hin.
    destruct Hin as [Hx|[Hx|Hx]]; [discriminate | now injection Hx |].
    rewrite forallb_forall in Hrest. specialize (Hrest _ Hx). discriminate.
Qed.

(** C2.  The verifier builds the ciphersuite string
    [kem:sig:aead:kdf] and calls the verify primitive once, on the
    decoded signature, the transcript and the decoded server key, the
    transcript being the version byte, the ciphersuite bytes, the context
    bytes, the KEM ciphertext, the nonce, the additional data, the
    ciphertext and the server key, in this order; it returns true exactly
    when the primitive returns true, and a field that cannot be decoded,
    an exception of the primitive and a false result all end in a
    [SignatureVerificationError]. *)
Theorem verifier_transcript_and_failures (e : EncryptedData) :
  buildAlgsCiphersuite (algs e)
  = kem (algs e) ++ ":" ++ sig (algs e) ++ ":" ++ aead (algs e) ++ ":" ++ kdf (algs e)
  /\ (forall d, spec_decode e = Some d ->
        fst (run (verifySignature P e)) =
        [Call_verify (d_sig d)
           ([uint8_of_number (v e)]
              ++ TextEncoder_encode P (buildAlgsCiphersuite (algs e))
              ++ TextEncoder_encode P HKDF_CONTEXT
              ++ d_ctKem d ++ d_nonce d ++ d_aad d ++ d_ciphertext d
              ++ d_serverSigPk d)%list
           (d_serverSigPk d)])
  /\ (snd (run (verifySignature P e)) = Ok true <-> signature_verifies P e = true)
  /\ (spec_decode e = None ->
      fst (run (verifySignature P e)) = []
      /\ exists m, snd (run (verifySignature P e)) = Err (SignatureVerificationError m))
  /\ (forall d err,
        spec_decode e = Some d ->
        ml_dsa65_verify P (d_sig d) (spec_transcript P e d) (d_serverSigPk d) = Err err ->
        exists m, snd (run (verifySignature P e)) = Err (SignatureVerificationError m))
  /\ (forall d,
        spec_decode e = Some d ->
        ml_dsa65_verify P (d_sig d) (spec_transcript P e d) (d_serverSigPk d) = Ok false ->
        exists m, snd (run (verifySignature P e)) = Err (SignatureVerificationError m))
  /\ (snd (run (verifySignature P e)) <> Ok true ->
      exists m, snd (run (verifySignature P e)) = Err (SignatureVerificationError m)).
Proof.
  split; [reflexivity|].
  split.
  { intros d Hd. rewrite verifySignature_run, Hd. reflexivity. }
  split; [apply verifySignature_outcome|].
  split.
  { intros Hd. rewrite verifySignature_run, Hd. cbn. eauto. }
  split.
  { intros d err Hd Hv. apply verifySignature_outcome.
    unfold signature_verifies. now rewrite Hd, Hv. }
  split.
  { intros d Hd Hv. apply verifySignature_outcome.
    unfold signature_verifies. now rewrite Hd, Hv. }
  intros Hne. apply verifySignature_outcome.
  destruct (signature_verifies P e) eqn:Hv; [|reflexivity].
  exfalso. apply Hne. now apply verifySignature_outcome.
Qed.

(** C3.  When the digest, the key import and the derivation succeed,
    [deriveKey] returns the output of the HKDF-SHA-512 derivation of 256
    bits over the shared secret, with the SHA-256 digest of the KEM
    ciphertext as salt and with the context bytes, the 4-byte big-endian
    length of the additional data and the additional data as info; the
    key has 32 bytes; and the result depends on nothing but the
    arguments. *)
Theorem deriveKey_derives (ikm : bytes) (context : string) (aad ctKem : bytes)
        (salt : bytes) (baseKey : CryptoKey) (okm : bytes) :
  (forall params key n out,
      subtle_deriveBits P params key n = Ok out ->
      N.of_nat (List.length out) = (n / 8)%N) ->
  subtle_digest P "SHA-256" ctKem = Ok salt ->
  subtle_importKey P "raw" ikm "HKDF" ["deriveBits"] = Ok baseKey ->
  subtle_deriveBits P
    {| hkdf_name := "HKDF"; hkdf_hash := "SHA-512"; hkdf_salt := salt;
       hkdf_info := (TextEncoder_encode P context
                       ++ setUint32_be (N.of_nat (List.length aad)) ++ aad)%list |}
    baseKey 256 = Ok okm ->
  run (deriveKey P ikm context aad ctKem) =
  ([ Call_digest "SHA-256" ctKem;
     Call_importKey "raw" ikm "HKDF" ["deriveBits"];
     Call_deriveBits
       {| hkdf_name := "HKDF"; hkdf_hash := "SHA-512"; hkdf_salt := salt;
          hkdf_info := spec_info P context aad |}
       baseKey 256 ],
   Ok okm)
  /\ List.length okm = 32%nat
  /\ List.length (setUint32_be (N.of_nat (List.length aad))) = 4%nat
  /\ be_value (setUint32_be (N.of_nat (List.length aad)))
     = (N.of_nat (List.length aad) mod 4294967296)%N
  /\ (forall s s' : unit,
         deriveKey P ikm context aad ctKem s = deriveKey P ikm context aad ctKem s').
Proof.
  intros Hlen Hsalt Hkey Hbits.
  split; [|split; [|split; [|split]]].
  - unfold run, deriveKey, digest, importKey, deriveBits, Eff.bind, Eff.emit,
      Eff.lift, Eff.ret, Eff.events_of, Eff.outcome_of, ensureOwnBuffer,
      concatBuffers, spec_info.
    cbn [List.concat]. rewrite app_nil_r.
    rewrite Hsalt, Hkey, Hbits. reflexivity.
  - apply Hlen in Hbits. change (256 / 8)%N with 32%N in Hbits. lia.
  - apply setUint32_be_value.
  - apply setUint32_be_value.
  - intros [] []. reflexivity.
Qed.

End WithPrimitives.

Lemma decrypt_verifies_before_decapsulation_witness :
  signature_verifies rejecting sample_envelope = false
  /\ (exists m, snd (run (decrypt rejecting sample_envelope sample_keypair))
                = Err (SignatureVerificationError m))
  /\ forall ct sk,
      ~ In (Call_decapsulate ct sk)
           (fst (run (decrypt rejecting sample_envelope sample_keypair))).
Proof.
  split; [vm_compute; reflexivity|].
  apply (proj1 (decrypt_verifies_before_decapsulation rejecting sample_envelope
                  sample_keypair)).
  vm_compute. reflexivity.
Defined.

Lemma verifier_transcript_and_failures_witness :
  snd (run (verifySignature rejecting sample_envelope)) <> Ok true
  /\ exists m, snd (run (verifySignature rejecting sample_envelope))
               = Err (SignatureVerificationError m).
Proof.
  split; [vm_compute; discriminate|].
  apply (verifier_transcript_and_failures rejecting sample_envelope).
  vm_compute. discriminate.
Defined.

Lemma deriveKey_derives_witness :
  run (deriveKey rejecting [x01; x02] HKDF_CONTEXT [x03] [x04]) =
  ([ Call_digest "SHA-256" [x04];
     Call_importKey "raw" [x01; x02] "HKDF" ["deriveBits"];
     Call_deriveBits
       {| hkdf_name := "HKDF"; hkdf_hash := "SHA-512"; hkdf_salt := repeat x00 32;
          hkdf_info := spec_info rejecting HKDF_CONTEXT [x03] |}
       {| key_format := "raw"; key_data := [x01; x02]; key_algorithm := "HKDF";
          key_usages := ["deriveBits"] |} 256 ],
   Ok (repeat x00 32))
  /\ List.length (repeat x00 32) = 32%nat.
Proof.
  refine (let H := deriveKey_derives rejecting [x01; x02] HKDF_CONTEXT [x03] [x04]
                     (salt := repeat x00 32)
                     (baseKey := {| key_format := "raw"; key_data := [x01; x02];
                                    key_algorithm := "HKDF";
                                    key_usages := ["deriveBits"] |})
                     (okm := repeat x00 32) _ _ _ _ in
          conj (proj1 H) (proj1 (proj2 H))).
  - intros params key n out [= <-]. rewrite repeat_length. apply N2Nat.id.
  - reflexivity.
  - reflexivity.
  - reflexivity.
Defined.

End CryptoFacts.

Module PollingFacts.
Import Mail Polling.
Local Open Scope string_scope.
Local Open Scope Q_scope.

Lemma Qlt_bool_iff (a b : Q) : Qlt_bool a b = true <-> a < b.
Proof.
  unfold Qlt_bool. rewrite negb_true_iff.
  split.
  - intros H. apply Qnot_le_lt. intros Hle.
    apply Qle_bool_iff in Hle. congruence.
  - intros H. destruct (Qle_bool b a) eqn:E; [|reflexivity].
    apply Qle_bool_iff in E. exfalso. exact (Qlt_not_le _ _ H E).
Qed.

Lemma Qle_bool_false (a b : Q) : b < a -> Qle_bool a b = false.
Proof.
  intros H. destruct (Qle_bool a b) eqn:E; [|reflexivity].
  apply Qle_bool_iff in E. exfalso. exact (Qlt_not_le _ _ H E).
Qed.

Section Wait.
Variable this : PollingStrategy.
Variable options : WaitOptions.

(** The law of one pass that goes on to the next one. *)
Lemma iteration_next (tk : tick) (st st' : state) (evs : list io) (ss : SyncStatus) :
  sync tk = Ok ss ->
  iteration this options tk st = (evs, Next st') ->
  let remaining := the_timeout options - (elapsed st + latency tk) in
  let interval := interval_of this options (emailsHash ss) st in
  let w := Qmin (Qmin (interval + random tk * jitterFactor this * interval)
                      (maxBackoff this)) remaining in
  0 < remaining
  /\ sleeps evs = [w]
  /\ elapsed st' = elapsed st + latency tk + w + overshoot tk
  /\ lastHash st' = Some (emailsHash ss)
  /\ currentBackoff st' = Qmin (interval * backoffMultiplier this) (maxBackoff this).
Proof.
  intros Hsync. unfold iteration, interval_of. rewrite Hsync.
  assert (Hsleep : forall st0 evs0,
             lastHash st0 = Some (emailsHash ss) ->
             sleep_and_back_off this options tk ss st0 = (evs0, Next st') ->
             0 < the_timeout options - (elapsed st0 + latency tk)
             /\ sleeps evs0 =
                [Qmin (Qmin (currentBackoff st0
                             + random tk * jitterFactor this * currentBackoff st0)
                            (maxBackoff this))
                      (the_timeout options - (elapsed st0 + latency tk))]
             /\ elapsed st' =
                elapsed st0 + latency tk
                + Qmin (Qmin (currentBackoff st0
                              + random tk * jitterFactor this * currentBackoff st0)
                             (maxBackoff this))
                       (the_timeout options - (elapsed st0 + latency tk))
                + overshoot tk
             /\ lastHash st' = Some (emailsHash ss)
             /\ currentBackoff st' =
                Qmin (currentBackoff st0 * backoffMultiplier this) (maxBackoff this)).
  { intros st0 evs0 Hl. unfold sleep_and_back_off.
    destruct (Qle_bool (the_timeout options - (elapsed st0 + latency tk)) 0) eqn:E;
      [discriminate|].
    rewrite Hl, String.eqb_refl. intros [= <- <-]. cbn.
    repeat split; try reflexivity.
    apply Qnot_le_lt. intros Hle. apply Qle_bool_iff in Hle. congruence. }
  destruct (hash_changed (lastHash st) (emailsHash ss)) eqn:Hch.
  - destruct (0 <? emailCount ss)%Z.
    + destruct (emails tk) as [l|err]; [|discriminate].
      destruct (findMatchingEmail l options (meanwhile tk (objects st))) as [h [[e|]|err]];
        [discriminate| |discriminate].
      destruct (sleep_and_back_off _ _ _ _ _) as [evs0 r] eqn:Hs.
      intros [= <- ->]. cbn [sleeps].
      apply Hsleep in Hs; [exact Hs | reflexivity].
    + destruct (sleep_and_back_off _ _ _ _ _) as [evs0 r] eqn:Hs.
      intros [= <- ->]. cbn [sleeps].
      apply Hsleep in Hs; [exact Hs | reflexivity].
  - destruct (sleep_and_back_off _ _ _ _ _) as [evs0 r] eqn:Hs.
    intros [= <- ->]. cbn [sleeps].
    apply (Hsleep _ _ ); [|exact Hs].
    unfold hash_changed in Hch. destruct (lastHash st) as [l|]; [|discriminate].
    apply negb_false_iff, String.eqb_eq in Hch. now subst.
Qed.

Lemma loop_after (pre rest : list tick) (st st' : state) (evs : list io) :
  run_ticks this options pre st = Some (evs, st') ->
  loop this options (pre ++ rest) st =
  match loop this options rest st' with
  | (evs', o, h) => ((evs ++ evs')%list, o, h)
  end.
Proof.
  revert st evs. induction pre as [|tk pre IH]; intros st evs.
  - cbn. intros [= <- <-]. now destruct (loop _ _ _ _) as [[evs' o] h].
  - cbn [run_ticks app loop].
    destruct (Qlt_bool (elapsed st) (the_timeout options)); [|discriminate].
    destruct (iteration this options tk st) as [evs0 [o h|st1]]; [discriminate|].
    destruct (run_ticks this options pre st1) as [[evs1 st2]|] eqn:Hr; [|discriminate].
    intros [= <- <-]. rewrite (IH _ _ Hr).
    destruct (loop this options rest _) as [[evs' o] h]. now rewrite app_assoc.
Qed.

End Wait.

Lemma Qmin_cases (a b : Q) : (Qmin a b == a /\ a <= b) \/ (Qmin a b == b /\ b <= a).
Proof.
  destruct (Q.min_spec a b) as [[H E]|[H E]]; [left | right]; split; auto.
  now apply Qlt_le_weak.
Qed.

(** The first pass and two passes without change bring the interval of the
    default configuration to 2000 x 1.5^3. *)
Lemma default_backoff_after_three (options : WaitOptions) (h : heap)
      (tk0 tk1 tk2 : tick) (ss0 ss1 ss2 : SyncStatus) (evs : list io) (s3 : state) :
  let this := new_PollingStrategy default_config in
  pollInterval options = None ->
  sync tk0 = Ok ss0 -> sync tk1 = Ok ss1 -> sync tk2 = Ok ss2 ->
  emailsHash ss1 = emailsHash ss0 -> emailsHash ss2 = emailsHash ss0 ->
  run_ticks this options [tk0; tk1; tk2] (initial this options h) = Some (evs, s3) ->
  lastHash s3 = Some (emailsHash ss0) /\ currentBackoff s3 == 6750.
Proof.
  intros this Hpi H0 H1 H2 E1 E2. cbn [run_ticks].
  destruct (Qlt_bool _ _); [|discriminate].
  destruct (iteration this options tk0 _) as [e0 [o ho|s1]] eqn:I0; [discriminate|].
  destruct (Qlt_bool _ _); [|discriminate].
  destruct (iteration this options tk1 s1) as [e1 [o ho|s2]] eqn:I1; [discriminate|].
  destruct (Qlt_bool _ _); [|discriminate].
  destruct (iteration this options tk2 s2) as [e2 [o ho|s3']] eqn:I2; [discriminate|].
  intros [= _ <-].
  destruct (iteration_next _ _ _ _ H0 I0) as (_ & _ & _ & L1 & B1).
  destruct (iteration_next _ _ _ _ H1 I1) as (_ & _ & _ & L2 & B2).
  destruct (iteration_next _ _ _ _ H2 I2) as (_ & _ & _ & L3 & B3).
  split; [congruence|].
  unfold interval_of in B1, B2, B3.
  rewrite L2, E2, <- E1 in B3. rewrite L1, E1 in B2.
  unfold hash_changed in B1, B2, B3. cbn [initial lastHash] in B1.
  rewrite String.eqb_refl in B2, B3. cbn [negb] in B2, B3.
  rewrite B3, B2, B1. unfold the_pollInterval. rewrite Hpi.
  vm_compute. reflexivity.
Qed.

(** C4, in the form the loop satisfies.  Every pass of the polling loop that goes on sleeps
    min(min(interval + random x jitterFactor x interval, maxBackoff),
    remaining time), where the interval is the poll interval when the digest
    is new and the interval carried over otherwise, and then sets the
    interval to min(interval x backoffMultiplier, maxBackoff).  With the
    default configuration, after the first pass and two passes without change
    the interval is 6750, so the third pass without change sleeps
    6750 + random x 0.3 x 6750, which lies in [6750, 6750 x 1.3], clipped to
    30000 and to the remaining time. *)
Theorem polling_backoff_schedule :
  (forall this options tk st st' evs ss,
      sync tk = Ok ss ->
      iteration this options tk st = (evs, Next st') ->
      let interval := interval_of this options (emailsHash ss) st in
      let remaining := the_timeout options - (elapsed st + latency tk) in
      sleeps evs =
      [Qmin (Qmin (interval + random tk * jitterFactor this * interval) (maxBackoff this))
            remaining]
      /\ currentBackoff st' = Qmin (interval * backoffMultiplier this) (maxBackoff this)
      /\ lastHash st' = Some (emailsHash ss))
  /\ (forall options h tk0 tk1 tk2 tk3 ss0 ss1 ss2 ss3 evs s3 evs3 s4,
         let this := new_PollingStrategy default_config in
         pollInterval options = None ->
         sync tk0 = Ok ss0 -> sync tk1 = Ok ss1 -> sync tk2 = Ok ss2 -> sync tk3 = Ok ss3 ->
         emailsHash ss1 = emailsHash ss0 -> emailsHash ss2 = emailsHash ss0 ->
         emailsHash ss3 = emailsHash ss0 ->
         run_ticks this options [tk0; tk1; tk2] (initial this options h) = Some (evs, s3) ->
         iteration this options tk3 s3 = (evs3, Next s4) ->
         0 <= random tk3 -> random tk3 < 1 ->
         let remaining := the_timeout options - (elapsed s3 + latency tk3) in
         currentBackoff s3 == 6750
         /\ exists w,
             sleeps evs3 = [w]
             /\ w == Qmin (Qmin (6750 + random tk3 * 0.3 * 6750) 30000) remaining
             /\ 6750 <= 6750 + random tk3 * 0.3 * 6750
             /\ 6750 + random tk3 * 0.3 * 6750 <= 6750 * 1.3
             /\ w <= 30000 /\ w <= remaining
             /\ (6750 * 1.3 <= remaining -> 6750 <= w /\ w <= 6750 * 1.3)).
Proof.
  split.
  - intros this options tk st st' evs ss Hs Hi.
    destruct (iteration_next _ _ _ _ Hs Hi) as (_ & S & _ & L & B). auto.
  - intros options h tk0 tk1 tk2 tk3 ss0 ss1 ss2 ss3 evs s3 evs3 s4 this
           Hpi H0 H1 H2 H3 E1 E2 E3 Hrun Hi Hr0 Hr1 remaining.
    destruct (default_backoff_after_three options h tk0 tk1 tk2 Hpi H0 H1 H2 E1 E2 Hrun)
      as [L3 B3].
    fold this in L3, B3.
    split; [exact B3|].
    destruct (iteration_next _ _ _ _ H3 Hi) as (Hrem & S & _ & _ & _).
    fold remaining in Hrem, S.
    unfold interval_of, hash_changed in S.
    rewrite L3, E3, String.eqb_refl in S. cbn [negb] in S.
    change (jitterFactor this) with 0.3 in S.
    change (maxBackoff this) with 30000 in S.
    set (r := random tk3) in *.
    set (b := currentBackoff s3) in *.
    exists (Qmin (Qmin (b + r * 0.3 * b) 30000) remaining).
    split; [exact S|].
    assert (Hw : Qmin (Qmin (b + r * 0.3 * b) 30000) remaining
                 == Qmin (Qmin (6750 + r * 0.3 * 6750) 30000) remaining)
      by (now rewrite B3).
    split; [exact Hw|].
    split; [lra|]. split; [lra|].
    rewrite Hw. clear Hw S.
    pose proof (Qmin_cases (6750 + r * 0.3 * 6750) 30000) as C1.
    pose proof (Qmin_cases (Qmin (6750 + r * 0.3 * 6750) 30000) remaining) as C2.
    set (m1 := Qmin (6750 + r * 0.3 * 6750) 30000) in *.
    set (m2 := Qmin m1 remaining) in *.
    clearbody m2. clearbody m1.
    destruct C1 as [[Ea Ha]|[Ea Ha]]; destruct C2 as [[Eb Hb]|[Eb Hb]];
      (split; [lra | split; [lra | intros Hbig; split; lra]]).
Qed.

Lemma polling_backoff_schedule_witness :
  let this := new_PollingStrategy default_config in
  let q := quiet_tick (1 # 2) in
  exists evs s3 evs3 s4 w,
    run_ticks this long_wait [q; q; q] (initial this long_wait fresh_heap) = Some (evs, s3)
    /\ iteration this long_wait q s3 = (evs3, Next s4)
    /\ currentBackoff s3 == 6750
    /\ sleeps evs3 = [w]
    /\ 6750 <= w /\ w <= 6750 * 1.3.
Proof.
  intros this q.
  destruct (run_ticks this long_wait [q; q; q] (initial this long_wait fresh_heap))
    as [[evs s3]|] eqn:Hrun; [|vm_compute in Hrun; discriminate].
  destruct (iteration this long_wait q s3) as [evs3 [o ho|s4]] eqn:Hi.
  { exfalso. vm_compute in Hrun. injection Hrun as _ <-.
    vm_compute in Hi. discriminate. }
  exists evs, s3, evs3, s4.
  destruct (proj2 polling_backoff_schedule long_wait fresh_heap q q q q
              _ _ _ _ evs s3 evs3 s4
              eq_refl eq_refl eq_refl eq_refl eq_refl eq_refl eq_refl eq_refl
              Hrun Hi ltac:(vm_compute; discriminate) ltac:(vm_compute; reflexivity))
    as (B & w & S & _ & _ & _ & _ & _ & Hin).
  exists w. repeat (split; [first [reflexivity | assumption]|]).
  apply Hin.
  vm_compute in Hrun. injection Hrun as _ <-. vm_compute. discriminate.
Defined.

(** The sleep as the specification words it is not the sleep of the loop
    once the interval has reached [maxBackoff]: in a quiet inbox with a timeout of 1000 s and
    [Math.random()] at 1/2, the eighth pass sleeps on the interval 30000 and
    the loop sleeps 30000 ms, where interval + random x (interval x
    jitterFactor) clipped to the remaining time is 34500 ms. *)
Lemma polling_sleep_counterexample :
  let this := new_PollingStrategy default_config in
  let q := quiet_tick (1 # 2) in
  exists evs st evs' st' w,
    run_ticks this long_wait (repeat q 7) (initial this long_wait fresh_heap)
    = Some (evs, st)
    /\ iteration this long_wait q st = (evs', Next st')
    /\ sleeps evs' = [w]
    /\ interval_of this long_wait "h0" st == 30000
    /\ w == 30000
    /\ spec_sleep this 30000 (1 # 2) (the_timeout long_wait - (elapsed st + latency q))
       == 34500
    /\ ~ w == spec_sleep this (interval_of this long_wait "h0" st) (1 # 2)
                         (the_timeout long_wait - (elapsed st + latency q)).
Proof.
  intros this q.
  eexists. eexists. eexists. eexists. eexists.
  split; [vm_compute; reflexivity|].
  split; [vm_compute; reflexivity|].
  split; [reflexivity|].
  split; [vm_compute; reflexivity|].
  split; [vm_compute; reflexivity|].
  split; [vm_compute; reflexivity|].
  vm_compute. discriminate.
Qed.

(** C8.  When the snapshot fetch of a pass fails, the wait throws at once:
    the run ends with that fetch, whatever the environment would have
    answered later, and the caller's objects are as the filters of the
    earlier passes left them.  An error whose status code is 404 is thrown as
    [InboxNotFoundError]; the errors the API client makes of a 404 response
    reach the caller as [InboxNotFoundError] or, when the server's message
    names an email and no inbox, as [EmailNotFoundError]. *)
Theorem polling_404_propagates (this : PollingStrategy) (options : WaitOptions)
        (h : heap) (pre : list tick) (tk : tick) (rest : list tick)
        (evs : list io) (st : state) (error : exn) :
  run_ticks this options pre (initial this options h) = Some (evs, st) ->
  elapsed st < the_timeout options ->
  sync tk = Err error ->
  waitForEmail this options h (pre ++ tk :: rest) =
  ((evs ++ [Io_getSyncStatus])%list, Thrown (on_error error), objects st)
  /\ (statusCode_of error = Some 404%Z ->
      on_error error = InboxNotFoundError "Inbox not found or has been deleted")
  /\ (forall ax r,
         ApiClient.response ax = Some r -> ApiClient.status r = 404%Z ->
         error = ApiClient.handleError ax ->
         exists m, on_error error = InboxNotFoundError m
                   \/ on_error error = EmailNotFoundError m).
Proof.
  intros Hrun Hlt Hsync.
  split; [|split].
  - unfold waitForEmail. rewrite (loop_after _ _ _ (tk :: rest) _ Hrun).
    cbn [loop]. apply Qlt_bool_iff in Hlt. rewrite Hlt.
    unfold iteration. rewrite Hsync. reflexivity.
  - intros Hcode. unfold on_error. now rewrite Hcode.
  - intros ax r Hr Hst ->. unfold ApiClient.handleError. rewrite Hr, Hst.
    cbn [Z.eqb Pos.eqb].
    destruct (includes _ "inbox"); [eexists; left; reflexivity|].
    destruct (includes _ "email"); [eexists; right; reflexivity|].
    eexists. left. reflexivity.
Qed.

Lemma polling_404_propagates_witness :
  let this := new_PollingStrategy default_config in
  waitForEmail this long_wait fresh_heap
               ([quiet_tick (1 # 2)] ++ gone_tick :: [quiet_tick 0]) =
  (([Io_getSyncStatus; Io_sleep (46000 # 20)] ++ [Io_getSyncStatus])%list,
   Thrown (InboxNotFoundError "Inbox not found or has been deleted"), fresh_heap).
Proof.
  intros this.
  refine (proj1 (polling_404_propagates this long_wait fresh_heap
                   [quiet_tick (1 # 2)] gone_tick
                   [quiet_tick 0] (error := ApiError 404 "Not Found")
                   (st := {| elapsed := 0 + 0 + (46000 # 20) + 0; lastHash := Some "h0";
                             currentBackoff := Qmin (2000 * 1.5) 30000;
                             objects := fresh_heap |}) _ _ _)).
  - vm_compute. reflexivity.
  - vm_compute. reflexivity.
  - reflexivity.
Defined.

End PollingFacts.

Module SSEFacts.
Import Mail SSE.
Local Open Scope string_scope.

Lemma set_reconnectTimer_same (s : SSEStrategy) :
  set_reconnectTimer (reconnectTimer s) s = s.
Proof. now destruct s. Qed.

Lemma set_eventSource_same (s : SSEStrategy) :
  set_eventSource (eventSource s) s = s.
Proof. now destruct s. Qed.

Lemma set_subscriptions_same (s : SSEStrategy) :
  set_subscriptions (subscriptions s) s = s.
Proof. now destruct s. Qed.

Section WithRuntime.
Variable R : Runtime.

Lemma disconnect_run (s : SSEStrategy) :
  disconnect s = (disconnected s, disconnect_events s, Ok tt).
Proof.
  unfold disconnect, disconnected, disconnect_events, Eff.bind, Eff.get, Eff.emit,
    Eff.modify, Eff.ret.
  destruct s as [u k ri ma bm es subs ra rt ic].
  destruct rt as [t|], es as [e|]; reflexivity.
Qed.

Lemma handleConnectionError_run (s : SSEStrategy) :
  handleConnectionError s =
  if isClosing s then (s, [], Ok tt)
  else if (reconnectAttempts s <? maxReconnectAttempts s)%Z then
         let d := (reconnectInterval s
                   * Qpower (backoffMultiplier s) (reconnectAttempts s))%Q in
         (set_reconnectTimer (Some {| delay := d; pending := true |}) (disconnected s),
          (disconnect_events s ++ [Io_setReconnectTimer d])%list, Ok tt)
       else (disconnected s, disconnect_events s, Err exhausted).
Proof.
  unfold handleConnectionError, Eff.bind at 1, Eff.get at 1.
  destruct (isClosing s) eqn:Hc; [reflexivity|].
  unfold Eff.bind at 1. rewrite disconnect_run.
  unfold Eff.bind, Eff.get, Eff.emit, Eff.modify, Eff.throw.
  change (reconnectAttempts (disconnected s)) with (reconnectAttempts s).
  change (maxReconnectAttempts (disconnected s)) with (maxReconnectAttempts s).
  destruct (reconnectAttempts s <? maxReconnectAttempts s)%Z.
  - cbn. reflexivity.
  - cbn. now rewrite app_nil_r.
Qed.

Lemma connect_run (s : SSEStrategy) :
  connect R s =
  if isClosing s then (s, [], Ok tt)
  else if is_empty (subscriptions s) then (s, [], Ok tt)
  else if String.eqb (String.concat "," (hashes s)) "" then (s, [], Ok tt)
  else if EventSource_constructs R (stream_url s)
       then (set_eventSource (Some {| es_url := stream_url s; readyState := 0 |}) s,
             [Io_open (stream_url s)], Ok tt)
       else (Eff.state_of (handleConnectionError s),
             Io_open (stream_url s) :: Eff.events_of (handleConnectionError s),
             Eff.outcome_of (handleConnectionError s)).
Proof.
  unfold connect, Eff.bind at 1, Eff.get at 1.
  destruct (isClosing s); [reflexivity|].
  destruct (is_empty (subscriptions s)); [reflexivity|].
  fold (stream_url s).
  destruct (String.eqb (String.concat "," (hashes s)) ""); [reflexivity|].
  unfold Eff.try_catch, Eff.bind, Eff.emit, Eff.modify, Eff.throw.
  destruct (EventSource_constructs R (stream_url s)).
  - reflexivity.
  - cbn -[handleConnectionError].
    now destruct (handleConnectionError s) as [[s' evs] r].
Qed.

Lemma reconnect_run (s : SSEStrategy) :
  reconnect R s =
  (Eff.state_of (connect R (disconnected s)),
   (disconnect_events s ++ Eff.events_of (connect R (disconnected s)))%list,
   Eff.outcome_of (connect R (disconnected s))).
Proof.
  unfold reconnect, Eff.bind. rewrite disconnect_run.
  now destruct (connect R (disconnected s)) as [[s' evs] r].
Qed.

Lemma unsubscribe_run (a : string) (cb : callback) (s : SSEStrategy) :
  unsubscribe R (a, cb) s =
  match map_get a (subscriptions s) with
  | None => (s, [], Ok tt)
  | Some sub =>
      let remaining := set_delete cb (callbacks sub) in
      let s1 := set_subscriptions
                  (map_set a (with_callbacks remaining sub) (subscriptions s)) s in
      if is_empty remaining then
        let s2 := set_subscriptions (map_delete a (subscriptions s1)) s1 in
        if is_empty (subscriptions s2) then disconnect s2 else reconnect R s2
      else (s1, [], Ok tt)
  end.
Proof.
  unfold unsubscribe, Eff.bind at 1, Eff.get at 1.
  destruct (map_get a (subscriptions s)) as [sub|]; [|reflexivity].
  cbv zeta. unfold Eff.bind at 1, Eff.modify at 1.
  destruct (is_empty (set_delete cb (callbacks sub))); [|reflexivity].
  unfold Eff.bind at 1, Eff.modify at 1.
  unfold Eff.bind at 1, Eff.get at 1.
  match goal with
  | |- context [is_empty (subscriptions ?s2)] =>
      destruct (is_empty (subscriptions s2))
  end.
  - match goal with
    | |- context [disconnect ?s2] => destruct (disconnect s2) as [[s' evs] r]
    end. reflexivity.
  - match goal with
    | |- context [reconnect R ?s2] => destruct (reconnect R s2) as [[s' evs] r]
    end. reflexivity.
Qed.

(** The registry is touched by [subscribe], [unsubscribe] and [close]
    only. *)
Lemma handleConnectionError_subscriptions (s : SSEStrategy) :
  subscriptions (Eff.state_of (handleConnectionError s)) = subscriptions s.
Proof.
  rewrite handleConnectionError_run.
  destruct (isClosing s); [reflexivity|].
  now destruct (reconnectAttempts s <? maxReconnectAttempts s)%Z.
Qed.

Lemma connect_subscriptions (s : SSEStrategy) :
  subscriptions (Eff.state_of (connect R s)) = subscriptions s.
Proof.
  rewrite connect_run.
  destruct (isClosing s); [reflexivity|].
  destruct (is_empty (subscriptions s)); [reflexivity|].
  destruct (String.eqb _ _); [reflexivity|].
  destruct (EventSource_constructs R _); [reflexivity|].
  apply handleConnectionError_subscriptions.
Qed.

Lemma reconnect_subscriptions (s : SSEStrategy) :
  subscriptions (Eff.state_of (reconnect R s)) = subscriptions s.
Proof.
  rewrite reconnect_run. unfold Eff.state_of at 1. cbn [fst].
  fold (Eff.state_of (connect R (disconnected s))).
  now rewrite connect_subscriptions.
Qed.

Lemma map_get_set (a : string) (x : InboxSubscription) (m : list (string * InboxSubscription)) :
  map_get a (map_set a x m) = Some x.
Proof.
  induction m as [|[k y] m IH]; cbn.
  - now rewrite String.eqb_refl.
  - destruct (String.eqb a k) eqn:E; cbn; rewrite E; [reflexivity | exact IH].
Qed.

Lemma map_set_set (a : string) (x y : InboxSubscription) (m : list (string * InboxSubscription)) :
  map_set a x (map_set a y m) = map_set a x m.
Proof.
  induction m as [|[k z] m IH]; cbn.
  - now rewrite String.eqb_refl.
  - destruct (String.eqb a k) eqn:E; cbn; rewrite E; [reflexivity | now rewrite IH].
Qed.

Lemma map_get_delete (a : string) (m : list (string * InboxSubscription)) :
  map_get a (map_delete a m) = None.
Proof.
  induction m as [|[k z] m IH]; cbn; [reflexivity|].
  destruct (String.eqb a k) eqn:E; cbn; [exact IH | now rewrite E].
Qed.

Lemma set_delete_twice (c : callback) (l : list callback) :
  set_delete c (set_delete c l) = set_delete c l.
Proof.
  unfold set_delete. induction l as [|x l IH]; cbn; [reflexivity|].
  destruct (Nat.eqb c x) eqn:E; cbn; [exact IH | now rewrite E, IH].
Qed.

(** A second [unsubscribe] on the same handle finds nothing to do. *)
Lemma unsubscribe_again (handle : string * callback) (s : SSEStrategy) :
  let s1 := Eff.state_of (unsubscribe R handle s) in
  unsubscribe R handle s1 = (s1, [], Ok tt).
Proof.
  destruct handle as [a cb]. cbv zeta.
  rewrite (unsubscribe_run a cb s).
  destruct (map_get a (subscriptions s)) as [sub|] eqn:Hget.
  2:{ cbn [Eff.state_of fst]. rewrite unsubscribe_run, Hget. reflexivity. }
  cbv zeta.
  destruct (is_empty (set_delete cb (callbacks sub))) eqn:Hrem.
  - assert (Hnone : forall s', subscriptions s' =
                      map_delete a (map_set a (with_callbacks (set_delete cb (callbacks sub)) sub)
                                            (subscriptions s)) ->
                      unsubscribe R (a, cb) s' = (s', [], Ok tt)).
    { intros s' Hs'. rewrite unsubscribe_run, Hs', map_get_delete. reflexivity. }
    match goal with
    | |- context [is_empty (subscriptions ?s2)] =>
        destruct (is_empty (subscriptions s2))
    end.
    + apply Hnone. rewrite disconnect_run. reflexivity.
    + apply Hnone. now rewrite reconnect_subscriptions.
  - cbn [Eff.state_of fst]. rewrite unsubscribe_run.
    cbn [subscriptions set_subscriptions]. rewrite map_get_set.
    cbv zeta. cbn [callbacks with_callbacks].
    rewrite set_delete_twice, Hrem.
    unfold with_callbacks at 1. cbn [emailAddress inboxHash keypair with_callbacks].
    fold (with_callbacks (set_delete cb (callbacks sub)) sub).
    rewrite map_set_set. reflexivity.
Qed.

Lemma concat_nonempty (l : list string) :
  l <> [] -> Forall (fun h => nonempty h = true) l -> String.concat "," l <> "".
Proof.
  destruct l as [|x rest]; [congruence|].
  intros _ Hall. inversion Hall as [|? ? Hx _]; subst.
  destruct x as [|c x]; [discriminate Hx|].
  cbn. destruct rest; discriminate.
Qed.

Lemma hashes_nonempty (s : SSEStrategy) :
  Forall (fun h => nonempty h = true) (hashes s).
Proof.
  unfold hashes. apply Forall_forall. intros h Hin.
  now apply filter_In in Hin.
Qed.

Lemma connect_current (s : SSEStrategy) :
  connection_current s \/ (isClosing s = false /\ hashes s <> []) ->
  connection_current (Eff.state_of (connect R s)).
Proof.
  intros H. rewrite connect_run.
  destruct (isClosing s) eqn:Hc.
  { destruct H as [H|[H _]]; [exact H | discriminate]. }
  destruct (is_empty (subscriptions s)) eqn:He.
  { destruct H as [H|[_ H]]; [exact H|].
    exfalso. apply H. unfold hashes, values.
    now destruct (subscriptions s). }
  destruct (String.eqb (String.concat "," (hashes s)) "") eqn:Hh.
  { destruct H as [H|[_ H]]; [exact H|].
    exfalso. apply String.eqb_eq in Hh.
    exact (concat_nonempty H (hashes_nonempty s) Hh). }
  destruct (EventSource_constructs R (stream_url s)).
  - intros es Hes. cbn [Eff.state_of fst eventSource set_eventSource] in Hes.
    injection Hes as <-.
    split; [reflexivity|]. split; [exact Hc|].
    change (hashes s <> []).
    intros E. rewrite E in Hh. discriminate.
  - cbn [Eff.state_of fst]. fold (Eff.state_of (handleConnectionError s)).
    rewrite handleConnectionError_run, Hc.
    destruct (reconnectAttempts s <? maxReconnectAttempts s)%Z;
      intros es; cbn; discriminate.
Qed.

Lemma map_get_In (a : string) (m : list (string * InboxSubscription)) :
  map_get a m = None <-> ~ In a (map fst m).
Proof.
  induction m as [|[k x] m IH]; cbn; [tauto|].
  destruct (String.eqb a k) eqn:E.
  - apply String.eqb_eq in E. subst. split; [discriminate | tauto].
  - apply String.eqb_neq in E. rewrite IH. split; [|tauto].
    intros H [H'|H']; [congruence | tauto].
Qed.

Lemma map_set_keys (a : string) (x : InboxSubscription) (m : list (string * InboxSubscription)) :
  map fst (map_set a x m) =
  match map_get a m with
  | Some _ => map fst m
  | None => (map fst m ++ [a])%list
  end.
Proof.
  induction m as [|[k y] m IH]; cbn; [reflexivity|].
  destruct (String.eqb a k) eqn:E; cbn; [reflexivity|].
  rewrite IH. now destruct (map_get a m).
Qed.

Lemma map_set_hashes (a : string) (x y : InboxSubscription)
      (m : list (string * InboxSubscription)) :
  map_get a m = Some y -> inboxHash x = inboxHash y ->
  map inboxHash (values (map_set a x m)) = map inboxHash (values m).
Proof.
  unfold values. intros Hget Hh.
  induction m as [|[k z] m IH]; cbn in *; [discriminate|].
  destruct (String.eqb a k); cbn.
  - injection Hget as ->. now rewrite Hh.
  - now rewrite IH.
Qed.

Lemma map_set_new_hashes (a : string) (x : InboxSubscription)
      (m : list (string * InboxSubscription)) :
  map_get a m = None ->
  map inboxHash (values (map_set a x m)) = (map inboxHash (values m) ++ [inboxHash x])%list.
Proof.
  unfold values. intros Hget.
  induction m as [|[k z] m IH]; cbn in *; [reflexivity|].
  destruct (String.eqb a k); [discriminate|]. cbn. now rewrite IH.
Qed.

Lemma register_keys (a h : string) (k : Crypto.Keypair) (cb : callback)
      (m : list (string * InboxSubscription)) :
  NoDup (map fst m) -> NoDup (map fst (register a h k cb m)).
Proof.
  intros Hnd. unfold register.
  destruct (map_get a m) as [sub|] eqn:Hget.
  - rewrite Hget, map_set_keys, Hget. exact Hnd.
  - rewrite map_get_set, map_set_keys, map_get_set, map_set_keys, Hget.
    apply NoDup_app; [exact Hnd | repeat constructor; intros [] |].
    intros x Hx [<-|[]]. now apply map_get_In in Hget.
Qed.

Lemma register_hashes (a h : string) (k : Crypto.Keypair) (cb : callback)
      (m : list (string * InboxSubscription)) :
  map inboxHash (values (register a h k cb m)) =
  match map_get a m with
  | Some _ => map inboxHash (values m)
  | None => (map inboxHash (values m) ++ [h])%list
  end.
Proof.
  unfold register.
  destruct (map_get a m) as [sub|] eqn:Hget.
  - rewrite Hget. now apply map_set_hashes with (y := sub).
  - rewrite map_get_set.
    rewrite map_set_hashes
      with (y := {| emailAddress := a; inboxHash := h; keypair := k; callbacks := [] |});
      [|apply map_get_set | reflexivity].
    now rewrite map_set_new_hashes.
Qed.

Lemma register_keeps_hashes (a h : string) (k : Crypto.Keypair) (cb : callback)
      (s : SSEStrategy) :
  hashes s <> [] ->
  hashes (set_subscriptions (register a h k cb (subscriptions s)) s) <> [].
Proof.
  unfold hashes. cbn [subscriptions set_subscriptions]. rewrite register_hashes.
  destruct (map_get a (subscriptions s)); [trivial|].
  rewrite filter_app. intros H E. apply app_eq_nil in E. tauto.
Qed.

Lemma subscribe_run (a h : string) (k : Crypto.Keypair) (cb : callback) (s : SSEStrategy) :
  subscribe R a h k cb s =
  let s2 := set_subscriptions (register a h k cb (subscriptions s)) s in
  let r := match eventSource s with
           | None => connect R s2
           | Some es => if (readyState es =? 2)%Z then connect R s2 else reconnect R s2
           end in
  (Eff.state_of r, Eff.events_of r,
   match Eff.outcome_of r with
   | Ok _ => Ok (a, cb)
   | Err e => Err e
   end).
Proof.
  unfold subscribe, register, Eff.bind, Eff.get, Eff.modify, Eff.ret.
  destruct (map_get a (subscriptions s)) as [sub|] eqn:Hget.
  - rewrite Hget. cbn [subscriptions set_subscriptions eventSource].
    destruct (eventSource s) as [es|].
    + destruct (readyState es =? 2)%Z.
      * destruct (connect R _) as [[s' evs] [[]|e]]; cbn; now rewrite ?app_nil_r.
      * destruct (reconnect R _) as [[s' evs] [[]|e]]; cbn; now rewrite ?app_nil_r.
    + destruct (connect R _) as [[s' evs] [[]|e]]; cbn; now rewrite ?app_nil_r.
  - cbn [subscriptions set_subscriptions eventSource]. rewrite map_get_set.
    cbn [subscriptions set_subscriptions eventSource].
    destruct (eventSource s) as [es|].
    + destruct (readyState es =? 2)%Z.
      * destruct (connect R _) as [[s' evs] [[]|e]]; cbn; now rewrite ?app_nil_r.
      * destruct (reconnect R _) as [[s' evs] [[]|e]]; cbn; now rewrite ?app_nil_r.
    + destruct (connect R _) as [[s' evs] [[]|e]]; cbn; now rewrite ?app_nil_r.
Qed.

Lemma reconnect_current (s : SSEStrategy) :
  connection_current (Eff.state_of (reconnect R s)).
Proof.
  rewrite reconnect_run. cbn [Eff.state_of fst].
  fold (Eff.state_of (connect R (disconnected s))).
  apply connect_current. left. intros es. cbn. discriminate.
Qed.

Lemma subscribe_well_formed (a h : string) (k : Crypto.Keypair) (cb : callback)
      (s : SSEStrategy) :
  well_formed s -> well_formed (Eff.state_of (subscribe R a h k cb s)).
Proof.
  intros [Hnd Hc]. rewrite subscribe_run. cbv zeta. cbn [Eff.state_of fst].
  set (s2 := set_subscriptions (register a h k cb (subscriptions s)) s).
  assert (Hnd2 : NoDup (map fst (subscriptions s2))) by (now apply register_keys).
  destruct (eventSource s) as [es|] eqn:Hes.
  - destruct (Hc es Hes) as (_ & Hcl & Hh).
    destruct (readyState es =? 2)%Z.
    + fold (Eff.state_of (connect R s2)). split.
      * now rewrite connect_subscriptions.
      * apply connect_current. right. split; [exact Hcl|].
        now apply register_keeps_hashes.
    + fold (Eff.state_of (reconnect R s2)). split.
      * now rewrite reconnect_subscriptions.
      * apply reconnect_current.
  - fold (Eff.state_of (connect R s2)). split.
    + now rewrite connect_subscriptions.
    + apply connect_current. left. intros es. subst s2. cbn. rewrite Hes. discriminate.
Qed.

Lemma map_delete_keys (a : string) (m : list (string * InboxSubscription)) :
  NoDup (map fst m) -> NoDup (map fst (map_delete a m)).
Proof.
  induction m as [|[k x] m IH]; cbn; [trivial|].
  intros Hnd. inversion Hnd as [|? ? Hk Hm]; subst.
  destruct (String.eqb a k); cbn; [now apply IH|].
  constructor; [|now apply IH].
  intros Hin. apply Hk. unfold map_delete in Hin.
  apply in_map_iff in Hin. destruct Hin as ([k' y] & <- & Hin).
  apply filter_In in Hin. apply in_map_iff. exists (k', y). tauto.
Qed.

Lemma unsubscribe_well_formed (handle : string * callback) (s : SSEStrategy) :
  well_formed s -> well_formed (Eff.state_of (unsubscribe R handle s)).
Proof.
  intros [Hnd Hc]. destruct handle as [a cb]. rewrite unsubscribe_run.
  destruct (map_get a (subscriptions s)) as [sub|] eqn:Hget; [|now split].
  cbv zeta.
  set (s1 := set_subscriptions _ s).
  assert (Hk1 : map fst (subscriptions s1) = map fst (subscriptions s))
    by (subst s1; cbn; now rewrite map_set_keys, Hget).
  destruct (is_empty (set_delete cb (callbacks sub))).
  - set (s2 := set_subscriptions (map_delete a (subscriptions s1)) s1).
    assert (Hnd2 : NoDup (map fst (subscriptions s2))).
    { subst s2. cbn [subscriptions set_subscriptions].
      apply map_delete_keys. now rewrite Hk1. }
    destruct (is_empty (subscriptions s2)).
    + rewrite disconnect_run. split; [exact Hnd2|].
      intros es. cbn. discriminate.
    + split; [now rewrite reconnect_subscriptions | apply reconnect_current].
  - split; [cbn [Eff.state_of fst]; now rewrite Hk1|].
    intros es Hes. cbn [Eff.state_of fst] in *.
    assert (Hh : hashes s1 = hashes s).
    { subst s1. unfold hashes. cbn [subscriptions set_subscriptions].
      now rewrite map_set_hashes with (y := sub). }
    unfold stream_url. rewrite Hh.
    exact (Hc es Hes).
Qed.

Lemma notify_run (cbs : list callback) (emailId : string) (s : SSEStrategy) :
  notify cbs emailId s = (s, map (fun c => Io_callback c emailId) cbs, Ok tt).
Proof.
  induction cbs as [|c cbs IH]; [reflexivity|].
  cbn [notify map]. unfold Eff.bind, Eff.emit. now rewrite IH.
Qed.

Lemma onmessage_state (parsed : result SSEMessageData) (decrypted : result IEmail)
      (s : SSEStrategy) :
  Eff.state_of (eventSource_onmessage parsed decrypted s) = s.
Proof.
  unfold eventSource_onmessage, handleMessage, Eff.try_catch, Eff.bind, Eff.lift,
    Eff.get, Eff.throw, Eff.ret.
  destruct parsed as [m|e]; [|reflexivity].
  destruct (find _ _) as [sub|]; [|reflexivity].
  destruct decrypted as [email|e]; [|reflexivity].
  now rewrite notify_run.
Qed.

Lemma perform_well_formed (a : action) (s : SSEStrategy) :
  well_formed s -> well_formed (Eff.state_of (perform R a s)).
Proof.
  intros Hwf. destruct a as [e h k c|hd| | | | |p d]; cbn [perform].
  - unfold Eff.bind.
    pose proof (subscribe_well_formed e h k c Hwf) as H.
    destruct (subscribe R e h k c s) as [[s' evs] [x|err]]; exact H.
  - now apply unsubscribe_well_formed.
  - unfold close, Eff.bind, Eff.modify. rewrite disconnect_run. cbn.
    split; [constructor | intros es; cbn; discriminate].
  - destruct Hwf as [Hnd Hc].
    unfold eventSource_onopen, Eff.bind, Eff.modify. cbn [Eff.state_of fst].
    destruct (eventSource s) as [es|] eqn:Hes.
    + split; [exact Hnd|]. intros es'. cbn. intros [= <-]. cbn.
      exact (Hc es Hes).
    + split; [exact Hnd|]. intros es'. cbn. rewrite Hes. discriminate.
  - unfold eventSource_onerror. rewrite handleConnectionError_run.
    destruct (isClosing s); [exact Hwf|].
    destruct Hwf as [Hnd _].
    destruct (reconnectAttempts s <? maxReconnectAttempts s)%Z;
      (split; [exact Hnd | intros es; cbn; discriminate]).
  - destruct Hwf as [Hnd Hc].
    unfold reconnectTimer_fires, Eff.bind at 1, Eff.get at 1.
    destruct (reconnectTimer s) as [t|]; [|now split].
    destruct (pending t); [|now split].
    unfold Eff.bind, Eff.modify.
    match goal with
    | |- context [connect R ?s1] =>
        pose proof (connect_subscriptions s1) as Hs;
        pose proof (@connect_current s1) as Hcc;
        destruct (connect R s1) as [[s' evs] r]
    end.
    cbn [Eff.state_of fst] in *. split.
    + now rewrite Hs.
    + apply Hcc. left. exact Hc.
  - now rewrite onmessage_state.
Qed.

Lemma new_well_formed (config : SSEConfig) : well_formed (new_SSEStrategy config).
Proof.
  split; [constructor | intros es; cbn; discriminate].
Qed.

Lemma reachable_well_formed (s : SSEStrategy) : reachable R s -> well_formed s.
Proof.
  intros (config & actions & ->).
  generalize (new_well_formed config).
  generalize (new_SSEStrategy config).
  induction actions as [|a actions IH]; intros s0 H0; cbn [after].
  - exact H0.
  - apply IH. now apply perform_well_formed.
Qed.

Lemma stream_events_app (l1 l2 : list io) :
  stream_events (l1 ++ l2) = (stream_events l1 ++ stream_events l2)%list.
Proof.
  induction l1 as [|e l1 IH]; [reflexivity|].
  destruct e; cbn; now rewrite IH.
Qed.

Lemma disconnect_stream_events (s : SSEStrategy) :
  stream_events (disconnect_events s) =
  match eventSource s with
  | Some es => [Io_close (es_url es)]
  | None => []
  end.
Proof.
  unfold disconnect_events. rewrite stream_events_app.
  destruct (reconnectTimer s), (eventSource s); reflexivity.
Qed.

Lemma handleConnectionError_stream_events (s : SSEStrategy) :
  eventSource s = None ->
  stream_events (Eff.events_of (handleConnectionError s)) = [].
Proof.
  intros Hes. rewrite handleConnectionError_run.
  destruct (isClosing s); [reflexivity|].
  destruct (reconnectAttempts s <? maxReconnectAttempts s)%Z; cbn [Eff.events_of fst snd];
    rewrite ?stream_events_app, disconnect_stream_events, Hes; reflexivity.
Qed.

(** Dropping a subscription while others with a routing hash remain:
    the stream is closed and opened again for the hashes that remain. *)
Lemma reconnect_after_removal (s : SSEStrategy) (es : EventSource) :
  eventSource s = Some es ->
  isClosing s = false ->
  hashes s <> [] ->
  let r := reconnect R s in
  stream_events (Eff.events_of r) = [Io_close (es_url es); Io_open (stream_url s)]
  /\ subscriptions (Eff.state_of r) = subscriptions s
  /\ (EventSource_constructs R (stream_url s) = true ->
      eventSource (Eff.state_of r) = Some {| es_url := stream_url s; readyState := 0 |}
      /\ Eff.outcome_of r = Ok tt).
Proof.
  intros Hes Hc Hh r. subst r.
  split; [|split; [apply reconnect_subscriptions|]].
  - rewrite reconnect_run. cbn [Eff.events_of fst snd].
    rewrite stream_events_app, disconnect_stream_events, Hes.
    fold (Eff.events_of (connect R (disconnected s))).
    rewrite connect_run.
    change (isClosing (disconnected s)) with (isClosing s).
    change (subscriptions (disconnected s)) with (subscriptions s).
    change (hashes (disconnected s)) with (hashes s).
    change (stream_url (disconnected s)) with (stream_url s).
    rewrite Hc.
    destruct (is_empty (subscriptions s)) eqn:He.
    { exfalso. apply Hh. unfold hashes, values. now destruct (subscriptions s). }
    destruct (String.eqb (String.concat "," (hashes s)) "") eqn:Hq.
    { exfalso. apply String.eqb_eq in Hq.
      exact (concat_nonempty Hh (hashes_nonempty s) Hq). }
    destruct (EventSource_constructs R (stream_url s)); [reflexivity|].
    cbn [Eff.events_of fst snd stream_events app].
    fold (Eff.events_of (handleConnectionError (disconnected s))).
    now rewrite handleConnectionError_stream_events.
  - intros Hok. rewrite reconnect_run. cbn [Eff.state_of Eff.outcome_of fst snd].
    fold (Eff.state_of (connect R (disconnected s))).
    fold (Eff.outcome_of (connect R (disconnected s))).
    rewrite connect_run.
    change (isClosing (disconnected s)) with (isClosing s).
    change (subscriptions (disconnected s)) with (subscriptions s).
    change (hashes (disconnected s)) with (hashes s).
    change (stream_url (disconnected s)) with (stream_url s).
    rewrite Hc, Hok.
    destruct (is_empty (subscriptions s)) eqn:He.
    { exfalso. apply Hh. unfold hashes, values. now destruct (subscriptions s). }
    destruct (String.eqb (String.concat "," (hashes s)) "") eqn:Hq.
    { exfalso. apply String.eqb_eq in Hq.
      exact (concat_nonempty Hh (hashes_nonempty s) Hq). }
    split; reflexivity.
Qed.

Lemma set_delete_only (cb : callback) : set_delete cb [cb] = [].
Proof. unfold set_delete. cbn. now rewrite Nat.eqb_refl. Qed.

(** The connection the strategy holds.  In every state the strategy can
    reach, the connection in [eventSource] was opened for the routing hashes
    registered now.  When two subscriptions share the stream, removing one
    closes that connection and opens one for the hash of the other;
    removing the only subscription closes that connection and opens none.
    This says nothing of a connection the strategy no longer holds. *)
Theorem stream_follows_registry :
  (forall s es,
      reachable R s -> eventSource s = Some es ->
      es_url es = url s ++ "/api/events?inboxes=" ++ String.concat "," (hashes s)
      /\ forall h, In h (hashes s) <->
                   h <> "" /\ exists a sub, In (a, sub) (subscriptions s)
                                            /\ inboxHash sub = h)
  /\ (forall s es a1 sub1 a2 sub2 cb,
         reachable R s -> eventSource s = Some es ->
         subscriptions s = [(a1, sub1); (a2, sub2)] ->
         callbacks sub1 = [cb] -> inboxHash sub2 <> "" ->
         let r := unsubscribe R (a1, cb) s in
         let u := url s ++ "/api/events?inboxes=" ++ inboxHash sub2 in
         subscriptions (Eff.state_of r) = [(a2, sub2)]
         /\ stream_events (Eff.events_of r) = [Io_close (es_url es); Io_open u]
         /\ (EventSource_constructs R u = true ->
             eventSource (Eff.state_of r) = Some {| es_url := u; readyState := 0 |}
             /\ Eff.outcome_of r = Ok tt))
  /\ (forall s es a1 sub1 a2 sub2 cb,
         reachable R s -> eventSource s = Some es ->
         subscriptions s = [(a1, sub1); (a2, sub2)] ->
         callbacks sub2 = [cb] -> inboxHash sub1 <> "" ->
         let r := unsubscribe R (a2, cb) s in
         let u := url s ++ "/api/events?inboxes=" ++ inboxHash sub1 in
         subscriptions (Eff.state_of r) = [(a1, sub1)]
         /\ stream_events (Eff.events_of r) = [Io_close (es_url es); Io_open u]
         /\ (EventSource_constructs R u = true ->
             eventSource (Eff.state_of r) = Some {| es_url := u; readyState := 0 |}
             /\ Eff.outcome_of r = Ok tt))
  /\ (forall s es a sub cb,
         eventSource s = Some es ->
         subscriptions s = [(a, sub)] ->
         callbacks sub = [cb] ->
         let r := unsubscribe R (a, cb) s in
         subscriptions (Eff.state_of r) = []
         /\ eventSource (Eff.state_of r) = None
         /\ stream_events (Eff.events_of r) = [Io_close (es_url es)]
         /\ Eff.outcome_of r = Ok tt).
Proof.
  split; [|split; [|split]].
  - intros s es Hr Hes.
    destruct (reachable_well_formed Hr) as [_ Hc].
    destruct (Hc es Hes) as (Hu & _ & _).
    split; [exact Hu|].
    intros h. unfold hashes, values. rewrite filter_In, in_map_iff.
    split.
    + intros [(sub & <- & Hin) Hne].
      apply in_map_iff in Hin. destruct Hin as ([a sub'] & <- & Hin).
      split.
      * cbn [snd] in Hne |- *. intros E. unfold nonempty in Hne.
        rewrite E in Hne. discriminate.
      * now exists a, sub'.
    + intros [Hne (a & sub & Hin & <-)].
      split.
      * exists sub. split; [reflexivity|].
        apply in_map_iff. now exists (a, sub).
      * unfold nonempty. apply negb_true_iff. now apply String.eqb_neq.
  - intros s es a1 sub1 a2 sub2 cb Hr Hes Hsubs Hcb Hh2 r u.
    destruct (reachable_well_formed Hr) as [Hnd Hc].
    destruct (Hc es Hes) as (_ & Hcl & _).
    rewrite Hsubs in Hnd. cbn in Hnd.
    assert (Hne : String.eqb a1 a2 = false).
    { apply String.eqb_neq. intros ->. inversion Hnd as [|? ? Hin _]. apply Hin. now left. }
    subst r. rewrite unsubscribe_run, Hsubs. cbn [map_get]. rewrite String.eqb_refl.
    cbv zeta. rewrite Hcb, set_delete_only. cbn [is_empty].
    cbn [subscriptions set_subscriptions map_set map_delete filter fst].
    rewrite String.eqb_refl. cbn [map_delete filter fst negb].
    rewrite String.eqb_refl, Hne. cbn [negb is_empty].
    set (s2 := set_subscriptions [(a2, sub2)] _).
    assert (Hh : hashes s2 = [inboxHash sub2]).
    { subst s2. unfold hashes, values, nonempty. cbn.
      apply String.eqb_neq in Hh2. now rewrite Hh2. }
    assert (Hu : stream_url s2 = u).
    { unfold stream_url. rewrite Hh. reflexivity. }
    destruct (@reconnect_after_removal s2 es) as (E1 & E2 & E3);
      [exact Hes | exact Hcl | rewrite Hh; discriminate |].
    rewrite Hu in E1, E3. auto.
  - intros s es a1 sub1 a2 sub2 cb Hr Hes Hsubs Hcb Hh1 r u.
    destruct (reachable_well_formed Hr) as [Hnd Hc].
    destruct (Hc es Hes) as (_ & Hcl & _).
    rewrite Hsubs in Hnd. cbn in Hnd.
    assert (Hne : String.eqb a2 a1 = false).
    { apply String.eqb_neq. intros ->. inversion Hnd as [|? ? Hin _]. apply Hin. now left. }
    subst r. rewrite unsubscribe_run, Hsubs. cbn [map_get]. rewrite Hne, String.eqb_refl.
    cbv zeta. rewrite Hcb, set_delete_only. cbn [is_empty].
    cbn [subscriptions set_subscriptions map_set map_delete filter fst].
    rewrite Hne, String.eqb_refl. cbn [map_delete filter fst negb].
    rewrite String.eqb_refl, Hne. cbn [negb is_empty].
    set (s2 := set_subscriptions [(a1, sub1)] _).
    assert (Hh : hashes s2 = [inboxHash sub1]).
    { subst s2. unfold hashes, values, nonempty. cbn.
      apply String.eqb_neq in Hh1. now rewrite Hh1. }
    assert (Hu : stream_url s2 = u).
    { unfold stream_url. rewrite Hh. reflexivity. }
    destruct (@reconnect_after_removal s2 es) as (E1 & E2 & E3);
      [exact Hes | exact Hcl | rewrite Hh; discriminate |].
    rewrite Hu in E1, E3. auto.
  - intros s es a sub cb Hes Hsubs Hcb r. subst r.
    rewrite unsubscribe_run, Hsubs. cbn [map_get]. rewrite String.eqb_refl.
    cbv zeta. rewrite Hcb, set_delete_only. cbn [is_empty].
    cbn [subscriptions set_subscriptions map_set map_delete filter fst].
    rewrite String.eqb_refl. cbn [map_delete filter fst negb].
    rewrite String.eqb_refl. cbn [negb is_empty].
    rewrite disconnect_run. cbn [Eff.state_of Eff.events_of Eff.outcome_of fst snd].
    repeat split.
    rewrite disconnect_stream_events. cbn. now rewrite Hes.
Qed.

(** With the attempts used up, the error handler throws, after it has
    disconnected; it schedules nothing and leaves the registry alone. *)
Lemma handleConnectionError_exhausted (s : SSEStrategy) :
  isClosing s = false ->
  (maxReconnectAttempts s <= reconnectAttempts s)%Z ->
  handleConnectionError s = (disconnected s, disconnect_events s, Err exhausted).
Proof.
  intros Hc Hmax. rewrite handleConnectionError_run, Hc.
  destruct (reconnectAttempts s <? maxReconnectAttempts s)%Z eqn:E; [|reflexivity].
  apply Z.ltb_lt in E. lia.
Qed.

Lemma disconnect_events_no_callback (s : SSEStrategy) (c : callback) (emailId : string) :
  ~ In (Io_callback c emailId) (disconnect_events s).
Proof.
  unfold disconnect_events. intros Hin. apply in_app_or in Hin.
  destruct (reconnectTimer s), (eventSource s), Hin as [H|H]; cbn in H;
    intuition discriminate.
Qed.

End WithRuntime.

Lemma waitForEmail_elapsed_run (R : Runtime) (a h : string) (k : Crypto.Keypair)
      (options : WaitOptions) (cb : callback) (elapsed : Q) (s : SSEStrategy) :
  let t := Polling.nullish (timeout options) 30000%Q in
  let wait r p := {| w_handle := (a, cb); w_timeout := t; w_options := options;
                     resolved := r; settled := p |} in
  Qle_bool t elapsed = true ->
  waitForEmail R a h k options cb elapsed s =
  match subscribe R a h k cb s with
  | (s1, evs1, Err e) => (s1, Io_setWaitTimer t :: evs1, Ok (wait false (Rejected e)))
  | (s1, evs1, Ok x) =>
      match SSE.unsubscribe R x s1 with
      | (s2, evs2, Ok _) =>
          (s2, (Io_setWaitTimer t :: evs1 ++ Io_clearWaitTimer t :: evs2)%list,
           Ok (wait true (Rejected (TimeoutError
                                      "No matching email received within timeout"))))
      | (s2, evs2, Err e) =>
          (s2, (Io_setWaitTimer t :: evs1 ++ Io_clearWaitTimer t :: evs2)%list,
           Ok (wait false (Rejected e)))
      end
  end.
Proof.
  intros t wait Ht. unfold waitForEmail. fold t.
  unfold Eff.try_catch, Eff.bind, Eff.emit, Eff.ret. rewrite Ht.
  destruct (subscribe R a h k cb s) as [[s1 evs1] [x|err]].
  - destruct (SSE.unsubscribe R x s1) as [[s2 evs2] [[]|err]]; cbn;
      now rewrite ?app_nil_r.
  - cbn. now rewrite ?app_nil_r.
Qed.

(** C5, in the form the two strategies satisfy.  A wait whose timeout is zero or negative fails with
    [TimeoutError].  The polling strategy makes no call at all and runs no
    filter.  The stream
    strategy sets its timer, subscribes, which registers the callback and
    opens or reopens the stream, and then clears the timer, unsubscribes and
    rejects, all within the call; if the subscription or the removal throws,
    the promise is rejected with that error instead. *)
Theorem wait_with_elapsed_deadline :
  (forall (this : Polling.PollingStrategy) (options : WaitOptions) (h : heap)
          (script : list Polling.tick),
      (Polling.the_timeout options <= 0)%Q ->
      Polling.waitForEmail this options h script =
      ([], Polling.Thrown (TimeoutError "No matching email received within timeout"), h))
  /\ (forall (R : Runtime) (a h : string) (k : Crypto.Keypair) (options : WaitOptions)
             (cb : callback) (elapsed : Q) (s : SSEStrategy),
         (Polling.nullish (timeout options) 30000 <= elapsed)%Q ->
         let t := Polling.nullish (timeout options) 30000%Q in
         let sub := subscribe R a h k cb s in
         let uns := SSE.unsubscribe R (a, cb) (Eff.state_of sub) in
         let r := waitForEmail R a h k options cb elapsed s in
         (exists w e, Eff.outcome_of r = Ok w /\ settled w = Rejected e)
         /\ (exists rest, Eff.events_of r = (Io_setWaitTimer t :: Eff.events_of sub ++ rest)%list)
         /\ (Eff.outcome_of sub = Ok (a, cb) ->
             Eff.outcome_of uns = Ok tt ->
             r = (Eff.state_of uns,
                  (Io_setWaitTimer t :: Eff.events_of sub
                     ++ Io_clearWaitTimer t :: Eff.events_of uns)%list,
                  Ok {| w_handle := (a, cb); w_timeout := t; w_options := options;
                        resolved := true;
                        settled := Rejected (TimeoutError
                                     "No matching email received within timeout") |}))).
Proof.
  split.
  - intros this options h script Ht.
    unfold Polling.waitForEmail.
    assert (E : Polling.Qlt_bool (Polling.elapsed (Polling.initial this options h))
                                 (Polling.the_timeout options) = false).
    { unfold Polling.Qlt_bool. apply negb_false_iff. apply Qle_bool_iff. exact Ht. }
    destruct script; cbn [Polling.loop]; now rewrite E.
  - intros R a h k options cb elapsed s Ht t sub uns r.
    apply Qle_bool_iff in Ht.
    assert (Hx : forall x, Eff.outcome_of sub = Ok x -> x = (a, cb)).
    { intros x. subst sub. rewrite subscribe_run. cbv zeta.
      cbn [Eff.outcome_of snd].
      match goal with
      | |- match ?o with _ => _ end = _ -> _ =>
          destruct o; [now intros [= <-] | discriminate]
      end. }
    subst r. rewrite (@waitForEmail_elapsed_run R a h k options cb elapsed s Ht).
    fold t sub.
    destruct sub as [[s1 evs1] [x|err]] eqn:Hsub;
      cbn [Eff.state_of Eff.events_of Eff.outcome_of fst snd] in *.
    + rewrite (Hx x eq_refl) in *. fold uns.
      destruct uns as [[s2 evs2] [[]|err]] eqn:Huns;
        cbn [Eff.state_of Eff.events_of Eff.outcome_of fst snd].
      * split; [do 2 eexists; split; reflexivity|].
        split; [eexists; reflexivity|]. intros _ _. reflexivity.
      * split; [do 2 eexists; split; reflexivity|].
        split; [eexists; reflexivity|]. intros _ Hbad. discriminate.
    + split; [do 2 eexists; split; reflexivity|].
      split; [exists []; now rewrite app_nil_r|].
      intros Hbad. discriminate.
Qed.

Lemma wait_with_elapsed_deadline_witness :
  Polling.waitForEmail (Polling.new_PollingStrategy Polling.default_config)
                       zero_timeout fresh_heap [Polling.quiet_tick 0] =
  ([], Polling.Thrown (TimeoutError "No matching email received within timeout"),
   fresh_heap).
Proof.
  apply (proj1 wait_with_elapsed_deadline). vm_compute. discriminate.
Defined.

(** A wait with timeout 0 on a fresh stream strategy does subscribe: its
    callback enters the registry and the stream is opened for the inbox,
    before the wait unsubscribes and rejects. *)
Lemma zero_timeout_subscribes_counterexample :
  let s0 := new_SSEStrategy sample_config in
  let sub := subscribe always_constructs "a@x" "h1" Crypto.sample_keypair 7%nat s0 in
  let r := waitForEmail always_constructs "a@x" "h1" Crypto.sample_keypair
                        zero_timeout 7%nat 0 s0 in
  Eff.events_of sub = [Io_open "http://localhost:3000/api/events?inboxes=h1"]
  /\ map_get "a@x" (subscriptions (Eff.state_of sub))
     = Some {| emailAddress := "a@x"; inboxHash := "h1";
               keypair := Crypto.sample_keypair; callbacks := [7%nat] |}
  /\ Eff.events_of r =
     [Io_setWaitTimer 0; Io_open "http://localhost:3000/api/events?inboxes=h1";
      Io_clearWaitTimer 0; Io_close "http://localhost:3000/api/events?inboxes=h1"]
  /\ In (Io_open "http://localhost:3000/api/events?inboxes=h1") (Eff.events_of r)
  /\ exists w, Eff.outcome_of r = Ok w
               /\ settled w = Rejected (TimeoutError
                                          "No matching email received within timeout").
Proof.
  cbv zeta. split; [vm_compute; reflexivity|]. split; [vm_compute; reflexivity|].
  split; [vm_compute; reflexivity|].
  split; [vm_compute; auto|].
  eexists. split; vm_compute; reflexivity.
Qed.

(** C6, in the form the strategy satisfies.  When the reconnection attempts are used up, the
    connection error handler throws [SSEError] where it stands, after it has
    disconnected: it schedules no timer, invokes no callback, leaves the
    registry as it is and records nothing for a later operation.  The error
    therefore escapes from the stream's error handler, and from [connect]
    whenever the stream cannot be constructed. *)
Theorem exhaustion_is_thrown_in_place (R : Runtime) (s : SSEStrategy) :
  isClosing s = false ->
  (maxReconnectAttempts s <= reconnectAttempts s)%Z ->
  eventSource_onerror s = (disconnected s, disconnect_events s, Err exhausted)
  /\ subscriptions (disconnected s) = subscriptions s
  /\ eventSource (disconnected s) = None
  /\ reconnectTimer (disconnected s) = None
  /\ reconnectAttempts (disconnected s) = reconnectAttempts s
  /\ (forall c emailId, ~ In (Io_callback c emailId) (disconnect_events s))
  /\ (hashes s <> [] ->
      EventSource_constructs R (stream_url s) = false ->
      Eff.outcome_of (connect R s) = Err exhausted).
Proof.
  intros Hc Hmax.
  split; [now apply handleConnectionError_exhausted|].
  split; [reflexivity|]. split; [reflexivity|]. split; [reflexivity|].
  split; [reflexivity|].
  split; [intros c emailId; apply disconnect_events_no_callback|].
  intros Hh Hfail. rewrite connect_run, Hc, Hfail.
  destruct (is_empty (subscriptions s)) eqn:He.
  { exfalso. apply Hh. unfold hashes, values. now destruct (subscriptions s). }
  destruct (String.eqb (String.concat "," (hashes s)) "") eqn:Hq.
  { exfalso. apply String.eqb_eq in Hq.
    exact (concat_nonempty Hh (hashes_nonempty s) Hq). }
  cbn [Eff.outcome_of snd]. fold (Eff.outcome_of (handleConnectionError s)).
  now rewrite handleConnectionError_exhausted.
Qed.

Lemma exhaustion_is_thrown_in_place_witness :
  let s1 := Eff.state_of (subscribe always_constructs "a@x" "h1" Crypto.sample_keypair
                                    7%nat (new_SSEStrategy no_retry_config)) in
  Eff.outcome_of (eventSource_onerror s1) = Err exhausted
  /\ subscriptions (disconnected s1) = subscriptions s1.
Proof.
  intros s1.
  destruct (@exhaustion_is_thrown_in_place always_constructs s1) as (H1 & H2 & _).
  - reflexivity.
  - vm_compute. discriminate.
  - split; [now rewrite H1 | exact H2].
Defined.

(** With no reconnection attempt allowed, a wait is pending on an open
    stream when the stream reports an error: the failure is thrown inside
    the error handler, the promise of the wait is not rejected by it and its
    callback stays registered; the caller hears of nothing until the wait's
    own timer rejects it with [TimeoutError], and the next [subscribe]
    returns normally. *)
Lemma exhaustion_not_delivered_counterexample :
  let R := always_constructs in
  let s0 := new_SSEStrategy no_retry_config in
  let w := waitForEmail R "a@x" "h1" Crypto.sample_keypair no_options 7%nat 0 s0 in
  let s1 := Eff.state_of w in
  let handler := eventSource_onerror s1 in
  let s2 := Eff.state_of handler in
  exists wt,
    Eff.outcome_of w = Ok wt
    /\ settled wt = Pending
    /\ Eff.outcome_of handler = Err exhausted
    /\ map_get "a@x" (subscriptions s2)
       = Some {| emailAddress := "a@x"; inboxHash := "h1";
                 keypair := Crypto.sample_keypair; callbacks := [7%nat] |}
    /\ (forall c emailId, ~ In (Io_callback c emailId) (Eff.events_of handler))
    /\ (exists wt', Eff.outcome_of (wait_timer_fires R wt s2) = Ok wt'
                    /\ settled wt' = Rejected (TimeoutError
                                                 "No matching email received within timeout"))
    /\ Eff.outcome_of (subscribe R "b@x" "h2" Crypto.sample_keypair 8%nat s2)
       = Ok ("b@x", 8%nat).
Proof.
  cbv zeta. eexists.
  split; [vm_compute; reflexivity|].
  split; [reflexivity|].
  split; [vm_compute; reflexivity|].
  split; [vm_compute; reflexivity|].
  split.
  { intros c emailId. vm_compute. intros [H|[]]. discriminate. }
  split.
  { eexists. split; vm_compute; reflexivity. }
  vm_compute. reflexivity.
Qed.

(** An instance: two inboxes, the first unsubscribes. *)
Lemma stream_follows_registry_witness :
  reachable always_constructs two_inboxes
  /\ stream_events (Eff.events_of (SSE.unsubscribe always_constructs ("a@x", 1%nat)
                                                    two_inboxes))
     = [Io_close "http://localhost:3000/api/events?inboxes=h1,h2";
        Io_open "http://localhost:3000/api/events?inboxes=h2"].
Proof.
  assert (Hr : reachable always_constructs two_inboxes).
  { exists sample_config.
    exists [Subscribe "a@x" "h1" Crypto.sample_keypair 1%nat;
            Subscribe "b@x" "h2" Crypto.sample_keypair 2%nat].
    reflexivity. }
  split; [exact Hr|].
  refine (proj1 (proj2 (proj1 (proj2 (stream_follows_registry always_constructs))
           two_inboxes
           {| es_url := "http://localhost:3000/api/events?inboxes=h1,h2";
              readyState := 0 |}
           "a@x" inbox_a "b@x" inbox_b 1%nat Hr _ _ _ _))).
  - vm_compute. reflexivity.
  - vm_compute. reflexivity.
  - reflexivity.
  - discriminate.
Defined.

End SSEFacts.

(* ================================================================== *)
(** * Part III. Further properties of the code                         *)
(* ================================================================== *)

Module BuffersFacts.
Import Codec Buffers CodecFacts.

Lemma std_chars : all_below 64 std_char_ok = true.
Proof. vm_compute. reflexivity. Qed.

Lemma std_char (n : N) : (n < 64)%N -> unbase64 (b64_char n) = Sextet n.
Proof.
  intros Hn.
  pose proof (@all_below_spec 64 std_char_ok std_chars n Hn) as H.
  unfold std_char_ok in H.
  destruct (unbase64 (b64_char n)) as [m| |]; try discriminate.
  apply N.eqb_eq in H. now subst.
Qed.

Lemma ascii_chars : all_below 256 ascii_char_ok = true.
Proof. vm_compute. reflexivity. Qed.

(** The decoder reads the two alphabets alike. *)
Lemma unurl_char_class (ch : ascii) : unbase64 (unurl_char ch) = unbase64 ch.
Proof.
  assert (Hlt : (N_of_ascii ch < N.of_nat 256)%N).
  { pose proof (N_ascii_bounded ch). lia. }
  pose proof (@all_below_spec 256 ascii_char_ok ascii_chars (N_of_ascii ch) Hlt) as H.
  unfold ascii_char_ok in H. rewrite ascii_N_embedding in H.
  destruct (unbase64 (unurl_char ch)) as [a| |], (unbase64 ch) as [b| |];
    try discriminate; try reflexivity.
  apply N.eqb_eq in H. now subst.
Qed.

Lemma of_url_cons (ch : ascii) (s : string) :
  of_url (String ch s) = String (unurl_char ch) (of_url s).
Proof. reflexivity. Qed.

Lemma sextets_of_url (s : string) : sextets (of_url s) = sextets s.
Proof.
  induction s as [|ch s IH]; [reflexivity|].
  rewrite of_url_cons. cbn [sextets]. rewrite unurl_char_class, IH. reflexivity.
Qed.

Lemma sextets_std (n : N) (s : string) :
  (n < 64)%N -> sextets (String (b64_char n) s) = n :: sextets s.
Proof. intros Hn. cbn [sextets]. now rewrite std_char. Qed.

Lemma fromBase64_toBase64 (buf : bytes) : fromBase64 (toBase64 buf) = buf.
Proof.
  unfold fromBase64, toBase64, Buffer_from_base64.
  induction buf as [|x|x y|x y z rest IH] using triples_ind.
  - reflexivity.
  - destruct (byte_facts x) as ((H0 & H1 & _) & E & _).
    cbn [Buffer_toString_base64].
    fold (s0 (Byte.to_N x)). fold (s1_last (Byte.to_N x)).
    rewrite !sextets_std by assumption.
    cbn [sextets unbase64 decode_sextets].
    fold (d0 (s0 (Byte.to_N x)) (s1_last (Byte.to_N x))).
    now rewrite E, byte_of_to_N.
  - destruct (byte_facts x) as ((H0 & _) & _).
    destruct (byte_facts y) as ((_ & _ & H2 & _) & _).
    destruct (byte_pair_facts x y) as ((H1 & _) & E0 & E1 & _).
    cbn [Buffer_toString_base64].
    fold (s0 (Byte.to_N x)). fold (s1 (Byte.to_N x) (Byte.to_N y)).
    fold (s2_last (Byte.to_N y)).
    rewrite !sextets_std by assumption.
    cbn [sextets unbase64 decode_sextets].
    fold (d0 (s0 (Byte.to_N x)) (s1 (Byte.to_N x) (Byte.to_N y))).
    fold (d1 (s1 (Byte.to_N x) (Byte.to_N y)) (s2_last (Byte.to_N y))).
    now rewrite E0, E1, !byte_of_to_N.
  - destruct (byte_facts x) as ((H0 & _) & _).
    destruct (byte_facts z) as ((_ & _ & _ & H3) & _).
    destruct (byte_pair_facts x y) as ((H1 & _) & E0 & _).
    destruct (byte_pair_facts y z) as ((_ & H2) & _ & _ & _ & _ & E2).
    cbn [Buffer_toString_base64].
    fold (s0 (Byte.to_N x)). fold (s1 (Byte.to_N x) (Byte.to_N y)).
    fold (s2 (Byte.to_N y) (Byte.to_N z)). fold (s3 (Byte.to_N z)).
    rewrite !sextets_std by assumption.
    cbn [decode_sextets]. rewrite IH.
    fold (d0 (s0 (Byte.to_N x)) (s1 (Byte.to_N x) (Byte.to_N y))).
    fold (d1 (s1 (Byte.to_N x) (Byte.to_N y)) (s2 (Byte.to_N y) (Byte.to_N z))).
    fold (d2 (s2 (Byte.to_N y) (Byte.to_N z)) (s3 (Byte.to_N z))).
    now rewrite E0, E2, d1_middle, !byte_of_to_N.
Qed.

Lemma fromBase64Url_fromBase64 (s : string) : fromBase64Url s = fromBase64 s.
Proof. rewrite fromBase64Url_decode, sextets_of_url. reflexivity. Qed.

Lemma fromBase64Url_toBase64Url (b : bytes) : fromBase64Url (toBase64Url b) = b.
Proof. rewrite fromBase64Url_decode. apply decode_toBase64Url. Qed.

(** X1.  Standard base64 round trip: decoding with [fromBase64] the text
    that [toBase64] makes of a byte array gives the byte array back, for
    every length, padded or not. *)
Theorem base64_roundtrip (buf : bytes) : fromBase64 (toBase64 buf) = buf.
Proof. apply fromBase64_toBase64. Qed.

(** X2.  The two decoders are one function: on every string, well formed or
    not, [fromBase64Url] and [fromBase64] return the same bytes.  So text
    written by either encoder is read back by either decoder. *)
Theorem decoders_agree (s : string) (b : bytes) :
  fromBase64Url s = fromBase64 s
  /\ fromBase64 (toBase64Url b) = b
  /\ fromBase64Url (toBase64 b) = b.
Proof.
  split; [apply fromBase64Url_fromBase64|]. split.
  - rewrite <- fromBase64Url_fromBase64. apply fromBase64Url_toBase64Url.
  - rewrite fromBase64Url_fromBase64. apply fromBase64_toBase64.
Qed.

Lemma totalLength_from (buffers : list bytes) (n : nat) :
  fold_left (fun sum buf => (sum + List.length buf)%nat) buffers n
  = (n + List.length (List.concat buffers))%nat.
Proof.
  revert n. induction buffers as [|buf rest IH]; intros n; cbn [fold_left List.concat].
  - cbn. lia.
  - rewrite IH, length_app. lia.
Qed.

Lemma totalLength_concat (buffers : list bytes) :
  totalLength buffers = List.length (List.concat buffers).
Proof. unfold totalLength. now rewrite totalLength_from. Qed.

(** Writing at the end of the part filled so far. *)
Lemma typed_set_fresh (filled buf : bytes) (k : nat) :
  typed_set (filled ++ repeat x00 (List.length buf + k)) buf (List.length filled)
  = Ok ((filled ++ buf) ++ repeat x00 k)%list.
Proof.
  unfold typed_set.
  rewrite length_app, repeat_length.
  replace (List.length filled + List.length buf <=?
           List.length filled + (List.length buf + k))%nat with true
    by (symmetry; apply Nat.leb_le; lia).
  rewrite firstn_app, firstn_all, Nat.sub_diag, firstn_O, app_nil_r.
  rewrite skipn_app, skipn_all2 by lia.
  replace (List.length filled + List.length buf - List.length filled)%nat
    with (List.length buf) by lia.
  rewrite repeat_app, skipn_app, skipn_all2 by (rewrite repeat_length; lia).
  rewrite repeat_length, Nat.sub_diag. cbn [skipn app].
  now rewrite <- app_assoc.
Qed.

Lemma concat_loop_fills (buffers : list bytes) (filled : bytes) :
  concat_loop buffers (filled ++ repeat x00 (List.length (List.concat buffers)))
              (List.length filled)
  = Ok (filled ++ List.concat buffers)%list.
Proof.
  revert filled. induction buffers as [|buf rest IH]; intros filled.
  - cbn. reflexivity.
  - cbn [concat_loop List.concat]. rewrite length_app, typed_set_fresh.
    rewrite <- length_app, IH. now rewrite <- app_assoc.
Qed.

(** X3.  The loop of [concatBuffers], which writes each buffer into a
    zeroed array of the total length at a running offset, never writes out
    of bounds and returns the buffers one after the other; the length of
    the result is the sum of the lengths. *)
Theorem concatBuffers_loop_concatenates (buffers : list bytes) :
  concatBuffers_loop buffers = Ok (concatBuffers buffers)
  /\ List.length (concatBuffers buffers)
     = list_sum (map (@List.length byte) buffers).
Proof.
  split.
  - unfold concatBuffers_loop. rewrite totalLength_concat.
    exact (concat_loop_fills buffers []).
  - unfold concatBuffers. induction buffers as [|buf rest IH]; [reflexivity|].
    cbn [List.concat map list_sum]. now rewrite length_app, IH.
Qed.

Lemma contents_copy_of (a : Uint8Array) : contents (copy_of a) = contents a.
Proof. unfold copy_of, contents at 1. cbn. apply firstn_all. Qed.

(** X4.  [ensureOwnBuffer] on a typed array that is a window on a larger
    buffer: the result shows the same bytes, starts at offset 0 of a buffer
    that holds these bytes and nothing else, and a second call returns it
    unchanged. *)
Theorem ensureOwnBuffer_view_owned (a : Uint8Array) :
  contents (ensureOwnBuffer_view a) = ensureOwnBuffer (contents a)
  /\ owned (ensureOwnBuffer_view a)
  /\ buffer (ensureOwnBuffer_view a) = contents a
  /\ ensureOwnBuffer_view (ensureOwnBuffer_view a) = ensureOwnBuffer_view a.
Proof.
  assert (Hown : forall b, owned b -> ensureOwnBuffer_view b = b).
  { intros b [H0 H1]. unfold ensureOwnBuffer_view.
    rewrite H0, H1, !Nat.eqb_refl. reflexivity. }
  assert (Hres : owned (ensureOwnBuffer_view a)).
  { unfold ensureOwnBuffer_view.
    destruct (Nat.eqb (byteOffset a) 0) eqn:E0; cbn [negb orb].
    - destruct (Nat.eqb (byteLength a) (List.length (buffer a))) eqn:E1; cbn [negb].
      + split; [now apply Nat.eqb_eq | now apply Nat.eqb_eq].
      + split; reflexivity.
    - split; reflexivity. }
  assert (Hcont : contents (ensureOwnBuffer_view a) = contents a).
  { unfold ensureOwnBuffer_view.
    destruct (_ || _); [apply contents_copy_of | reflexivity]. }
  repeat split.
  - exact Hcont.
  - apply Hres.
  - apply Hres.
  - rewrite <- Hcont. destruct Hres as [H0 H1]. unfold contents.
    rewrite H0, H1. cbn [skipn]. symmetry. apply firstn_all.
  - exact (Hown _ Hres).
Qed.

End BuffersFacts.

Module KeysFacts.
Import Codec Crypto Keys CodecFacts CryptoFacts BuffersFacts.
Local Open Scope string_scope.

Lemma toBase64Url_nonempty (b : bytes) : b <> [] -> toBase64Url b <> EmptyString.
Proof.
  destruct b as [|x [|y [|z rest]]]; intros Hb.
  - congruence.
  - rewrite toBase64Url_one. discriminate.
  - rewrite toBase64Url_two. discriminate.
  - rewrite toBase64Url_group. discriminate.
Qed.

Lemma same_bytes_eq (d p : bytes) :
  List.length d = List.length p -> (same_bytes d p = true <-> d = p).
Proof.
  revert p. induction d as [|x d IH]; intros [|y p] Hlen; try discriminate.
  - split; reflexivity.
  - cbn [same_bytes]. injection Hlen as Hlen.
    destruct (Byte.eqb x y) eqn:E.
    + apply Byte.byte_dec_bl in E. subst y. rewrite (IH p Hlen).
      split; [now intros -> | now intros [= ->]].
    + split; [discriminate|]. intros [= -> _].
      rewrite (Byte.byte_dec_lb eq_refl) in E. discriminate.
Qed.

Lemma validateKeypair_iff (kp : Keypair) :
  validateKeypair kp = true <->
  publicKeyB64 kp <> EmptyString
  /\ List.length (publicKey kp) = PUBLIC_KEY_SIZE
  /\ List.length (secretKey kp) = SECRET_KEY_SIZE
  /\ fromBase64Url (publicKeyB64 kp) = publicKey kp.
Proof.
  unfold validateKeypair.
  destruct (String.eqb (publicKeyB64 kp) EmptyString) eqn:E0.
  { apply String.eqb_eq in E0. split; [discriminate | tauto]. }
  apply String.eqb_neq in E0.
  destruct (Nat.eqb (List.length (publicKey kp)) PUBLIC_KEY_SIZE) eqn:E1; cbn [negb].
  2:{ apply Nat.eqb_neq in E1. split; [discriminate | tauto]. }
  apply Nat.eqb_eq in E1.
  destruct (Nat.eqb (List.length (secretKey kp)) SECRET_KEY_SIZE) eqn:E2; cbn [negb].
  2:{ apply Nat.eqb_neq in E2. split; [discriminate | tauto]. }
  apply Nat.eqb_eq in E2.
  destruct (Nat.eqb (List.length (fromBase64Url (publicKeyB64 kp)))
                    (List.length (publicKey kp))) eqn:E3; cbn [negb].
  2:{ apply Nat.eqb_neq in E3. split; [discriminate|].
      intros (_ & _ & _ & H). rewrite H in E3. congruence. }
  apply Nat.eqb_eq in E3. rewrite (same_bytes_eq _ _ E3). tauto.
Qed.

(** X5.  [validateKeypair] accepts a keypair exactly when its base64url
    text is not empty, its public key has 1184 bytes, its secret key has
    2400 bytes and the text decodes to the public key, byte for byte. *)
Theorem validateKeypair_accepts (kp : Keypair) :
  validateKeypair kp = true <->
  publicKeyB64 kp <> EmptyString
  /\ List.length (publicKey kp) = 1184%nat
  /\ List.length (secretKey kp) = 2400%nat
  /\ fromBase64Url (publicKeyB64 kp) = publicKey kp.
Proof. apply validateKeypair_iff. Qed.

(** X6.  A keypair as [generateKeypair] assembles it from a key
    generation that returns keys of the ML-KEM-768 sizes passes
    [validateKeypair], and its base64url text decodes to its public key. *)
Theorem generated_keypair_validates (keygen : bytes * bytes) :
  List.length (fst keygen) = PUBLIC_KEY_SIZE ->
  List.length (snd keygen) = SECRET_KEY_SIZE ->
  validateKeypair (generateKeypair keygen) = true
  /\ fromBase64Url (publicKeyB64 (generateKeypair keygen)) = fst keygen.
Proof.
  intros Hpk Hsk. split; [|apply fromBase64Url_toBase64Url].
  apply validateKeypair_iff. cbn [generateKeypair publicKeyB64 publicKey secretKey].
  repeat split; try assumption.
  - apply toBase64Url_nonempty. intros E. rewrite E in Hpk. discriminate.
  - apply fromBase64Url_toBase64Url.
Qed.

Lemma generated_keypair_validates_witness :
  validateKeypair (generateKeypair (repeat x00 1184, repeat x01 2400)) = true
  /\ fromBase64Url (publicKeyB64 (generateKeypair (repeat x00 1184, repeat x01 2400)))
     = repeat x00 1184.
Proof.
  apply (generated_keypair_validates (repeat x00 1184, repeat x01 2400));
    vm_compute; reflexivity.
Defined.

(** X7.  [derivePublicKeyFromSecret] returns the last 1184 bytes of a
    secret key of 2400 bytes, and throws [DecryptionError] for every other
    length. *)
Theorem derivePublicKeyFromSecret_tail (secretKey : bytes) :
  match derivePublicKeyFromSecret secretKey with
  | Ok pk =>
      List.length secretKey = 2400%nat
      /\ List.length pk = 1184%nat
      /\ exists front, secretKey = (front ++ pk)%list
                       /\ List.length front = 1216%nat
  | Err e =>
      List.length secretKey <> 2400%nat
      /\ exists m, e = DecryptionError m
  end.
Proof.
  unfold derivePublicKeyFromSecret.
  destruct (Nat.eqb (List.length secretKey) SECRET_KEY_SIZE) eqn:E; cbn [negb].
  - apply Nat.eqb_eq in E. split; [exact E|]. rewrite E. split.
    + rewrite length_skipn, E. reflexivity.
    + exists (firstn (SECRET_KEY_SIZE - PUBLIC_KEY_SIZE) secretKey). split.
      * symmetry. apply firstn_skipn.
      * rewrite length_firstn, E. reflexivity.
  - apply Nat.eqb_neq in E. split; [exact E | eauto].
Qed.

Local Opaque fromBase64Url.

Section WithPrimitives.
Variable P : Primitives.

(** X8.  [verifySignatureSafe] never throws: it returns true when the
    signature of the envelope verifies against the transcript of the
    envelope's own fields and false in every other case, a field that
    cannot be decoded and an exception of the primitive included; it makes
    the calls [verifySignature] makes, at most one. *)
Theorem verifySignatureSafe_total (e : EncryptedData) :
  run (verifySignatureSafe P e)
  = (fst (run (verifySignature P e)), Ok (signature_verifies P e))
  /\ (List.length (fst (run (verifySignatureSafe P e))) <= 1)%nat.
Proof.
  assert (H : run (verifySignatureSafe P e)
              = (fst (run (verifySignature P e)), Ok (signature_verifies P e))).
  { pose proof (verifySignature_run P e) as Hr.
    unfold run, verifySignatureSafe, Eff.try_catch, Eff.events_of, Eff.outcome_of in *.
    unfold signature_verifies.
    destruct (verifySignature P e tt) as [[s t] r]. cbn [fst snd] in *.
    destruct (spec_decode e) as [d|].
    - destruct (ml_dsa65_verify P (d_sig d) (spec_transcript P e d) (d_serverSigPk d))
        as [[|]|err]; injection Hr as -> ->; cbn; try reflexivity.
      destruct err; reflexivity.
    - injection Hr as -> ->. reflexivity. }
  split; [exact H|].
  rewrite H. cbn [fst]. rewrite verifySignature_run.
  destruct (spec_decode e); cbn; lia.
Qed.

Lemma decrypt_errors (e : EncryptedData) (kp : Keypair) (err : exn) :
  snd (run (decrypt P e kp)) = Err err -> crypto_error err = true.
Proof.
  unfold run, decrypt, Eff.try_catch, Eff.outcome_of.
  match goal with
  | |- context [match ?m tt with _ => _ end] => destruct (m tt) as [[s t] [a|x]]
  end.
  - discriminate.
  - destruct x; cbn; intros [= <-]; reflexivity.
Qed.

(** An envelope that verifies, with primitives that succeed: the whole
    run of [decrypt]. *)
Lemma decrypt_run_success (e : EncryptedData) (kp : Keypair) (d : Decoded)
      (ss salt : bytes) (bk : CryptoKey) (okm : bytes) (ak : CryptoKey) (pt : bytes) :
  spec_decode e = Some d ->
  ml_dsa65_verify P (d_sig d) (spec_transcript P e d) (d_serverSigPk d) = Ok true ->
  ml_kem768_decapsulate P (d_ctKem d) (secretKey kp) = Ok ss ->
  subtle_digest P "SHA-256" (d_ctKem d) = Ok salt ->
  subtle_importKey P "raw" ss "HKDF" ["deriveBits"] = Ok bk ->
  subtle_deriveBits P
    {| hkdf_name := "HKDF"; hkdf_hash := "SHA-512"; hkdf_salt := salt;
       hkdf_info := spec_info P HKDF_CONTEXT (d_aad d) |} bk 256 = Ok okm ->
  subtle_importKey P "raw" okm "AES-GCM" ["decrypt"] = Ok ak ->
  subtle_decrypt P
    {| gcm_name := "AES-GCM"; gcm_iv := d_nonce d;
       gcm_additionalData := d_aad d; gcm_tagLength := 128 |} ak (d_ciphertext d)
  = Ok pt ->
  decrypt P e kp tt =
  (tt,
   [ Call_verify (d_sig d) (spec_transcript P e d) (d_serverSigPk d);
     Call_decapsulate (d_ctKem d) (secretKey kp);
     Call_digest "SHA-256" (d_ctKem d);
     Call_importKey "raw" ss "HKDF" ["deriveBits"];
     Call_deriveBits
       {| hkdf_name := "HKDF"; hkdf_hash := "SHA-512"; hkdf_salt := salt;
          hkdf_info := spec_info P HKDF_CONTEXT (d_aad d) |} bk 256;
     Call_importKey "raw" okm "AES-GCM" ["decrypt"];
     Call_decrypt
       {| gcm_name := "AES-GCM"; gcm_iv := d_nonce d;
          gcm_additionalData := d_aad d; gcm_tagLength := 128 |} ak (d_ciphertext d) ],
   Ok pt).
Proof.
  intros Hd Hv Hk Hs Hb Ho Ha Hp.
  pose proof (verifySignature_run P e) as Hr. rewrite Hd, Hv in Hr.
  unfold run, Eff.events_of, Eff.outcome_of in Hr.
  unfold decrypt, Eff.try_catch, Eff.bind.
  destruct (verifySignature P e tt) as [[[] t] r]. cbn [fst snd] in Hr.
  injection Hr as -> ->.
  unfold spec_decode in Hd.
  destruct (signature e), (ct_kem e) as [ck|], (nonce e) as [n|], (aad e) as [a|],
    (ciphertext e) as [c|], (server_sig_pk e); try discriminate.
  injection Hd as <-.
  cbn [d_ctKem d_nonce d_aad d_ciphertext d_sig d_serverSigPk] in *.
  unfold decode_field, Eff.ret, decapsulate, Eff.emit, Eff.lift, Eff.bind,
    ensureOwnBuffer.
  rewrite Hk.
  unfold deriveKey, digest, importKey, deriveBits, aes_decrypt, Eff.bind, Eff.emit,
    Eff.lift, Eff.ret, ensureOwnBuffer.
  rewrite Hs, Hb.
  unfold spec_info in Ho. unfold concatBuffers. cbn [List.concat].
  rewrite app_nil_r. rewrite Ho, Ha, Hp.
  reflexivity.
Qed.

Variable J : Type.
Variable T : TextPrimitives J.

Lemma decryptMetadata_errors (e : EncryptedData) (kp : Keypair) (err : exn) :
  snd (run (decryptMetadata P T e kp)) = Err err -> crypto_error err = true.
Proof.
  pose proof (@decrypt_errors e kp) as Hd.
  unfold run, decryptMetadata, Eff.bind, Eff.try_catch, Eff.lift, Eff.throw,
    Eff.outcome_of in *.
  destruct (decrypt P e kp tt) as [[s t] [pt|x]]; cbn [snd] in *.
  - destruct (JSON_parse T (TextDecoder_decode T pt)); cbn [snd].
    + discriminate.
    + now intros [= <-].
  - intros [= <-]. now apply Hd.
Qed.

Lemma decryptRaw_errors (e : EncryptedData) (kp : Keypair) (err : exn) :
  snd (run (decryptRaw P T e kp)) = Err err -> crypto_error err = true.
Proof.
  pose proof (@decrypt_errors e kp) as Hd.
  unfold run, decryptRaw, Eff.bind, Eff.try_catch, Eff.ret, Eff.outcome_of in *.
  destruct (decrypt P e kp tt) as [[s t] [pt|x]]; cbn [snd] in *.
  - discriminate.
  - intros [= <-]. now apply Hd.
Qed.

Lemma decryptMetadata_follows_decrypt (e : EncryptedData) (kp : Keypair) :
  fst (run (decryptMetadata P T e kp)) = fst (run (decrypt P e kp))
  /\ (forall j, snd (run (decryptMetadata P T e kp)) = Ok j ->
                exists pt, snd (run (decrypt P e kp)) = Ok pt)
  /\ (forall x, snd (run (decrypt P e kp)) = Err x ->
                snd (run (decryptMetadata P T e kp)) = Err x).
Proof.
  unfold run, decryptMetadata, Eff.bind, Eff.try_catch, Eff.lift, Eff.throw,
    Eff.events_of, Eff.outcome_of.
  destruct (decrypt P e kp tt) as [[s t] [pt|x]]; cbn [fst snd].
  - destruct (JSON_parse T (TextDecoder_decode T pt)); cbn [fst snd];
      rewrite ?app_nil_r; (split; [reflexivity | split; [eauto | discriminate]]).
  - split; [reflexivity | split; [discriminate | intros ? [= <-]; reflexivity]].
Qed.

(** X9.  Whatever the envelope, the keypair and the primitives do,
    [decrypt], [decryptMetadata], [decryptParsed] and [decryptRaw] fail
    with [SignatureVerificationError] or [DecryptionError] and with no
    other error: an exception of a primitive or of the JSON parser never
    reaches the caller as it is. *)
Theorem crypto_layer_errors (e : EncryptedData) (kp : Keypair) :
  match snd (run (decrypt P e kp)) with
  | Ok _ => True
  | Err err => crypto_error err = true
  end
  /\ match snd (run (decryptMetadata P T e kp)) with
     | Ok _ => True
     | Err err => crypto_error err = true
     end
  /\ match snd (run (decryptParsed P T e kp)) with
     | Ok _ => True
     | Err err => crypto_error err = true
     end
  /\ match snd (run (decryptRaw P T e kp)) with
     | Ok _ => True
     | Err err => crypto_error err = true
     end.
Proof.
  repeat split.
  - destruct (snd (run (decrypt P e kp))) eqn:E; [exact I | exact (decrypt_errors _ _ E)].
  - destruct (snd (run (decryptMetadata P T e kp))) eqn:E;
      [exact I | exact (decryptMetadata_errors _ _ E)].
  - unfold decryptParsed.
    destruct (snd (run (decryptMetadata P T e kp))) eqn:E;
      [exact I | exact (decryptMetadata_errors _ _ E)].
  - destruct (snd (run (decryptRaw P T e kp))) eqn:E;
      [exact I | exact (decryptRaw_errors _ _ E)].
Qed.

(** X10.  The whole of a successful decryption.  For an envelope whose
    signature verifies, when every primitive succeeds, [decrypt] makes
    seven calls in this order: the verification, the decapsulation of the
    KEM ciphertext with the recipient's secret key, the SHA-256 digest of
    the KEM ciphertext, the import of the shared secret, the HKDF
    derivation salted with that digest, the import of the derived key and
    the AES-GCM decryption of the ciphertext with the nonce as IV, the
    additional data and a 128-bit tag; it returns the plaintext of that
    last call.  [decryptMetadata] then parses the decoded plaintext, a
    parse error becoming a [DecryptionError], and [decryptRaw] decodes the
    plaintext as base64 text. *)
Theorem decrypt_composes (e : EncryptedData) (kp : Keypair) (d : Decoded)
        (ss salt : bytes) (bk : CryptoKey) (okm : bytes) (ak : CryptoKey) (pt : bytes) :
  spec_decode e = Some d ->
  ml_dsa65_verify P (d_sig d) (spec_transcript P e d) (d_serverSigPk d) = Ok true ->
  ml_kem768_decapsulate P (d_ctKem d) (secretKey kp) = Ok ss ->
  subtle_digest P "SHA-256" (d_ctKem d) = Ok salt ->
  subtle_importKey P "raw" ss "HKDF" ["deriveBits"] = Ok bk ->
  subtle_deriveBits P
    {| hkdf_name := "HKDF"; hkdf_hash := "SHA-512"; hkdf_salt := salt;
       hkdf_info := spec_info P HKDF_CONTEXT (d_aad d) |} bk 256 = Ok okm ->
  subtle_importKey P "raw" okm "AES-GCM" ["decrypt"] = Ok ak ->
  subtle_decrypt P
    {| gcm_name := "AES-GCM"; gcm_iv := d_nonce d;
       gcm_additionalData := d_aad d; gcm_tagLength := 128 |} ak (d_ciphertext d)
  = Ok pt ->
  run (decrypt P e kp) =
  ([ Call_verify (d_sig d) (spec_transcript P e d) (d_serverSigPk d);
     Call_decapsulate (d_ctKem d) (secretKey kp);
     Call_digest "SHA-256" (d_ctKem d);
     Call_importKey "raw" ss "HKDF" ["deriveBits"];
     Call_deriveBits
       {| hkdf_name := "HKDF"; hkdf_hash := "SHA-512"; hkdf_salt := salt;
          hkdf_info := spec_info P HKDF_CONTEXT (d_aad d) |} bk 256;
     Call_importKey "raw" okm "AES-GCM" ["decrypt"];
     Call_decrypt
       {| gcm_name := "AES-GCM"; gcm_iv := d_nonce d;
          gcm_additionalData := d_aad d; gcm_tagLength := 128 |} ak (d_ciphertext d) ],
   Ok pt)
  /\ snd (run (decryptMetadata P T e kp)) =
     match JSON_parse T (TextDecoder_decode T pt) with
     | Ok j => Ok j
     | Err x => Err (DecryptionError
                       ("Failed to parse decrypted metadata: " ++ message_of x))
     end
  /\ snd (run (decryptRaw P T e kp))
     = Ok (TextDecoder_decode T (fromBase64 (TextDecoder_decode T pt))).
Proof.
  intros Hd Hv Hk Hs Hb Ho Ha Hp.
  pose proof (decrypt_run_success e kp Hd Hv Hk Hs Hb Ho Ha Hp) as Hrun.
  split; [|split].
  - unfold run, Eff.events_of, Eff.outcome_of. now rewrite Hrun.
  - unfold run, decryptMetadata, Eff.bind, Eff.try_catch, Eff.lift, Eff.throw,
      Eff.outcome_of. rewrite Hrun.
    now destruct (JSON_parse T (TextDecoder_decode T pt)).
  - unfold run, decryptRaw, Eff.bind, Eff.try_catch, Eff.ret, Eff.outcome_of.
    now rewrite Hrun.
Qed.

End WithPrimitives.

Lemma decrypt_composes_witness :
  snd (run (decrypt accepting sample_envelope sample_keypair))
  = Ok (fromBase64Url "CQoL")
  /\ snd (run (decryptRaw accepting ascii_text sample_envelope sample_keypair))
     = Ok (string_of_list_byte
             (fromBase64 (string_of_list_byte (fromBase64Url "CQoL")))).
Proof.
  refine (let H := @decrypt_composes accepting string ascii_text sample_envelope
                     sample_keypair
                     {| d_sig := fromBase64Url "DA0O"; d_ctKem := fromBase64Url "AAEC";
                        d_nonce := fromBase64Url "AwQF"; d_aad := fromBase64Url "BgcI";
                        d_ciphertext := fromBase64Url "CQoL";
                        d_serverSigPk := fromBase64Url "DxAR" |}
                     (repeat x00 32) (repeat x00 32)
                     {| key_format := "raw"; key_data := repeat x00 32;
                        key_algorithm := "HKDF"; key_usages := ["deriveBits"] |}
                     (repeat x00 32)
                     {| key_format := "raw"; key_data := repeat x00 32;
                        key_algorithm := "AES-GCM"; key_usages := ["decrypt"] |}
                     (fromBase64Url "CQoL") _ _ _ _ _ _ _ _ in
          conj (f_equal snd (proj1 H)) (proj2 (proj2 H)));
    reflexivity.
Defined.

End KeysFacts.

Module EffFacts.

Lemma bind_assoc {St Ev A B C} (m : Eff.M St Ev A) (f : A -> Eff.M St Ev B)
      (k : B -> Eff.M St Ev C) (s : St) :
  Eff.bind (Eff.bind m f) k s = Eff.bind m (fun a => Eff.bind (f a) k) s.
Proof.
  unfold Eff.bind. destruct (m s) as [[s1 t1] [a|e]]; [|reflexivity].
  destruct (f a s1) as [[s2 t2] [b|e]]; [|reflexivity].
  destruct (k b s2) as [[s3 t3] r]. now rewrite app_assoc.
Qed.

Lemma bind_ret {St Ev A B} (a : A) (k : A -> Eff.M St Ev B) (s : St) :
  Eff.bind (Eff.ret a) k s = k a s.
Proof. unfold Eff.bind, Eff.ret. now destruct (k a s) as [[s2 t2] r]. Qed.

(** What a sequence does, by the outcome of its first part. *)
Lemma bind_run {St Ev A B} (m : Eff.M St Ev A) (k : A -> Eff.M St Ev B) (s : St) :
  Eff.bind m k s =
  match Eff.outcome_of (m s) with
  | Ok a =>
      (Eff.state_of (k a (Eff.state_of (m s))),
       (Eff.events_of (m s) ++ Eff.events_of (k a (Eff.state_of (m s))))%list,
       Eff.outcome_of (k a (Eff.state_of (m s))))
  | Err e => (Eff.state_of (m s), Eff.events_of (m s), Err e)
  end.
Proof.
  unfold Eff.bind, Eff.state_of, Eff.events_of, Eff.outcome_of.
  destruct (m s) as [[s1 t1] [a|e]]; cbn [fst snd]; [|reflexivity].
  now destruct (k a s1) as [[s2 t2] r].
Qed.

End EffFacts.

Module EmailUtilsFacts.
Import Codec Crypto Keys Mail EmailUtils CodecFacts CryptoFacts KeysFacts EffFacts.
Local Open Scope string_scope.
Local Opaque fromBase64Url.

Section WithPrimitives.
Variable P : Primitives.

Lemma verifySignature_no_decapsulation (e : EncryptedData) :
  decapsulations (fst (run (verifySignature P e))) = [].
Proof.
  rewrite verifySignature_run. destruct (spec_decode e); reflexivity.
Qed.

(** [decrypt] decapsulates what the envelope is entitled to, and nothing
    else. *)
Lemma decrypt_decapsulations (e : EncryptedData) (kp : Keypair) :
  decapsulations (fst (run (decrypt P e kp))) = entitled P e kp
  /\ (forall pt, snd (run (decrypt P e kp)) = Ok pt -> signature_verifies P e = true)
  /\ (signature_verifies P e = false ->
      exists m, snd (run (decrypt P e kp)) = Err (SignatureVerificationError m)).
Proof.
  unfold entitled.
  destruct (signature_verifies P e) eqn:Hv;
    destruct (verifySignature_outcome P e) as [Hiff Hrej].
  - apply Hiff in Hv.
    assert (exists d, spec_decode e = Some d) as [d Hd].
    { rewrite verifySignature_run in Hv. destruct (spec_decode e); [eauto | discriminate]. }
    destruct (decrypt_run_accepted P e kp Hd Hv) as (rest & Hev & Hrest).
    rewrite Hd. split; [|split; [reflexivity | discriminate]].
    rewrite Hev. unfold decapsulations. rewrite filter_app.
    fold (decapsulations (fst (run (verifySignature P e)))).
    rewrite verifySignature_no_decapsulation. cbn [app filter is_decapsulate].
    f_equal. clear Hev. induction rest as [|c rest IH]; [reflexivity|].
    cbn [forallb] in Hrest. apply andb_true_iff in Hrest. destruct Hrest as [Hc Hr].
    cbn [filter]. destruct (is_decapsulate c); [discriminate | now apply IH].
  - destruct (Hrej Hv) as [m Hm].
    rewrite (decrypt_run_rejected P e kp Hm). cbn [fst snd].
    split; [apply verifySignature_no_decapsulation|].
    split; [discriminate | eauto].
Qed.

End WithPrimitives.

Lemma crypto_calls_app (l1 l2 : list io) :
  crypto_calls (l1 ++ l2) = (crypto_calls l1 ++ crypto_calls l2)%list.
Proof. unfold crypto_calls. apply flat_map_app. Qed.

Lemma crypto_calls_crypto (l : list call) : crypto_calls (map Io_crypto l) = l.
Proof. induction l as [|c l IH]; [reflexivity|]. cbn. now f_equal. Qed.

Lemma bind_crypto {A B} (m : Crypto.M A) (k : A -> EmailUtils.M B) (s : unit) :
  Eff.bind (crypto m) k s =
  match snd (run m) with
  | Ok a => (fst (fst (k a s)), (map Io_crypto (fst (run m)) ++ snd (fst (k a s)))%list,
             snd (k a s))
  | Err e => (s, map Io_crypto (fst (run m)), Err e)
  end.
Proof.
  unfold Eff.bind, crypto, run. cbn [fst snd].
  destruct (Eff.outcome_of (m tt)); [|reflexivity].
  now destruct (k a s) as [[s2 t2] r].
Qed.

Section Decrypting.
Variable P : Primitives.
Variable TM : TextPrimitives DecryptedMetadata.
Variable TP : TextPrimitives DecryptedParsed.
Variable apiClient_getEmail : string -> string -> result EmailData.

(** The part of [decryptEmailData] that follows the fetch. *)
Lemma decrypt_part (full : EmailData) (kp : Keypair) :
  let r := (_ <- crypto (verifySignature P (encryptedMetadata full)) ;;
  metadata <- crypto (decryptMetadata P TM (encryptedMetadata full) kp) ;;
  parsed <- match encryptedParsed full with
            | Some ep =>
                _ <- crypto (verifySignature P ep) ;;
                parsed <- crypto (decryptParsed P TP ep kp) ;;
                Eff.ret (Some match attachments parsed with
                              | Some l => {| attachments := Some (map decode_attachment l) |}
                              | None => parsed
                              end)
            | None => Eff.ret None
            end ;;
  Eff.ret (new_Email full metadata parsed))%eff tt in
  let meta := encryptedMetadata full in
  (exists l, snd (fst r) = map Io_crypto l)
  /\ (signature_verifies P meta = false ->
      decapsulations (crypto_calls (snd (fst r))) = []
      /\ exists m, snd r = Err (SignatureVerificationError m))
  /\ (forall c, In c (decapsulations (crypto_calls (snd (fst r)))) ->
        signature_verifies P meta = true
        /\ (In c (entitled P meta kp)
            \/ exists ep, encryptedParsed full = Some ep /\ In c (entitled P ep kp)))
  /\ (forall email, snd r = Ok email ->
        signature_verifies P meta = true
        /\ (forall ep, encryptedParsed full = Some ep -> signature_verifies P ep = true)
        /\ id (as_IEmail email) = ed_id full).
Proof.
  intros r meta. subst r. fold meta.
  rewrite bind_crypto.
  destruct (verifySignature_outcome P meta) as [Hiff Hrej].
  pose proof (verifySignature_no_decapsulation P meta) as Hnd.
  destruct (snd (run (verifySignature P meta))) as [b|x] eqn:Hvs.
  2:{ cbn [fst snd]. rewrite crypto_calls_crypto, Hnd.
      assert (Hf : signature_verifies P meta = false).
      { destruct (signature_verifies P meta); [|reflexivity].
        destruct Hiff as [_ Hiff]. specialize (Hiff eq_refl). discriminate. }
      destruct (Hrej Hf) as [m [= ->]].
      split; [eauto|]. split; [eauto|]. split; [intros c []|]. discriminate. }
  assert (Hv : signature_verifies P meta = true).
  { destruct (signature_verifies P meta) eqn:E; [reflexivity|].
    destruct (Hrej eq_refl) as [m Hm]. discriminate. }
  clear Hiff Hrej.
  rewrite bind_crypto.
  destruct (decryptMetadata_follows_decrypt P TM meta kp) as (Hev & Hok & Herr).
  destruct (decrypt_decapsulations P meta kp) as (Hdec & _ & _).
  rewrite <- Hev in Hdec.
  destruct (snd (run (decryptMetadata P TM meta kp))) as [metadata|x] eqn:Hdm.
  2:{ cbn [fst snd]. rewrite <- map_app, crypto_calls_crypto.
      unfold decapsulations at 1 2. rewrite filter_app.
      fold (decapsulations (fst (run (verifySignature P meta)))).
      fold (decapsulations (fst (run (decryptMetadata P TM meta kp)))).
      rewrite Hnd, Hdec. cbn [app].
      split; [eauto|]. split; [congruence|]. split; [auto|]. discriminate. }
  destruct (encryptedParsed full) as [ep|] eqn:Hep.
  2:{ cbn [Eff.bind Eff.ret fst snd]. unfold Eff.bind, Eff.ret. cbn [fst snd app].
      rewrite app_nil_r, <- map_app, crypto_calls_crypto.
      unfold decapsulations at 1 2. rewrite filter_app.
      fold (decapsulations (fst (run (verifySignature P meta)))).
      fold (decapsulations (fst (run (decryptMetadata P TM meta kp)))).
      rewrite Hnd, Hdec. cbn [app].
      split; [eauto|]. split; [congruence|]. split; [auto|].
      intros email [= <-]. split; [exact Hv|]. split; [discriminate | reflexivity]. }
  rewrite bind_assoc, bind_crypto.
  destruct (verifySignature_outcome P ep) as [Hiff' Hrej'].
  pose proof (verifySignature_no_decapsulation P ep) as Hnd'.
  destruct (snd (run (verifySignature P ep))) as [b'|x] eqn:Hvs2.
  2:{ cbn [fst snd]. rewrite <- !map_app, crypto_calls_crypto.
      unfold decapsulations at 1 2. rewrite !filter_app.
      fold (decapsulations (fst (run (verifySignature P meta)))).
      fold (decapsulations (fst (run (decryptMetadata P TM meta kp)))).
      fold (decapsulations (fst (run (verifySignature P ep)))).
      rewrite Hnd, Hdec, Hnd', app_nil_r. cbn [app].
      split; [eauto|]. split; [congruence|]. split; [auto|]. discriminate. }
  assert (Hv' : signature_verifies P ep = true).
  { destruct (signature_verifies P ep) eqn:E; [reflexivity|].
    destruct (Hrej' eq_refl) as [m Hm]. discriminate. }
  rewrite bind_assoc, bind_crypto.
  destruct (decryptMetadata_follows_decrypt P TP ep kp) as (Hev' & Hok' & Herr').
  destruct (decrypt_decapsulations P ep kp) as (Hdec' & _ & _).
  rewrite <- Hev' in Hdec'. unfold decryptParsed.
  assert (Hall : forall c,
             In c (decapsulations
                     (fst (run (verifySignature P meta))
                        ++ fst (run (decryptMetadata P TM meta kp))
                        ++ fst (run (verifySignature P ep))
                        ++ fst (run (decryptMetadata P TP ep kp)))) ->
             signature_verifies P meta = true
             /\ (In c (entitled P meta kp)
                 \/ exists ep0, Some ep = Some ep0 /\ In c (entitled P ep0 kp))).
  { intros c. unfold decapsulations at 1. rewrite !filter_app.
    fold (decapsulations (fst (run (verifySignature P meta)))).
    fold (decapsulations (fst (run (decryptMetadata P TM meta kp)))).
    fold (decapsulations (fst (run (verifySignature P ep)))).
    fold (decapsulations (fst (run (decryptMetadata P TP ep kp)))).
    rewrite Hnd, Hdec, Hnd', Hdec'. cbn [app]. rewrite in_app_iff.
    intros [H|H]; (split; [exact Hv|]); [left; exact H | right; eauto]. }
  destruct (snd (run (decryptMetadata P TP ep kp))) as [parsed|x] eqn:Hdp.
  - unfold Eff.ret. cbn [fst snd app].
    rewrite !app_nil_r, <- !map_app, crypto_calls_crypto.
    split; [eauto|]. split; [congruence|]. split; [exact Hall|].
    intros email [= <-]. split; [exact Hv|]. split; [|reflexivity].
    now intros ep0 [= <-].
  - cbn [fst snd app]. rewrite <- !map_app, crypto_calls_crypto.
    split; [eauto|]. split; [congruence|]. split; [exact Hall|]. discriminate.
Qed.

Lemma bind_getEmail {B} (a i : string) (k : EmailData -> EmailUtils.M B) (s : unit) :
  Eff.bind (getEmail apiClient_getEmail a i) k s =
  match apiClient_getEmail a i with
  | Ok full => (fst (fst (k full s)), Io_getEmail a i :: snd (fst (k full s)), snd (k full s))
  | Err x => (s, [Io_getEmail a i], Err x)
  end.
Proof.
  unfold getEmail, Eff.bind, Eff.emit, Eff.lift.
  destruct (apiClient_getEmail a i) as [full|x]; [|reflexivity].
  now destruct (k full s) as [[s2 t2] r].
Qed.

(** X11.  [decryptEmailData] decapsulates nothing that was not verified.
    It fetches the full email exactly when the data it was given carries no
    parsed content, and a failed fetch ends the call with the error of the
    fetch.  Then every other call is a call into the crypto layer; if the
    signature of the metadata envelope does not verify, the call fails with
    [SignatureVerificationError] and no decapsulation is made; every
    decapsulation made is the one of an envelope of this email whose
    signature verifies, with the recipient's secret key, and follows the
    verification of the metadata; and an email is returned only if the
    metadata envelope and, when present, the parsed envelope both verify,
    and it carries the identifier of the data decrypted. *)
Theorem decryptEmailData_verifies_first (emailData : EmailData) (kp : Keypair)
        (emailAddress : string) :
  let r := decryptEmailData P TM TP apiClient_getEmail emailData kp emailAddress tt in
  match fullEmailData apiClient_getEmail emailData emailAddress with
  | Err x => r = (tt, fetches emailData emailAddress, Err x)
  | Ok full =>
      let meta := encryptedMetadata full in
      (exists l, Eff.events_of r = (fetches emailData emailAddress ++ map Io_crypto l)%list)
      /\ (signature_verifies P meta = false ->
          decapsulations (crypto_calls (Eff.events_of r)) = []
          /\ exists m, Eff.outcome_of r = Err (SignatureVerificationError m))
      /\ (forall c, In c (decapsulations (crypto_calls (Eff.events_of r))) ->
            signature_verifies P meta = true
            /\ (In c (entitled P meta kp)
                \/ exists ep, encryptedParsed full = Some ep /\ In c (entitled P ep kp)))
      /\ (forall email, Eff.outcome_of r = Ok email ->
            signature_verifies P meta = true
            /\ (forall ep, encryptedParsed full = Some ep -> signature_verifies P ep = true)
            /\ id (as_IEmail email) = ed_id full)
  end.
Proof.
  intros r. subst r. unfold decryptEmailData, fullEmailData, fetches,
    Eff.events_of, Eff.outcome_of.
  destruct (encryptedParsed emailData) as [ep0|] eqn:Hep0.
  - rewrite bind_ret. cbn [app]. exact (decrypt_part emailData kp).
  - rewrite bind_getEmail.
    destruct (apiClient_getEmail emailAddress (ed_id emailData)) as [full|x];
      [|reflexivity].
    cbn [fst snd app crypto_calls flat_map].
    destruct (decrypt_part full kp) as ((l & Hl) & H1 & H2 & H3).
    split; [exists l; now rewrite Hl|].
    split; [exact H1|]. split; [exact H2 | exact H3].
Qed.

Lemma decryptEmails_cons (emailData : EmailData) (rest : list EmailData) (kp : Keypair)
      (emailAddress : string) :
  let one := decryptEmailData P TM TP apiClient_getEmail emailData kp emailAddress tt in
  decryptEmails P TM TP apiClient_getEmail (emailData :: rest) kp emailAddress tt =
  match Eff.outcome_of one with
  | Err x => (tt, Eff.events_of one, Err x)
  | Ok email =>
      let r := decryptEmails P TM TP apiClient_getEmail rest kp emailAddress tt in
      (tt, (Eff.events_of one ++ Eff.events_of r)%list,
       match Eff.outcome_of r with
       | Ok emails => Ok (email :: emails)
       | Err x => Err x
       end)
  end.
Proof.
  intros one. cbn [decryptEmails]. rewrite bind_run. fold one.
  destruct (Eff.outcome_of one) as [email|x].
  2:{ now destruct (Eff.state_of one). }
  destruct (Eff.state_of one).
  cbv zeta. rewrite bind_run.
  destruct (decryptEmails P TM TP apiClient_getEmail rest kp emailAddress tt)
    as [[[] evs] [emails|x]]; cbn; now rewrite ?app_nil_r.
Qed.

(** X12.  [decryptEmails], the loop behind [listEmails] and the polling
    wait, is all or nothing.  When every email decrypts, it returns as many
    emails as it was given, in the same order.  When one fails, the loop
    stops there with the error of that email: the calls made are those for
    the emails before it and for it, nothing is done for the emails after
    it, and no email is returned. *)
Theorem decryptEmails_stops_at_first_failure (before : list EmailData)
        (emailData : EmailData) (rest : list EmailData) (kp : Keypair)
        (emailAddress : string) (x : exn) :
  Forall (fun ed => exists email,
              Eff.outcome_of (decryptEmailData P TM TP apiClient_getEmail ed kp
                                               emailAddress tt) = Ok email) before ->
  Eff.outcome_of (decryptEmailData P TM TP apiClient_getEmail emailData kp
                                   emailAddress tt) = Err x ->
  (exists emails,
      Eff.outcome_of (decryptEmails P TM TP apiClient_getEmail before kp emailAddress tt)
      = Ok emails
      /\ List.length emails = List.length before)
  /\ decryptEmails P TM TP apiClient_getEmail (before ++ emailData :: rest) kp
                   emailAddress tt
     = (tt,
        (Eff.events_of (decryptEmails P TM TP apiClient_getEmail before kp emailAddress tt)
           ++ Eff.events_of (decryptEmailData P TM TP apiClient_getEmail emailData kp
                                              emailAddress tt))%list,
        Err x).
Proof.
  intros Hbefore Hfail. induction Hbefore as [|ed before [email Hed] Hbefore IH].
  - split; [exists []; split; reflexivity|].
    cbn [app]. rewrite decryptEmails_cons. cbv zeta. rewrite Hfail. reflexivity.
  - destruct IH as [(emails & Hok & Hlen) IH]. split.
    + exists (email :: emails). rewrite decryptEmails_cons. cbv zeta. rewrite Hed, Hok.
      split; [reflexivity | cbn; now rewrite Hlen].
    + cbn [app]. rewrite !decryptEmails_cons. cbv zeta. rewrite Hed, Hok, IH.
      cbn [Eff.events_of Eff.outcome_of fst snd]. now rewrite app_assoc.
Qed.

End Decrypting.

Lemma decryptEmails_stops_at_first_failure_witness :
  decryptEmails rejecting no_metadata no_parsed (fun _ _ => Ok sample_email)
                ([] ++ sample_email :: [sample_email]) sample_keypair "a@x" tt
  = (tt,
     [Io_crypto (Call_verify (fromBase64Url "DA0O")
                             (spec_transcript rejecting sample_envelope
                                {| d_sig := fromBase64Url "DA0O";
                                   d_ctKem := fromBase64Url "AAEC";
                                   d_nonce := fromBase64Url "AwQF";
                                   d_aad := fromBase64Url "BgcI";
                                   d_ciphertext := fromBase64Url "CQoL";
                                   d_serverSigPk := fromBase64Url "DxAR" |})
                             (fromBase64Url "DxAR"))],
     Err (SignatureVerificationError
            "SIGNATURE VERIFICATION FAILED - Data may be tampered!")).
Proof.
  refine (proj2 (@decryptEmails_stops_at_first_failure rejecting no_metadata no_parsed
                   (fun _ _ => Ok sample_email) [] sample_email [sample_email]
                   sample_keypair "a@x"
                   (SignatureVerificationError
                      "SIGNATURE VERIFICATION FAILED - Data may be tampered!") _ _)).
  - constructor.
  - reflexivity.
Defined.

End EmailUtilsFacts.

Module MailFacts.
Import Mail Filters.
Local Open Scope string_scope.

Lemma prefix_split (p s : string) :
  prefix p s = true <-> exists post, s = p ++ post.
Proof.
  revert s. induction p as [|a p IH]; intros s.
  - destruct s; cbn; split; eauto.
  - destruct s as [|b s]; cbn [prefix].
    + split; [discriminate | intros [post H]; discriminate].
    + destruct (ascii_dec a b) as [->|Hne].
      * rewrite IH. split; intros [post H]; exists post; cbn;
          [now rewrite H | now injection H].
      * split; [discriminate | intros [post H]; cbn in H; congruence].
Qed.

Lemma index_zero_found (n h : string) :
  (exists k, index 0 n h = Some k) <-> exists pre post, h = pre ++ n ++ post.
Proof.
  induction h as [|b h IH].
  - cbn [index]. destruct n as [|a n].
    + split; [exists EmptyString, EmptyString; reflexivity | eauto].
    + split; [intros [k H]; discriminate|].
      intros (pre & post & H). destruct pre; discriminate.
  - cbn [index].
    destruct (prefix n (String b h)) eqn:Ep.
    + split; [|eauto]. intros _. apply prefix_split in Ep. destruct Ep as [post H].
      exists EmptyString, post. exact H.
    + assert (Hnp : ~ exists post, String b h = n ++ post).
      { intros H. apply prefix_split in H. congruence. }
      split.
      * intros [k H]. destruct (index 0 n h) as [k'|] eqn:Ei; [|discriminate].
        destruct IH as [IH _]. destruct (IH (ex_intro _ k' eq_refl)) as (pre & post & ->).
        exists (String b pre), post. reflexivity.
      * intros (pre & post & H). destruct pre as [|c pre].
        -- exfalso. apply Hnp. exists post. exact H.
        -- cbn in H. injection H as -> ->.
           destruct IH as [_ IH].
           destruct (IH (ex_intro _ pre (ex_intro _ post eq_refl))) as [k ->].
           eauto.
Qed.

Lemma includes_substring (haystack needle : string) :
  includes haystack needle = true <-> exists pre post, haystack = pre ++ needle ++ post.
Proof.
  unfold includes. rewrite <- index_zero_found.
  destruct (index 0 needle haystack) as [k|]; split; eauto; try discriminate.
  intros [k H]. discriminate.
Qed.

Lemma passes_accepts (m : option matcher) (text : string) (h h' : heap) :
  passes m text h = (h', Ok true) <-> accepts m text h h'.
Proof.
  destruct m as [[s|test]|]; cbn [passes accepts].
  - destruct s as [|a s].
    + split.
      * intros [= <-]. split; [reflexivity|]. exists EmptyString, text. reflexivity.
      * intros [-> _]. reflexivity.
    + rewrite <- includes_substring. split.
      * intros [= <- ->]. now split.
      * intros [-> ->]. reflexivity.
  - reflexivity.
  - split; [now intros [= <-] | now intros ->].
Qed.

(** X13.  [findMatchingEmail] tests the emails in order, each with the
    caller's objects as the test before left them, and stops at the first
    email on which the filters answer true, which it returns, or throw,
    which it lets through; the emails before that one were all answered
    false.  It returns null when the filters answered false on every email
    of the list.  The objects are left as the last test left them. *)
Theorem findMatchingEmail_first (emails : list IEmail) (options : WaitOptions)
        (h : heap) :
  match findMatchingEmail emails options h with
  | (h', Ok (Some email)) =>
      exists before after h1,
        emails = (before ++ email :: after)%list
        /\ rejects before options h h1
        /\ matchesFilters email options h1 = (h', Ok true)
  | (h', Ok None) => rejects emails options h h'
  | (h', Err error) =>
      exists before email after h1,
        emails = (before ++ email :: after)%list
        /\ rejects before options h h1
        /\ matchesFilters email options h1 = (h', Err error)
  end.
Proof.
  revert h. induction emails as [|e rest IH]; intros h; cbn [findMatchingEmail].
  - reflexivity.
  - destruct (matchesFilters e options h) as [h1 [[|]|err]] eqn:E.
    + exists [], rest, h. repeat split. exact E.
    + specialize (IH h1).
      destruct (findMatchingEmail rest options h1) as [h' [[email|]|err]].
      * destruct IH as (before & after & h2 & -> & Hb & Hm).
        exists (e :: before), after, h2. split; [reflexivity|]. split; [|exact Hm].
        cbn [rejects]. now exists h1.
      * cbn [rejects]. now exists h1.
      * destruct IH as (before & email & after & h2 & -> & Hb & Hm).
        exists (e :: before), email, after, h2. split; [reflexivity|].
        split; [|exact Hm]. cbn [rejects]. now exists h1.
    + exists [], e, rest, h. repeat split. exact E.
Qed.

(** With the filters [{subject: /Reset/g, from: 'boss@'}] and a fresh
    regular expression, the second of the two emails is accepted when it is
    tested alone and is not found after the first: the test of the first
    subject has moved [lastIndex] past the place where the second subject
    matches. *)
Example findMatchingEmail_after_a_global_match :
  snd (findMatchingEmail [reset_from_boss] reset_filters fresh_heap)
  = Ok (Some reset_from_boss)
  /\ snd (findMatchingEmail [reset_from_peer; reset_from_boss] reset_filters fresh_heap)
     = Ok None.
Proof. split; vm_compute; reflexivity. Qed.

(** X14.  What the filters mean.  [matchesFilters] answers true exactly
    when the subject filter lets the subject pass, then the sender filter
    the sender, then the predicate, if there is one, returns true, each
    finding the caller's objects as the one before left them.  An absent
    filter lets every text pass; a string filter lets a text pass when the
    string occurs in it as a substring (so the empty string filters nothing
    out) and touches no object; a regular expression when its [test]
    answers true. *)
Theorem matchesFilters_meaning (email : IEmail) (options : WaitOptions) (h h' : heap) :
  matchesFilters email options h = (h', Ok true) <->
  exists h1 h2,
    accepts (subject_filter options) (subject email) h h1
    /\ accepts (from_filter options) (from email) h1 h2
    /\ match predicate options with
       | Some p => p email h2 = (h', Ok true)
       | None => h' = h2
       end.
Proof.
  unfold matchesFilters. split.
  - destruct (passes (subject_filter options) (subject email) h) as [h1 [[|]|e1]] eqn:E1;
      try discriminate.
    destruct (passes (from_filter options) (from email) h1) as [h2 [[|]|e2]] eqn:E2;
      try discriminate.
    intros H. exists h1, h2.
    split; [now apply passes_accepts|]. split; [now apply passes_accepts|].
    destruct (predicate options) as [p|]; [exact H | now injection H].
  - intros (h1 & h2 & A1 & A2 & Hp).
    apply passes_accepts in A1, A2. rewrite A1, A2.
    destruct (predicate options) as [p|]; [exact Hp | now subst].
Qed.

(** The same email, the same filter, three answers: a regular expression
    with the [g] flag remembers where its last match ended.  Without the
    flag the answer is the same each time. *)
Example matchesFilters_global_regexp :
  let options test := {| timeout := None; pollInterval := None;
                         subject_filter := Some (MatchRegExp test);
                         from_filter := None; predicate := None |} in
  let first := matchesFilters reset_from_boss (options (literal_g 0 "Reset")) fresh_heap in
  let second := matchesFilters reset_from_boss (options (literal_g 0 "Reset")) (fst first) in
  let third := matchesFilters reset_from_boss (options (literal_g 0 "Reset")) (fst second) in
  snd first = Ok true /\ snd second = Ok false /\ snd third = Ok true
  /\ forall h, matchesFilters reset_from_boss (options (literal "Reset")) h = (h, Ok true).
Proof. repeat split; vm_compute; reflexivity. Qed.

Lemma findMatchingEmail_some (l : list IEmail) (options : WaitOptions) (e : IEmail)
      (h h' : heap) :
  findMatchingEmail l options h = (h', Ok (Some e)) ->
  In e l /\ exists h1, matchesFilters e options h1 = (h', Ok true).
Proof.
  revert h. induction l as [|x l IH]; intros h; cbn [findMatchingEmail]; [discriminate|].
  destruct (matchesFilters x options h) as [h1 [[|]|err]] eqn:E; [| |discriminate].
  - intros [= <- <-]. split; [now left | now exists h].
  - intros H. destruct (IH _ H) as [Hin Hm]. split; [now right | exact Hm].
Qed.

Lemma findMatchingEmail_throws (l : list IEmail) (options : WaitOptions) (err : exn)
      (h h' : heap) :
  findMatchingEmail l options h = (h', Err err) ->
  exists e h1, In e l /\ matchesFilters e options h1 = (h', Err err).
Proof.
  revert h. induction l as [|x l IH]; intros h; cbn [findMatchingEmail]; [discriminate|].
  destruct (matchesFilters x options h) as [h1 [[|]|err1]] eqn:E; [discriminate| |].
  - intros H. destruct (IH _ H) as (e & h2 & Hin & Hm). exists e, h2.
    split; [now right | exact Hm].
  - intros [= <- <-]. exists x, h. split; [now left | exact E].
Qed.

End MailFacts.

Module PollingWaitFacts.
Import Mail Polling PollingFacts PollingRuns MailFacts.
Local Open Scope string_scope.
Local Open Scope Q_scope.

Section Wait.
Variable this : PollingStrategy.
Variable options : WaitOptions.

Lemma on_error_never_404 (err : exn) : statusCode_of (on_error err) <> Some 404%Z.
Proof.
  unfold on_error. destruct err; cbn; try discriminate.
  destruct statusCode as [|p|p]; try (cbn; congruence).
  destruct (Pos.eq_dec p 404) as [->|Hne]; [cbn; discriminate|].
  assert (H : forall A (a b : A), match p with 404%positive => a | _ => b end = b).
  { intros A a b.
    do 9 (destruct p as [p|p|]; try reflexivity). congruence. }
  rewrite H. cbn. congruence.
Qed.

Lemma sleep_and_back_off_done (tk : tick) (ss : SyncStatus) (st : state)
      (evs : list io) (o : outcome) (h : heap) :
  sleep_and_back_off this options tk ss st = (evs, Done o h) ->
  evs = [] /\ o = Thrown timeout_error /\ h = objects st.
Proof.
  unfold sleep_and_back_off. destruct (Qle_bool _ _); [|discriminate].
  now intros [= <- <- <-].
Qed.

Lemma iteration_done (tk : tick) (st : state) (evs : list io) (o : outcome) (h : heap) :
  iteration this options tk st = (evs, Done o h) -> explained options [tk] o.
Proof.
  unfold iteration.
  assert (Hto : explained options [tk] (Thrown timeout_error)).
  { split; [discriminate | now left]. }
  assert (Herr : forall err, (sync tk = Err err \/ emails tk = Err err) ->
                             explained options [tk] (Thrown (on_error err))).
  { intros err H. split; [apply on_error_never_404|].
    right. left. exists tk, err. split; [now left | split; [exact H | reflexivity]]. }
  destruct (sync tk) as [ss|err] eqn:Hs.
  2:{ intros [= <- <- <-]. apply Herr. now left. }
  destruct (hash_changed _ _).
  - destruct (0 <? emailCount ss)%Z.
    + destruct (emails tk) as [l|err] eqn:He.
      2:{ intros [= <- <- <-]. apply Herr. now right. }
      destruct (findMatchingEmail l options (meanwhile tk (objects st))) as [h1 [[e|]|err]] eqn:Hf.
      * intros [= <- <- <-]. apply findMatchingEmail_some in Hf.
        destruct Hf as [Hin [h0 Hm]].
        exists tk, l, h0, h1. split; [now left|]. split; [exact He|].
        split; [exact Hin | exact Hm].
      * destruct (sleep_and_back_off _ _ _ _ _) as [evs0 r] eqn:Hsl.
        intros [= <- ->]. apply sleep_and_back_off_done in Hsl.
        destruct Hsl as (_ & -> & _). exact Hto.
      * intros [= <- <- <-]. apply findMatchingEmail_throws in Hf.
        destruct Hf as (e & h0 & Hin & Hm).
        split; [apply on_error_never_404|]. right. right.
        exists tk, l, e, h0, h1, err. split; [now left|]. split; [exact He|].
        split; [exact Hin|]. split; [exact Hm | reflexivity].
    + destruct (sleep_and_back_off _ _ _ _ _) as [evs0 r] eqn:Hsl.
      intros [= <- ->]. apply sleep_and_back_off_done in Hsl.
      destruct Hsl as (_ & -> & _). exact Hto.
  - destruct (sleep_and_back_off _ _ _ _ _) as [evs0 r] eqn:Hsl.
    intros [= <- ->]. apply sleep_and_back_off_done in Hsl.
    destruct Hsl as (_ & -> & _). exact Hto.
Qed.

Lemma explained_weaken (tk : tick) (script : list tick) (o : outcome) :
  explained options [tk] o \/ explained options script o -> explained options (tk :: script) o.
Proof.
  assert (Hin1 : forall tk', In tk' [tk] -> In tk' (tk :: script)).
  { intros tk' [<-|[]]. now left. }
  assert (Hin2 : forall tk', In tk' script -> In tk' (tk :: script)).
  { intros tk' H. now right. }
  destruct o as [e|x|]; cbn [explained]; [| |tauto].
  - intros [(tk' & l & h & h' & Hin & H)|(tk' & l & h & h' & Hin & H)];
      exists tk', l, h, h'; (split; [auto | exact H]).
  - intros [(Hs & H)|(Hs & H)]; (split; [exact Hs|]);
      (destruct H as [->|[(tk' & err & Hin & H)|(tk' & l & e & h & h' & err & Hin & H)]];
       [now left
       | right; left; exists tk', err; split; [auto | exact H]
       | right; right; exists tk', l, e, h, h', err; split; [auto | exact H]]).
Qed.

Lemma loop_explained (script : list tick) (st : state) :
  explained options script (result_of (loop this options script st)).
Proof.
  unfold result_of.
  revert st. induction script as [|tk rest IH]; intros st; cbn [loop].
  - destruct (Qlt_bool _ _); cbn; [exact I|]. split; [discriminate | now left].
  - destruct (Qlt_bool _ _).
    2:{ cbn. split; [discriminate | now left]. }
    destruct (iteration this options tk st) as [evs [o h|st']] eqn:Hi.
    + cbn [fst snd]. apply explained_weaken. left. exact (iteration_done _ _ Hi).
    + specialize (IH st'). destruct (loop this options rest st') as [[evs' o] h].
      cbn [fst snd] in *. apply explained_weaken. now right.
Qed.

(** X15.  Where the result of a polling wait comes from.  An email that
    [waitForEmail] returns was in a list the strategy fetched, and the
    filters of the wait answered true on it.  An error it throws is the
    timeout error, or what the [catch] block makes of an error of one of its
    calls or of an error the filters threw on an email of a fetched list; it
    never carries the status code 404, which the [catch] block turns into
    [InboxNotFoundError]. *)
Theorem polling_wait_outcome (h0 : heap) (script : list tick) :
  match result_of (waitForEmail this options h0 script) with
  | Returned e =>
      exists tk l h h',
        In tk script /\ emails tk = Ok l /\ In e l
        /\ matchesFilters e options h = (h', Ok true)
  | Thrown x =>
      statusCode_of x <> Some 404%Z
      /\ (x = TimeoutError "No matching email received within timeout"
          \/ (exists tk err, In tk script /\ (sync tk = Err err \/ emails tk = Err err)
                             /\ x = on_error err)
          \/ (exists tk l e h h' err,
                 In tk script /\ emails tk = Ok l /\ In e l
                 /\ matchesFilters e options h = (h', Err err)
                 /\ x = on_error err))
  | Waiting => True
  end.
Proof. exact (loop_explained script (initial this options h0)). Qed.


Lemma iteration_done_ended (tk : tick) (st : state) (evs : list io) (o : outcome)
      (h : heap) :
  iteration this options tk st = (evs, Done o h) -> ended o = true.
Proof.
  unfold iteration.
  destruct (sync tk) as [ss|err]; [|now intros [= <- <- <-]].
  assert (Hsl : forall st0 evs0 r evs1,
             sleep_and_back_off this options tk ss st0 = (evs0, r) ->
             (evs1, r) = (evs, Done o h) -> ended o = true).
  { intros st0 evs0 r evs1 H [= _ ->]. apply sleep_and_back_off_done in H.
    destruct H as (_ & -> & _). reflexivity. }
  destruct (hash_changed _ _).
  - destruct (0 <? emailCount ss)%Z.
    + destruct (emails tk) as [l|err]; [|now intros [= <- <- <-]].
      destruct (findMatchingEmail l options (meanwhile tk (objects st))) as [h1 [[e|]|err]];
        [now intros [= <- <- <-]| |now intros [= <- <- <-]].
      destruct (sleep_and_back_off _ _ _ _ _) as [evs0 r] eqn:H. eapply Hsl, H.
    + destruct (sleep_and_back_off _ _ _ _ _) as [evs0 r] eqn:H. eapply Hsl, H.
  - destruct (sleep_and_back_off _ _ _ _ _) as [evs0 r] eqn:H. eapply Hsl, H.
Qed.

(** One pass that goes on moves the clock by the floor interval at least,
    or past the deadline. *)
Lemma iteration_progress (tk : tick) (st st' : state) (evs : list io) :
  tick_ok tk ->
  0 <= jitterFactor this -> 1 <= backoffMultiplier this ->
  0 < floor_interval this options ->
  floor_interval this options <= currentBackoff st ->
  iteration this options tk st = (evs, Next st') ->
  floor_interval this options <= currentBackoff st'
  /\ (elapsed st + floor_interval this options <= elapsed st'
      \/ the_timeout options <= elapsed st').
Proof.
  intros (Hl & Hr & Ho) Hj Hm Hpos Hcb Hi.
  destruct (sync tk) as [ss|err] eqn:Hs.
  2:{ unfold iteration in Hi. rewrite Hs in Hi. discriminate. }
  destruct (iteration_next _ _ _ _ Hs Hi) as (Hrem & _ & He & _ & Hb).
  cbv zeta in Hrem, He, Hb.
  set (interval := interval_of this options (emailsHash ss) st) in *.
  assert (Hint : floor_interval this options <= interval).
  { unfold interval, interval_of. destruct (hash_changed _ _); [|exact Hcb].
    unfold floor_interval. apply Q.le_min_l. }
  assert (Hfm : floor_interval this options <= maxBackoff this).
  { unfold floor_interval. apply Q.le_min_r. }
  set (d := floor_interval this options) in *.
  clearbody interval d.
  assert (Hjit : 0 <= random tk * jitterFactor this * interval).
  { apply Qmult_le_0_compat; [apply Qmult_le_0_compat; assumption|]. lra. }
  split.
  - rewrite Hb.
    destruct (Qmin_cases (interval * backoffMultiplier this) (maxBackoff this))
      as [[E _]|[E _]]; rewrite E; [|exact Hfm].
    assert (0 <= interval * (backoffMultiplier this - 1)).
    { apply Qmult_le_0_compat; lra. }
    lra.
  - rewrite He.
    set (remaining := the_timeout options - (elapsed st + latency tk)) in *.
    set (j := random tk * jitterFactor this * interval) in *.
    assert (Hremeq : remaining == the_timeout options - (elapsed st + latency tk))
      by reflexivity.
    clearbody remaining j.
    destruct (Qmin_cases (Qmin (interval + j) (maxBackoff this)) remaining)
      as [[E Hle]|[E Hle]]; rewrite E.
    + left.
      destruct (Qmin_cases (interval + j) (maxBackoff this)) as [[E' _]|[E' _]];
        rewrite E'; lra.
    + right. lra.
Qed.

Lemma loop_ends (script : list tick) (st : state) :
  Forall tick_ok script ->
  0 <= jitterFactor this -> 1 <= backoffMultiplier this ->
  0 < floor_interval this options ->
  floor_interval this options <= currentBackoff st ->
  the_timeout options - elapsed st
  <= inject_Z (Z.of_nat (List.length script)) * floor_interval this options ->
  ended (result_of (loop this options script st)) = true.
Proof.
  intros Hticks Hj Hm Hpos. unfold result_of. revert st.
  induction Hticks as [|tk rest Htk Hrest IH]; intros st Hcb Hn; cbn [loop].
  - destruct (Qlt_bool (elapsed st) (the_timeout options)) eqn:E; [|reflexivity].
    apply Qlt_bool_iff in E.
    change (inject_Z (Z.of_nat (List.length (@nil tick)))) with 0 in Hn. lra.
  - destruct (Qlt_bool (elapsed st) (the_timeout options)) eqn:E; [|reflexivity].
    destruct (iteration this options tk st) as [evs [o h|st']] eqn:Hi.
    + cbn [fst snd]. exact (iteration_done_ended _ _ Hi).
    + destruct (@iteration_progress tk st st' evs Htk Hj Hm Hpos Hcb Hi) as [Hcb' Hprog].
      specialize (IH st' Hcb').
      destruct (loop this options rest st') as [[evs' o] h]. cbn [fst snd] in *.
      apply IH.
      assert (Hlen : inject_Z (Z.of_nat (List.length (tk :: rest)))
                     == inject_Z (Z.of_nat (List.length rest)) + 1).
      { cbn [List.length]. rewrite Nat2Z.inj_succ. unfold Z.succ.
        rewrite inject_Z_plus. reflexivity. }
      rewrite Hlen in Hn.
      assert (0 <= inject_Z (Z.of_nat (List.length rest)) * floor_interval this options).
      { apply Qmult_le_0_compat; [|lra].
        change 0 with (inject_Z 0). rewrite <- Zle_Qle. lia. }
      destruct Hprog as [Hp|Hp]; lra.
Qed.

(** X16.  The polling wait ends.  When the clock does not run backwards,
    [Math.random()] is not negative, the jitter factor is not negative, the
    multiplier is at least 1 and the smaller of the poll interval and the
    maximum backoff is positive, every pass that goes on moves the clock by
    that much at least or past the deadline; so after as many passes as that
    interval fits in the timeout, rounded up, the wait has returned or
    thrown, whatever the server answers. *)
Theorem polling_wait_ends (h : heap) (script : list tick) :
  Forall tick_ok script ->
  0 <= jitterFactor this -> 1 <= backoffMultiplier this ->
  0 < floor_interval this options ->
  the_timeout options
  <= inject_Z (Z.of_nat (List.length script)) * floor_interval this options ->
  ended (result_of (waitForEmail this options h script)) = true.
Proof.
  intros Hticks Hj Hm Hpos Hn. apply loop_ends; try assumption.
  - unfold floor_interval, initial. cbn [currentBackoff]. apply Q.le_min_l.
  - cbn [initial elapsed]. lra.
Qed.

Lemma listings_app (a b : list io) : listings (a ++ b) = (listings a + listings b)%nat.
Proof. unfold listings. now rewrite filter_app, length_app. Qed.

Lemma listings_sleep_and_back_off (tk : tick) (ss : SyncStatus) (st0 : state)
      (evs : list io) (r : step) :
  sleep_and_back_off this options tk ss st0 = (evs, r) ->
  listings evs = 0%nat
  /\ match r with Next st1 => lastHash st1 = lastHash st0 | Done _ _ => True end.
Proof.
  unfold sleep_and_back_off.
  destruct (Qle_bool _ _); intros [= <- <-]; split; reflexivity.
Qed.

Lemma iteration_listings (h : string) (tk : tick) (st : state) (evs : list io) (r : step) :
  (forall ss, sync tk = Ok ss -> emailsHash ss = h) ->
  iteration this options tk st = (evs, r) ->
  (listings evs <= 1)%nat
  /\ (lastHash st = Some h -> listings evs = 0%nat)
  /\ match r with Next st' => lastHash st' = Some h | Done _ _ => True end.
Proof.
  intros Htk. unfold iteration.
  destruct (sync tk) as [ss|err] eqn:Hs.
  2:{ intros [= <- <-]. cbn. repeat split; lia. }
  specialize (Htk ss eq_refl). rewrite Htk.
  assert (Hgo : forall st0 evs0 r0 (pre : list io),
             sleep_and_back_off this options tk ss st0 = (evs0, r0) ->
             lastHash st0 = Some h ->
             listings (pre ++ evs0)%list = listings pre
             /\ match r0 with Next st' => lastHash st' = Some h | Done _ _ => True end).
  { intros st0 evs0 r0 pre H Hl.
    destruct (listings_sleep_and_back_off _ _ _ H) as [Hz Hr].
    rewrite listings_app, Hz. split; [lia|].
    destruct r0; [exact I | congruence]. }
  unfold hash_changed.
  destruct (lastHash st) as [l|] eqn:Hl.
  - destruct (String.eqb h l) eqn:E; cbn [negb].
    + apply String.eqb_eq in E. subst l.
      destruct (sleep_and_back_off _ _ _ _ _) as [evs0 r0] eqn:H.
      intros [= <- <-].
      destruct (Hgo _ _ _ [Io_getSyncStatus] H Hl) as [Hz Hr]. cbn [app] in Hz.
      rewrite Hz. cbn. repeat split; try lia. exact Hr.
    + assert (Hne : Some l <> Some h).
      { intros [= ->]. rewrite String.eqb_refl in E. discriminate. }
      destruct (0 <? emailCount ss)%Z.
      * destruct (emails tk) as [l0|err].
        2:{ intros [= <- <-]. cbn. repeat split; try lia. congruence. }
        destruct (findMatchingEmail l0 options (meanwhile tk (objects st))) as [h1 [[e|]|err]].
        { intros [= <- <-]. cbn. repeat split; try lia. congruence. }
        2:{ intros [= <- <-]. cbn. repeat split; try lia. congruence. }
        destruct (sleep_and_back_off _ _ _ _ _) as [evs0 r0] eqn:H.
        intros [= <- <-].
        destruct (Hgo _ _ _ [Io_getSyncStatus; Io_listEmails] H eq_refl) as [Hz Hr].
        cbn [app] in Hz. rewrite Hz. cbn. repeat split; try lia; [congruence | exact Hr].
      * destruct (sleep_and_back_off _ _ _ _ _) as [evs0 r0] eqn:H.
        intros [= <- <-].
        destruct (Hgo _ _ _ [Io_getSyncStatus] H eq_refl) as [Hz Hr].
        cbn [app] in Hz. rewrite Hz. cbn. repeat split; try lia. exact Hr.
  - destruct (0 <? emailCount ss)%Z.
    + destruct (emails tk) as [l0|err].
      2:{ intros [= <- <-]. cbn. repeat split; try lia. discriminate. }
      destruct (findMatchingEmail l0 options (meanwhile tk (objects st))) as [h1 [[e|]|err]].
      { intros [= <- <-]. cbn. repeat split; try lia. discriminate. }
      2:{ intros [= <- <-]. cbn. repeat split; try lia. discriminate. }
      destruct (sleep_and_back_off _ _ _ _ _) as [evs0 r0] eqn:H.
      intros [= <- <-].
      destruct (Hgo _ _ _ [Io_getSyncStatus; Io_listEmails] H eq_refl) as [Hz Hr].
      cbn [app] in Hz. rewrite Hz. cbn. repeat split; try lia; [discriminate | exact Hr].
    + destruct (sleep_and_back_off _ _ _ _ _) as [evs0 r0] eqn:H.
      intros [= <- <-].
      destruct (Hgo _ _ _ [Io_getSyncStatus] H eq_refl) as [Hz Hr].
      cbn [app] in Hz. rewrite Hz. cbn. repeat split; try lia. exact Hr.
Qed.

(** With the digest known and unchanged, no listing. *)
Lemma loop_same_digest (h : string) (script : list tick) (st : state) :
  Forall (fun tk => forall ss, sync tk = Ok ss -> emailsHash ss = h) script ->
  (listings (calls_of (loop this options script st)) <= 1)%nat
  /\ (lastHash st = Some h -> listings (calls_of (loop this options script st)) = 0%nat).
Proof.
  intros Hall. unfold calls_of. revert st. induction Hall as [|tk rest Htk Hrest IH]; intros st; cbn [loop].
  - destruct (Qlt_bool _ _); cbn; split; intros; lia.
  - destruct (Qlt_bool _ _); [|cbn; split; intros; lia].
    destruct (iteration this options tk st) as [evs r] eqn:Hi.
    destruct (@iteration_listings h tk st evs r Htk Hi) as (H1 & H0 & Hr).
    destruct r as [o ho|st']; cbn [fst]; [split; assumption|].
    destruct (IH st') as [_ IH0]. specialize (IH0 Hr).
    destruct (loop this options rest st') as [[evs' o] ho]. cbn [fst] in *.
    rewrite listings_app, IH0. split; [lia|]. intros Hl. rewrite (H0 Hl). lia.
Qed.

(** X17.  The email list is fetched only when the digest changes: in a
    wait during which the sync status reports the same digest at every
    pass, the list is fetched once at most, however many passes follow. *)
Theorem polling_lists_once_per_digest (h0 : heap) (h : string) (script : list tick) :
  Forall (fun tk => forall ss, sync tk = Ok ss -> emailsHash ss = h) script ->
  (listings (calls_of (waitForEmail this options h0 script)) <= 1)%nat.
Proof.
  intros Hall. exact (proj1 (@loop_same_digest h script (initial this options h0) Hall)).
Qed.

End Wait.

Lemma polling_wait_ends_witness :
  ended (result_of (waitForEmail (new_PollingStrategy default_config) short_wait
                                 fresh_heap [quiet_tick 0; quiet_tick 0])) = true.
Proof.
  apply (@polling_wait_ends (new_PollingStrategy default_config) short_wait
           fresh_heap [quiet_tick 0; quiet_tick 0]).
  - repeat constructor; vm_compute; discriminate.
  - vm_compute. discriminate.
  - vm_compute. discriminate.
  - vm_compute. reflexivity.
  - vm_compute. discriminate.
Defined.

Lemma polling_lists_once_per_digest_witness :
  (listings (calls_of (waitForEmail (new_PollingStrategy default_config)
                                    Filters.reset_filters fresh_heap
                                    [busy_tick; busy_tick; busy_tick])) <= 1)%nat.
Proof.
  apply (@polling_lists_once_per_digest (new_PollingStrategy default_config)
           Filters.reset_filters fresh_heap "h1" [busy_tick; busy_tick; busy_tick]).
  repeat constructor; intros ss [= <-]; reflexivity.
Defined.

(** In that run the list is fetched, once. *)
Example polling_lists_once :
  listings (calls_of (waitForEmail (new_PollingStrategy default_config)
                                   Filters.reset_filters fresh_heap
                                   [busy_tick; busy_tick; busy_tick])) = 1%nat.
Proof. vm_compute. reflexivity. Qed.

End PollingWaitFacts.

Module PollingSubscribeFacts.
Import Mail Polling PollingRuns.
Local Open Scope string_scope.

Lemma delivered_app (a b : list io) : delivered (a ++ b) = (delivered a ++ delivered b)%list.
Proof.
  induction a as [|ev a IH]; [reflexivity|].
  destruct ev; cbn [app delivered]; now rewrite ?IH.
Qed.

Lemma seen_In (s : PollingSubscription) (i : string) :
  seen s i = true <-> In i (seenEmails s).
Proof.
  unfold seen. rewrite existsb_exists. split.
  - intros (x & Hx & E). apply String.eqb_eq in E. now subst.
  - intros H. exists i. split; [exact H | apply String.eqb_refl].
Qed.

Lemma notify_seen (emails : list IEmail) (s : PollingSubscription) :
  let r := notify emails s in
  seenEmails (snd r) = (seenEmails s ++ delivered (fst r))%list
  /\ isActive (snd r) = isActive s
  /\ (NoDup (seenEmails s) -> NoDup (seenEmails (snd r)))
  /\ (forall e, In e emails -> In (id e) (seenEmails (snd r)))
  /\ (forall i, In i (delivered (fst r)) -> exists e, In e emails /\ id e = i).
Proof.
  revert s. induction emails as [|e rest IH]; intros s; cbn [notify].
  - cbn. rewrite app_nil_r.
    split; [reflexivity|]. split; [reflexivity|]. split; [auto|].
    split; [intros e [] | intros i []].
  - destruct (seen s (id e)) eqn:Hs.
    + destruct (IH s) as (H1 & H2 & H3 & H4 & H5).
      split; [exact H1|]. split; [exact H2|]. split; [exact H3|]. split.
      * intros e' [<-|Hin]; [|now apply H4].
        rewrite H1. apply in_or_app. left. now apply seen_In.
      * intros i Hi. destruct (H5 i Hi) as (e' & Hin & E). exists e'. split; [now right | exact E].
    + set (s' := {| isActive := isActive s; seenEmails := (seenEmails s ++ [id e])%list |}).
      destruct (IH s') as (H1 & H2 & H3 & H4 & H5).
      destruct (notify rest s') as [evs s'']. cbn [fst snd delivered] in *.
      split; [|split; [|split; [|split]]].
      * rewrite H1. cbn [s' seenEmails]. now rewrite <- app_assoc.
      * exact H2.
      * intros Hnd. apply H3. cbn [s' seenEmails].
        apply NoDup_app; [exact Hnd | repeat constructor; intros [] |].
        intros x Hx [<-|[]].
        apply seen_In in Hx. congruence.
      * intros e' [<-|Hin]; [|now apply H4].
        rewrite H1. cbn [s' seenEmails]. apply in_or_app. left. apply in_or_app. right.
        now left.
      * intros i [<-|Hi]; [exists e; split; [now left | reflexivity]|].
        destruct (H5 i Hi) as (e' & Hin & E). exists e'. split; [now right | exact E].
Qed.

Lemma poll_round_seen (this : PollingStrategy) (fetched : result (list IEmail))
      (s : PollingSubscription) :
  let r := poll_round this fetched s in
  seenEmails (snd r) = (seenEmails s ++ delivered (fst r))%list
  /\ isActive (snd r) = isActive s
  /\ (NoDup (seenEmails s) -> NoDup (seenEmails (snd r)))
  /\ (isActive s = true ->
      forall emails e, fetched = Ok emails -> In e emails -> In (id e) (seenEmails (snd r)))
  /\ (forall i, In i (delivered (fst r)) ->
                exists emails e, fetched = Ok emails /\ In e emails /\ id e = i).
Proof.
  unfold poll_round. destruct (isActive s) eqn:Ha.
  2:{ cbn. rewrite app_nil_r.
      split; [reflexivity|]. split; [exact Ha|]. split; [auto|].
      split; [discriminate | intros i []]. }
  destruct fetched as [emails|err].
  - destruct (notify_seen emails s) as (H1 & H2 & H3 & H4 & H5).
    destruct (notify emails s) as [evs s']. cbn [fst snd] in *.
    rewrite H2, Ha. cbn [fst snd delivered]. rewrite delivered_app. cbn [delivered].
    rewrite app_nil_r.
    split; [exact H1|]. split; [congruence|]. split; [exact H3|]. split.
    + intros _ emails' e [= <-]. apply H4.
    + intros i Hi. destruct (H5 i Hi) as (e & Hin & E). exists emails, e. auto.
  - rewrite Ha. cbn. rewrite app_nil_r.
    split; [reflexivity|]. split; [exact Ha|]. split; [auto|].
    split; [discriminate | intros i []].
Qed.

Lemma poll_seen (this : PollingStrategy) (fetches : list (result (list IEmail)))
      (s : PollingSubscription) :
  let r := poll this fetches s in
  seenEmails (snd r) = (seenEmails s ++ delivered (fst r))%list
  /\ isActive (snd r) = isActive s
  /\ (NoDup (seenEmails s) -> NoDup (seenEmails (snd r)))
  /\ (isActive s = true ->
      forall emails e, In (Ok emails) fetches -> In e emails ->
                       In (id e) (seenEmails (snd r)))
  /\ (forall i, In i (delivered (fst r)) ->
                exists emails e, In (Ok emails) fetches /\ In e emails /\ id e = i).
Proof.
  revert s. induction fetches as [|fetched rest IH]; intros s; cbn [poll].
  - cbn. rewrite app_nil_r.
    split; [reflexivity|]. split; [reflexivity|]. split; [auto|].
    split; [intros _ emails e [] | intros i []].
  - destruct (poll_round_seen this fetched s) as (H1 & H2 & H3 & H4 & H5).
    destruct (poll_round this fetched s) as [evs s']. cbn [fst snd] in *.
    destruct (IH s') as (I1 & I2 & I3 & I4 & I5).
    destruct (poll this rest s') as [evs' s'']. cbn [fst snd] in *.
    split; [|split; [|split; [|split]]].
    + rewrite I1, H1, delivered_app. now rewrite app_assoc.
    + congruence.
    + auto.
    + intros Ha emails e [->|Hin] He.
      * rewrite I1. apply in_or_app. left. now apply (H4 Ha emails e).
      * apply (I4 (eq_trans I2 (eq_trans H2 Ha) ) emails e Hin He) || apply (I4 (eq_trans H2 Ha) emails e Hin He).
    + intros i Hi. rewrite delivered_app in Hi. apply in_app_or in Hi.
      destruct Hi as [Hi|Hi].
      * destruct (H5 i Hi) as (emails & e & -> & Hin & E).
        exists emails, e. split; [now left | auto].
      * destruct (I5 i Hi) as (emails & e & Hf & Hin & E).
        exists emails, e. split; [now right | auto].
Qed.

(** X18.  The polling subscription delivers each email once.  Over any
    number of rounds of the [poll] loop, whatever the fetches return and
    whichever of them fail, no identifier is handed to the callback twice,
    the identifier of every email of a list that was fetched is handed to
    it, and nothing is handed to it that was not fetched. *)
Theorem polling_subscription_delivers_once (this : PollingStrategy)
        (fetches : list (result (list IEmail))) :
  let r := poll this fetches new_subscription in
  NoDup (delivered (fst r))
  /\ (forall emails e, In (Ok emails) fetches -> In e emails ->
                       In (id e) (delivered (fst r)))
  /\ (forall i, In i (delivered (fst r)) ->
                exists emails e, In (Ok emails) fetches /\ In e emails /\ id e = i).
Proof.
  intros r.
  destruct (poll_seen this fetches new_subscription) as (H1 & H2 & H3 & H4 & H5).
  fold r in H1, H2, H3, H4, H5. cbn [new_subscription seenEmails isActive app] in *.
  split; [rewrite <- H1; apply H3; constructor|].
  split; [rewrite <- H1; apply H4; reflexivity | exact H5].
Qed.

End PollingSubscribeFacts.

Module SSERunFacts.
Import Mail SSE SSEFacts SSERuns.
Local Open Scope string_scope.

Section WithRuntime.
Variable R : Runtime.

Lemma onmessage_run (parsed : result SSEMessageData) (decrypted : result IEmail)
      (s : SSEStrategy) :
  eventSource_onmessage parsed decrypted s = (s, deliveries parsed decrypted s, Ok tt).
Proof.
  unfold eventSource_onmessage, handleMessage, deliveries, Eff.try_catch, Eff.bind,
    Eff.lift, Eff.get, Eff.throw, Eff.ret.
  destruct parsed as [m|e]; [|reflexivity].
  destruct (find _ _) as [sub|]; [|now destruct decrypted].
  destruct decrypted as [email|e]; [|reflexivity].
  rewrite notify_run. cbn. now rewrite ?app_nil_r.
Qed.


Lemma closed_disconnect (s : SSEStrategy) :
  closed s -> disconnected s = s /\ disconnect_events s = [].
Proof.
  intros (Hc & He & Ht). unfold disconnected, disconnect_events.
  rewrite He, Ht. split; [|reflexivity].
  destruct s; cbn in *. now subst.
Qed.

Lemma closed_connect (s : SSEStrategy) : closed s -> connect R s = (s, [], Ok tt).
Proof. intros (Hc & _). rewrite connect_run, Hc. reflexivity. Qed.

Lemma closed_set_subscriptions (m : list (string * InboxSubscription)) (s : SSEStrategy) :
  closed s -> closed (set_subscriptions m s).
Proof. intros H. exact H. Qed.

Lemma closed_perform (a : action) (s : SSEStrategy) :
  closed s ->
  closed (Eff.state_of (perform R a s))
  /\ forallb is_callback (Eff.events_of (perform R a s)) = true.
Proof.
  intros Hc. destruct a as [e h k c|[e c]| | | | |p d]; cbn [perform].
  - unfold Eff.bind. rewrite subscribe_run. cbv zeta.
    destruct Hc as (Hc & He & Ht). rewrite He.
    rewrite (@closed_connect (set_subscriptions _ s)) by (repeat split; assumption).
    cbn. split; [exact (conj Hc (conj He Ht)) | reflexivity].
  - rewrite unsubscribe_run.
    destruct (map_get e (subscriptions s)) as [sub|]; [|now split].
    cbv zeta. destruct (is_empty (set_delete c (callbacks sub))); [|now split].
    match goal with
    | |- context [is_empty (subscriptions ?s2)] =>
        assert (Hc2 : closed s2) by exact Hc;
        destruct (is_empty (subscriptions s2))
    end.
    + rewrite disconnect_run.
      destruct (closed_disconnect Hc2) as [-> ->]. now split.
    + rewrite reconnect_run.
      destruct (closed_disconnect Hc2) as [-> ->].
      rewrite (closed_connect Hc2). now split.
  - unfold close, Eff.bind, Eff.modify. rewrite disconnect_run.
    destruct Hc as (Hc & He & Ht).
    unfold disconnect_events, disconnected. cbn. rewrite He, Ht. cbn.
    repeat split; reflexivity.
  - unfold eventSource_onopen, Eff.bind, Eff.modify. cbn.
    destruct Hc as (Hc & He & Ht). rewrite He. split; [exact (conj Hc (conj He Ht)) | reflexivity].
  - unfold eventSource_onerror. rewrite handleConnectionError_run.
    destruct Hc as (Hc & He & Ht). rewrite Hc. split; [exact (conj Hc (conj He Ht)) | reflexivity].
  - unfold reconnectTimer_fires, Eff.bind, Eff.get.
    destruct Hc as (Hc & He & Ht). rewrite Ht. split; [exact (conj Hc (conj He Ht)) | reflexivity].
  - rewrite onmessage_run. split; [exact Hc|].
    cbn [Eff.events_of fst snd]. unfold deliveries.
    destruct p as [m|]; [|reflexivity]. destruct d as [email|]; [|reflexivity].
    destruct (find _ _) as [sub|]; [|reflexivity].
    induction (callbacks sub) as [|c l IH]; [reflexivity | exact IH].
Qed.

Lemma closed_trace (actions : list action) (s : SSEStrategy) :
  closed s ->
  closed (after R actions s) /\ forallb is_callback (trace R actions s) = true.
Proof.
  revert s. induction actions as [|a rest IH]; intros s Hc; cbn [after trace].
  - now split.
  - destruct (closed_perform a Hc) as [Hc' Hev].
    destruct (IH _ Hc') as [Hc'' Hev'].
    split; [exact Hc''|]. rewrite forallb_app, Hev, Hev'. reflexivity.
Qed.

(** X20.  A closed strategy stays closed.  [close] makes the calls of
    [disconnect], which clears the timer in [reconnectTimer] and closes the
    connection in [eventSource], and no other call; it leaves these two
    fields null and the registry empty.  Whatever happens afterwards
    (subscriptions, removals, stream events, a late timer), the strategy
    opens no connection and sets no timer, the only calls it can still make
    are calls of callbacks, and the two fields stay null.  A connection the
    strategy had stopped holding before (X30) is not closed by [close]. *)
Theorem closed_strategy_stays_closed (s : SSEStrategy) (actions : list action) :
  let s1 := Eff.state_of (close s) in
  close s = (s1, disconnect_events s, Ok tt)
  /\ subscriptions s1 = [] /\ eventSource s1 = None /\ reconnectTimer s1 = None
  /\ forallb is_callback (trace R actions s1) = true
  /\ eventSource (after R actions s1) = None
  /\ reconnectTimer (after R actions s1) = None
  /\ isClosing (after R actions s1) = true.
Proof.
  intros s1.
  assert (Hrun : close s = (s1, disconnect_events s, Ok tt)).
  { subst s1. unfold close, Eff.bind, Eff.modify. rewrite disconnect_run.
    cbn. now rewrite app_nil_r. }
  assert (Hc : closed s1).
  { subst s1. unfold close, Eff.bind, Eff.modify. rewrite disconnect_run.
    cbn. repeat split. }
  split; [exact Hrun|].
  split; [subst s1; unfold close, Eff.bind, Eff.modify; rewrite disconnect_run;
          reflexivity|].
  destruct Hc as (Hc1 & Hc2 & Hc3). split; [exact Hc2|]. split; [exact Hc3|].
  destruct (@closed_trace actions s1 (conj Hc1 (conj Hc2 Hc3))) as [(H1 & H2 & H3) Hev].
  repeat split; assumption.
Qed.


(** *** The registry stays tidy *)

Lemma tidy_map_set (a : string) (x : InboxSubscription)
      (m : list (string * InboxSubscription)) :
  tidy m ->
  emailAddress x = a -> callbacks x <> [] -> NoDup (callbacks x) ->
  tidy (map_set a x m).
Proof.
  intros Hm Ha Hc Hn. induction Hm as [|[k y] m Hy Hm IH]; cbn [map_set].
  - repeat constructor; assumption.
  - destruct (String.eqb a k) eqn:E.
    + apply String.eqb_eq in E. subst k. constructor; [|exact Hm].
      cbn. repeat split; assumption.
    + constructor; assumption.
Qed.

Lemma tidy_map_delete (a : string) (m : list (string * InboxSubscription)) :
  tidy m -> tidy (map_delete a m).
Proof.
  intros Hm. induction Hm as [|kv m Hy Hm IH]; cbn [map_delete filter].
  - constructor.
  - destruct (negb _); [constructor; assumption | assumption].
Qed.

Lemma tidy_delete_set (a : string) (x : InboxSubscription)
      (m : list (string * InboxSubscription)) :
  tidy m -> tidy (map_delete a (map_set a x m)).
Proof.
  intros Hm. induction Hm as [|[k y] m Hy Hm IH]; cbn [map_set].
  - cbn. rewrite String.eqb_refl. constructor.
  - destruct (String.eqb a k) eqn:E.
    + cbn [map_delete filter fst]. rewrite E. cbn [negb].
      now apply tidy_map_delete.
    + cbn [map_delete filter fst]. rewrite E. cbn [negb].
      constructor; assumption.
Qed.

Lemma tidy_map_get (a : string) (sub : InboxSubscription)
      (m : list (string * InboxSubscription)) :
  tidy m -> map_get a m = Some sub ->
  emailAddress sub = a /\ callbacks sub <> [] /\ NoDup (callbacks sub).
Proof.
  intros Hm. induction Hm as [|[k y] m Hy Hm IH]; cbn [map_get]; [discriminate|].
  destruct (String.eqb a k) eqn:E; [|exact IH].
  apply String.eqb_eq in E. subst k. intros [= <-]. exact Hy.
Qed.

Lemma set_add_spec (c : callback) (l : list callback) :
  NoDup l -> set_add c l <> [] /\ NoDup (set_add c l) /\ In c (set_add c l).
Proof.
  intros Hn. unfold set_add. destruct (existsb (Nat.eqb c) l) eqn:E.
  - apply existsb_exists in E. destruct E as (x & Hx & E). apply Nat.eqb_eq in E. subst x.
    repeat split; [|assumption..]. intros ->. destruct Hx.
  - repeat split.
    + destruct l; discriminate.
    + apply NoDup_app; [assumption | repeat constructor; intros [] |].
      intros x Hx [<-|[]].
      assert (existsb (Nat.eqb c) l = true); [|congruence].
      apply existsb_exists. exists c. split; [assumption | apply Nat.eqb_refl].
    + apply in_or_app. right. now left.
Qed.

Lemma register_as_set (a h : string) (k : Crypto.Keypair) (cb : callback)
      (m : list (string * InboxSubscription)) :
  register a h k cb m =
  let sub0 := match map_get a m with
              | Some sub => sub
              | None => {| emailAddress := a; inboxHash := h; keypair := k; callbacks := [] |}
              end in
  map_set a (with_callbacks (set_add cb (callbacks sub0)) sub0) m.
Proof.
  unfold register. destruct (map_get a m) as [sub|] eqn:E.
  - now rewrite E.
  - rewrite map_get_set. cbv zeta. now rewrite map_set_set.
Qed.

Lemma tidy_register (a h : string) (k : Crypto.Keypair) (cb : callback)
      (m : list (string * InboxSubscription)) :
  tidy m -> tidy (register a h k cb m).
Proof.
  intros Hm. rewrite register_as_set. cbv zeta.
  destruct (map_get a m) as [sub|] eqn:E.
  - destruct (@tidy_map_get a sub _ Hm E) as (Ha & Hc & Hn).
    destruct (@set_add_spec cb _ Hn) as (H1 & H2 & _).
    apply tidy_map_set; assumption.
  - destruct (@set_add_spec cb [] (NoDup_nil _)) as (H1 & H2 & _).
    apply tidy_map_set; cbn; assumption || reflexivity.
Qed.

Lemma subscribe_subscriptions (a h : string) (k : Crypto.Keypair) (cb : callback)
      (s : SSEStrategy) :
  subscriptions (Eff.state_of (subscribe R a h k cb s))
  = register a h k cb (subscriptions s).
Proof.
  rewrite subscribe_run. cbv zeta. cbn [Eff.state_of fst].
  destruct (eventSource s) as [es|].
  - destruct (readyState es =? 2)%Z.
    + fold (Eff.state_of (connect R (set_subscriptions (register a h k cb (subscriptions s)) s))).
      now rewrite connect_subscriptions.
    + fold (Eff.state_of (reconnect R (set_subscriptions (register a h k cb (subscriptions s)) s))).
      now rewrite reconnect_subscriptions.
  - fold (Eff.state_of (connect R (set_subscriptions (register a h k cb (subscriptions s)) s))).
    now rewrite connect_subscriptions.
Qed.

Lemma unsubscribe_subscriptions (a : string) (cb : callback) (s : SSEStrategy) :
  subscriptions (Eff.state_of (unsubscribe R (a, cb) s)) =
  match map_get a (subscriptions s) with
  | None => subscriptions s
  | Some sub =>
      let remaining := set_delete cb (callbacks sub) in
      if is_empty remaining
      then map_delete a (map_set a (with_callbacks remaining sub) (subscriptions s))
      else map_set a (with_callbacks remaining sub) (subscriptions s)
  end.
Proof.
  rewrite unsubscribe_run.
  destruct (map_get a (subscriptions s)) as [sub|]; [|reflexivity].
  cbv zeta. destruct (is_empty (set_delete cb (callbacks sub))); [|reflexivity].
  match goal with
  | |- context [is_empty (subscriptions ?s2)] => destruct (is_empty (subscriptions s2))
  end.
  - rewrite disconnect_run. reflexivity.
  - now rewrite reconnect_subscriptions.
Qed.

Lemma tidy_perform (a : action) (s : SSEStrategy) :
  tidy (subscriptions s) -> tidy (subscriptions (Eff.state_of (perform R a s))).
Proof.
  intros Ht. destruct a as [e h k c|[e c]| | | | |p d]; cbn [perform].
  - assert (H : Eff.state_of ((Eff.bind (subscribe R e h k c) (fun _ => Eff.ret tt)) s)
                = Eff.state_of (subscribe R e h k c s)).
    { unfold Eff.bind, Eff.ret.
      now destruct (subscribe R e h k c s) as [[s' evs] [x|err]]. }
    rewrite H, subscribe_subscriptions. now apply tidy_register.
  - rewrite unsubscribe_subscriptions.
    destruct (map_get e (subscriptions s)) as [sub|] eqn:E; [|exact Ht].
    cbv zeta. destruct (@tidy_map_get e sub _ Ht E) as (Ha & Hc & Hn).
    destruct (is_empty (set_delete c (callbacks sub))) eqn:Hem.
    + now apply tidy_delete_set.
    + apply tidy_map_set; cbn; try assumption.
      * intros Hnil. rewrite Hnil in Hem. discriminate.
      * unfold set_delete. now apply NoDup_filter.
  - unfold close, Eff.bind, Eff.modify. rewrite disconnect_run. cbn. constructor.
  - unfold eventSource_onopen, Eff.bind, Eff.modify. cbn.
    now destruct (eventSource s).
  - unfold eventSource_onerror. now rewrite handleConnectionError_subscriptions.
  - unfold reconnectTimer_fires, Eff.bind at 1, Eff.get at 1.
    destruct (reconnectTimer s) as [t|]; [|exact Ht].
    destruct (pending t); [|exact Ht].
    unfold Eff.bind, Eff.modify.
    match goal with
    | |- context [connect R ?s1] =>
        pose proof (connect_subscriptions R s1) as Hs;
        destruct (connect R s1) as [[s' evs] r]
    end.
    cbn [Eff.state_of fst] in *. now rewrite Hs.
  - now rewrite onmessage_state.
Qed.

Lemma reachable_tidy (s : SSEStrategy) : reachable R s -> tidy (subscriptions s).
Proof.
  intros (config & actions & ->).
  assert (H0 : tidy (subscriptions (new_SSEStrategy config))) by constructor.
  revert H0. generalize (new_SSEStrategy config).
  induction actions as [|a actions IH]; intros s0 H0; cbn [after].
  - exact H0.
  - apply IH. now apply tidy_perform.
Qed.

(** X21.  In every state the strategy can reach, an inbox that is in
    the registry is filed under its own address and has at least one
    callback, none of them twice: an inbox whose last callback is removed
    leaves the registry. *)
Theorem registry_holds_no_empty_entry (s : SSEStrategy) (a : string)
        (sub : InboxSubscription) :
  reachable R s ->
  map_get a (subscriptions s) = Some sub ->
  emailAddress sub = a /\ callbacks sub <> [] /\ NoDup (callbacks sub).
Proof.
  intros Hr. apply tidy_map_get. now apply reachable_tidy.
Qed.

Lemma set_delete_added (cb : callback) (l : list callback) :
  ~ In cb l -> set_delete cb (set_add cb l) = l.
Proof.
  intros Hn. unfold set_add.
  assert (Hex : existsb (Nat.eqb cb) l = false).
  { destruct (existsb (Nat.eqb cb) l) eqn:E; [|reflexivity].
    apply existsb_exists in E. destruct E as (x & Hx & E). apply Nat.eqb_eq in E.
    subst x. contradiction. }
  rewrite Hex. unfold set_delete. rewrite filter_app. cbn. rewrite Nat.eqb_refl. cbn.
  rewrite app_nil_r. apply forallb_filter_id. apply forallb_forall.
  intros x Hx. apply negb_true_iff, Nat.eqb_neq. intros ->. contradiction.
Qed.

Lemma map_set_same (a : string) (sub : InboxSubscription)
      (m : list (string * InboxSubscription)) :
  map_get a m = Some sub -> map_set a sub m = m.
Proof.
  induction m as [|[k y] m IH]; cbn [map_get map_set]; [discriminate|].
  destruct (String.eqb a k); [now intros [= ->] | intros H; now rewrite IH].
Qed.

Lemma map_delete_set_absent (a : string) (x : InboxSubscription)
      (m : list (string * InboxSubscription)) :
  map_get a m = None -> map_delete a (map_set a x m) = m.
Proof.
  induction m as [|[k y] m IH]; cbn [map_get map_set].
  - intros _. cbn. now rewrite String.eqb_refl.
  - destruct (String.eqb a k) eqn:E; [discriminate|].
    intros H. cbn [map_delete filter fst]. rewrite E. cbn [negb].
    f_equal. now apply IH.
Qed.

(** X22.  Subscribing a callback that is not yet registered for the
    inbox and then calling the [unsubscribe] of the handle leaves the
    registry as it was, whether the inbox had other callbacks or none. *)
Theorem subscribe_then_unsubscribe (s : SSEStrategy) (a h : string)
        (k : Crypto.Keypair) (cb : callback) :
  reachable R s ->
  (forall sub, map_get a (subscriptions s) = Some sub -> ~ In cb (callbacks sub)) ->
  subscriptions (after R [Subscribe a h k cb; Unsubscribe (a, cb)] s)
  = subscriptions s.
Proof.
  intros Hr Hfresh. cbn [after perform].
  assert (H : Eff.state_of ((Eff.bind (subscribe R a h k cb) (fun _ => Eff.ret tt)) s)
              = Eff.state_of (subscribe R a h k cb s)).
  { unfold Eff.bind, Eff.ret.
    now destruct (subscribe R a h k cb s) as [[s' evs] [x|err]]. }
  rewrite H, unsubscribe_subscriptions, subscribe_subscriptions, register_as_set.
  cbv zeta. rewrite map_get_set. cbn [callbacks with_callbacks].
  destruct (map_get a (subscriptions s)) as [sub|] eqn:E.
  - rewrite (@set_delete_added cb (callbacks sub) (Hfresh sub eq_refl)).
    destruct (@tidy_map_get a sub _ (reachable_tidy Hr) E) as (_ & Hc & _).
    destruct (callbacks sub) as [|c l] eqn:Hcs; [congruence|]. cbn [is_empty].
    rewrite map_set_set.
    replace (with_callbacks (c :: l) (with_callbacks (set_add cb (c :: l)) sub)) with sub.
    + now apply map_set_same.
    + destruct sub; cbn in *. now subst.
  - cbn [callbacks]. rewrite (@set_delete_added cb [] (fun x => x)). cbn [is_empty].
    rewrite map_set_set. now apply map_delete_set_absent.
Qed.


(** *** The reconnection schedule *)

Lemma timers_app (l1 l2 : list io) : timers (l1 ++ l2) = (timers l1 ++ timers l2)%list.
Proof.
  induction l1 as [|ev l1 IH]; [reflexivity|].
  destruct ev; cbn [app timers]; now rewrite ?IH.
Qed.

Lemma timers_disconnect (s : SSEStrategy) : timers (disconnect_events s) = [].
Proof.
  unfold disconnect_events. now destruct (reconnectTimer s), (eventSource s).
Qed.

Hypothesis constructs : forall u, EventSource_constructs R u = true.

Lemma connect_quiet (s : SSEStrategy) :
  timers (Eff.events_of (connect R s)) = []
  /\ same_settings s (Eff.state_of (connect R s))
  /\ reconnectAttempts (Eff.state_of (connect R s)) = reconnectAttempts s
  /\ Eff.outcome_of (connect R s) = Ok tt.
Proof.
  rewrite connect_run.
  destruct (isClosing s) eqn:Hc; [now repeat split|].
  destruct (is_empty (subscriptions s)); [now repeat split|].
  destruct (String.eqb _ _); [now repeat split|].
  rewrite constructs. now repeat split.
Qed.

Lemma failure_round (s : SSEStrategy) :
  isClosing s = false ->
  (reconnectAttempts s < maxReconnectAttempts s)%Z ->
  let s2 := after R [OnError; TimerFires] s in
  timers (trace R [OnError; TimerFires] s)
  = [(reconnectInterval s * Qpower (backoffMultiplier s) (reconnectAttempts s))%Q]
  /\ same_settings s s2
  /\ reconnectAttempts s2 = (reconnectAttempts s + 1)%Z.
Proof.
  intros Hc Hlt. cbn [after trace perform]. unfold eventSource_onerror.
  rewrite handleConnectionError_run, Hc.
  apply Z.ltb_lt in Hlt. rewrite Hlt. cbv zeta.
  cbn [Eff.state_of Eff.events_of fst snd].
  set (d := (reconnectInterval s * Qpower (backoffMultiplier s) (reconnectAttempts s))%Q).
  unfold reconnectTimer_fires, Eff.bind, Eff.get, Eff.modify.
  cbn [reconnectTimer set_reconnectTimer pending delay].
  match goal with
  | |- context [connect R ?s1] =>
      destruct (connect_quiet s1) as (Hq & Hs & Ha & Ho);
      destruct (connect R s1) as [[s' evs] r]
  end.
  cbn [Eff.state_of Eff.events_of Eff.outcome_of fst snd] in *.
  rewrite app_nil_r, !timers_app, timers_disconnect. cbn [timers app].
  rewrite Hq. split; [reflexivity|]. split; [exact Hs | exact Ha].
Qed.

Lemma trace_app (l1 l2 : list action) (s : SSEStrategy) :
  trace R (l1 ++ l2) s = (trace R l1 s ++ trace R l2 (after R l1 s))%list.
Proof.
  revert s. induction l1 as [|a l1 IH]; intros s; [reflexivity|].
  cbn [app trace after]. now rewrite IH, app_assoc.
Qed.

Lemma failures_schedule (k : nat) (s : SSEStrategy) :
  isClosing s = false ->
  (reconnectAttempts s + Z.of_nat k <= maxReconnectAttempts s)%Z ->
  timers (trace R (failures k) s)
  = map (fun i => (reconnectInterval s
                   * Qpower (backoffMultiplier s) (reconnectAttempts s + Z.of_nat i))%Q)
        (seq 0 k)
  /\ reconnectAttempts (after R (failures k) s) = (reconnectAttempts s + Z.of_nat k)%Z.
Proof.
  revert s. induction k as [|k IH]; intros s Hc Hle.
  - cbn. split; [reflexivity | lia].
  - change (failures (S k)) with ([OnError; TimerFires] ++ failures k)%list.
    rewrite trace_app, timers_app.
    assert (Hlt : (reconnectAttempts s < maxReconnectAttempts s)%Z) by lia.
    destruct (@failure_round s Hc Hlt) as (Ht & (Hi & Hm & Hx & Hcl) & Ha).
    set (s2 := after R [OnError; TimerFires] s) in *.
    assert (Hc2 : isClosing s2 = false) by congruence.
    assert (Hle2 : (reconnectAttempts s2 + Z.of_nat k <= maxReconnectAttempts s2)%Z).
    { rewrite Ha, Hx. lia. }
    destruct (IH s2 Hc2 Hle2) as [IH1 IH2].
    split.
    + rewrite Ht, IH1. cbn [seq map app]. f_equal.
      * now rewrite Z.add_0_r.
      * rewrite <- seq_shift, map_map. apply map_ext. intros i.
        rewrite Hi, Hm, Ha. now replace (reconnectAttempts s + 1 + Z.of_nat i)%Z
          with (reconnectAttempts s + Z.of_nat (S i))%Z by lia.
    + replace (after R ([OnError; TimerFires] ++ failures k) s)
        with (after R (failures k) s2) by reflexivity.
      rewrite IH2, Ha. lia.
Qed.


(** X23.  The reconnection schedule.  On a strategy that is not closed,
    when the [EventSource] constructor does not throw, [k] connection
    failures in a row, each followed by its timer, set the timers
    reconnectInterval x backoffMultiplier^n for n from the current number
    of attempts on, as long as the maximum is not exceeded, and leave the
    number of attempts increased by [k]; an [open] event of the stream then
    sets it back to 0. *)
Theorem reconnection_backs_off (k : nat) (s : SSEStrategy) :
  isClosing s = false ->
  (reconnectAttempts s + Z.of_nat k <= maxReconnectAttempts s)%Z ->
  timers (trace R (failures k) s)
  = map (fun i => (reconnectInterval s
                   * Qpower (backoffMultiplier s) (reconnectAttempts s + Z.of_nat i))%Q)
        (seq 0 k)
  /\ reconnectAttempts (after R (failures k) s) = (reconnectAttempts s + Z.of_nat k)%Z
  /\ reconnectAttempts (after R [OnOpen] (after R (failures k) s)) = 0%Z.
Proof.
  intros Hc Hle. destruct (@failures_schedule k s Hc Hle) as [H1 H2].
  split; [exact H1|]. split; [exact H2|].
  cbn [after perform]. unfold eventSource_onopen, Eff.bind, Eff.modify. reflexivity.
Qed.

End WithRuntime.

Lemma registry_holds_no_empty_entry_witness :
  emailAddress inbox_a = "a@x" /\ callbacks inbox_a <> [] /\ NoDup (callbacks inbox_a).
Proof.
  apply (@registry_holds_no_empty_entry always_constructs two_inboxes "a@x" inbox_a).
  - exists sample_config,
      [Subscribe "a@x" "h1" Crypto.sample_keypair 1%nat;
       Subscribe "b@x" "h2" Crypto.sample_keypair 2%nat].
    reflexivity.
  - reflexivity.
Defined.

Lemma subscribe_then_unsubscribe_witness :
  subscriptions (after always_constructs
                       [Subscribe "a@x" "h1" Crypto.sample_keypair 3%nat;
                        Unsubscribe ("a@x", 3%nat)] two_inboxes)
  = subscriptions two_inboxes.
Proof.
  apply (@subscribe_then_unsubscribe always_constructs two_inboxes "a@x" "h1"
           Crypto.sample_keypair 3%nat).
  - exists sample_config,
      [Subscribe "a@x" "h1" Crypto.sample_keypair 1%nat;
       Subscribe "b@x" "h2" Crypto.sample_keypair 2%nat].
    reflexivity.
  - intros sub [= <-]. cbn. intros [H|[]]. discriminate.
Defined.

Lemma reconnection_backs_off_witness :
  timers (trace always_constructs (failures 3) two_inboxes)
  = map (fun i => (reconnectInterval two_inboxes
                   * Qpower (backoffMultiplier two_inboxes)
                            (reconnectAttempts two_inboxes + Z.of_nat i))%Q)
        (seq 0 3).
Proof.
  apply (@reconnection_backs_off always_constructs (fun _ => eq_refl) 3 two_inboxes).
  - reflexivity.
  - vm_compute. discriminate.
Defined.

End SSERunFacts.

Module SSEHandleFacts.
Import Mail SSE SSEFacts SSERuns SSERunFacts.
Local Open Scope string_scope.

Section WithRuntime.
Variable R : Runtime.

Lemma map_get_set_other (a e : string) (x : InboxSubscription)
      (m : list (string * InboxSubscription)) :
  String.eqb a e = false -> map_get a (map_set e x m) = map_get a m.
Proof.
  intros Hne. induction m as [|[k y] m IH]; cbn [map_set map_get].
  - now rewrite Hne.
  - destruct (String.eqb e k) eqn:E; cbn [map_get].
    + apply String.eqb_eq in E. subst k. now rewrite Hne.
    + now rewrite IH.
Qed.

Lemma map_get_delete_other (a e : string) (m : list (string * InboxSubscription)) :
  String.eqb a e = false -> map_get a (map_delete e m) = map_get a m.
Proof.
  intros Hne. induction m as [|[k y] m IH]; [reflexivity|].
  unfold map_delete. cbn [filter fst map_get].
  destruct (String.eqb e k) eqn:E; cbn [negb map_get].
  - apply String.eqb_eq in E. subst k. rewrite Hne. exact IH.
  - destruct (String.eqb a k); [reflexivity | exact IH].
Qed.

Lemma set_delete_absent (cb : callback) (l : list callback) :
  ~ In cb l -> set_delete cb l = l.
Proof.
  unfold set_delete. induction l as [|x l IH]; [reflexivity|].
  intros Hn. cbn [filter].
  destruct (Nat.eqb cb x) eqn:E.
  - apply Nat.eqb_eq in E. subst x. exfalso. apply Hn. now left.
  - cbn [negb]. rewrite IH; [reflexivity|]. intros H. apply Hn. now right.
Qed.

Lemma set_delete_In (cb c : callback) (l : list callback) :
  In cb (set_delete c l) -> In cb l /\ cb <> c.
Proof.
  unfold set_delete. rewrite filter_In. intros [Hin Hne]. split; [exact Hin|].
  intros ->. rewrite Nat.eqb_refl in Hne. discriminate.
Qed.

Lemma set_add_In (cb c : callback) (l : list callback) :
  In cb (set_add c l) -> In cb l \/ cb = c.
Proof.
  unfold set_add. destruct (existsb (Nat.eqb c) l); [now left|].
  intros H. apply in_app_or in H. destruct H as [H|[<-|[]]]; [now left | now right].
Qed.

(** On a handle whose callback is not registered, [unsubscribe] does
    nothing. *)
Lemma unsubscribe_unregistered (handle : string * callback) (s : SSEStrategy) :
  tidy (subscriptions s) -> ~ registered handle s ->
  unsubscribe R handle s = (s, [], Ok tt).
Proof.
  destruct handle as [a cb]. intros Ht Hn. rewrite unsubscribe_run.
  destruct (map_get a (subscriptions s)) as [sub|] eqn:E; [|reflexivity].
  cbv zeta.
  assert (Hcb : ~ In cb (callbacks sub)).
  { intros Hin. apply Hn. exists sub. now split. }
  rewrite (@set_delete_absent cb (callbacks sub) Hcb).
  destruct (@tidy_map_get a sub _ Ht E) as (_ & Hne & _).
  destruct (callbacks sub) as [|c l] eqn:Ec; [now destruct Hne|].
  cbn [is_empty]. rewrite <- Ec.
  assert (Hsub : with_callbacks (callbacks sub) sub = sub) by now destruct sub.
  rewrite Hsub, (@map_set_same a sub _ E), set_subscriptions_same. reflexivity.
Qed.

Lemma unsubscribe_unregisters (handle : string * callback) (s : SSEStrategy) :
  ~ registered handle (Eff.state_of (unsubscribe R handle s)).
Proof.
  destruct handle as [a cb]. intros (sub' & Hget & Hin). cbn [fst snd] in *.
  rewrite unsubscribe_subscriptions in Hget.
  destruct (map_get a (subscriptions s)) as [sub|] eqn:E; [|congruence].
  cbv zeta in Hget.
  destruct (is_empty (set_delete cb (callbacks sub))).
  - rewrite map_get_delete in Hget. discriminate.
  - rewrite map_get_set in Hget. injection Hget as <-.
    cbn [callbacks with_callbacks] in Hin.
    apply set_delete_In in Hin. now destruct Hin.
Qed.

Lemma perform_keeps_unregistered (handle : string * callback) (a : action)
      (s : SSEStrategy) :
  ~ registered handle s -> resubscribes handle a = false ->
  ~ registered handle (Eff.state_of (perform R a s)).
Proof.
  destruct handle as [x cb]. intros Hn Hre (sub' & Hget & Hin). cbn [fst snd] in *.
  apply Hn. clear Hn.
  destruct a as [e h k c|[e c]| | | | |p d]; cbn [perform] in Hget.
  - assert (H : Eff.state_of ((Eff.bind (subscribe R e h k c) (fun _ => Eff.ret tt)) s)
                = Eff.state_of (subscribe R e h k c s)).
    { unfold Eff.bind, Eff.ret.
      now destruct (subscribe R e h k c s) as [[s' evs] [y|err]]. }
    rewrite H, subscribe_subscriptions, register_as_set in Hget. cbv zeta in Hget.
    cbn [resubscribes fst snd] in Hre.
    destruct (String.eqb x e) eqn:Exe.
    + apply String.eqb_eq in Exe. subst e. rewrite String.eqb_refl in Hre.
      cbn [andb] in Hre. rewrite map_get_set in Hget. injection Hget as <-.
      cbn [callbacks with_callbacks] in Hin.
      apply set_add_In in Hin. destruct Hin as [Hin|Heq].
      2:{ subst c. rewrite Nat.eqb_refl in Hre. discriminate. }
      destruct (map_get x (subscriptions s)) as [sub|] eqn:E; [|destruct Hin].
      exists sub. now split.
    + rewrite (@map_get_set_other x e _ _ Exe) in Hget. exists sub'. now split.
  - rewrite unsubscribe_subscriptions in Hget.
    destruct (String.eqb x e) eqn:Exe.
    + apply String.eqb_eq in Exe. subst e.
      destruct (map_get x (subscriptions s)) as [sub|] eqn:E.
      2:{ exists sub'. now split. }
      cbv zeta in Hget.
      destruct (is_empty (set_delete c (callbacks sub))).
      * rewrite map_get_delete in Hget. discriminate.
      * rewrite map_get_set in Hget. injection Hget as <-.
        cbn [callbacks with_callbacks] in Hin.
        apply set_delete_In in Hin. exists sub. now split.
    + destruct (map_get e (subscriptions s)) as [sub|] eqn:E.
      2:{ exists sub'. now split. }
      cbv zeta in Hget.
      destruct (is_empty (set_delete c (callbacks sub))).
      * rewrite (@map_get_delete_other x e _ Exe), (@map_get_set_other x e _ _ Exe) in Hget.
        exists sub'. now split.
      * rewrite (@map_get_set_other x e _ _ Exe) in Hget. exists sub'. now split.
  - unfold close, Eff.bind, Eff.modify in Hget. rewrite disconnect_run in Hget.
    cbn in Hget. discriminate.
  - unfold eventSource_onopen, Eff.bind, Eff.modify in Hget. cbn in Hget.
    exists sub'. split; [|exact Hin]. now destruct (eventSource s).
  - unfold eventSource_onerror in Hget.
    rewrite handleConnectionError_subscriptions in Hget. exists sub'. now split.
  - exists sub'. split; [|exact Hin].
    unfold reconnectTimer_fires, Eff.bind at 1, Eff.get at 1 in Hget.
    destruct (reconnectTimer s) as [t|]; [|exact Hget].
    destruct (pending t); [|exact Hget].
    unfold Eff.bind, Eff.modify in Hget.
    match type of Hget with
    | context [connect R ?s1] =>
        pose proof (connect_subscriptions R s1) as Hs;
        destruct (connect R s1) as [[s' evs] r]
    end.
    cbn [Eff.state_of fst] in *. now rewrite Hs in Hget.
  - rewrite onmessage_state in Hget. exists sub'. now split.
Qed.

Lemma after_keeps_unregistered (handle : string * callback) (actions : list action)
      (s : SSEStrategy) :
  tidy (subscriptions s) -> ~ registered handle s ->
  forallb (fun a => negb (resubscribes handle a)) actions = true ->
  tidy (subscriptions (after R actions s)) /\ ~ registered handle (after R actions s).
Proof.
  revert s. induction actions as [|a actions IH]; intros s Ht Hn Hall; cbn [after].
  - now split.
  - cbn [forallb] in Hall. apply andb_true_iff in Hall. destruct Hall as [Ha Hall].
    apply negb_true_iff in Ha.
    apply IH; [now apply tidy_perform | now apply perform_keeps_unregistered | exact Hall].
Qed.

End WithRuntime.

(** C9, in the form the strategies satisfy.  A call of [unsubscribe] on
    a handle of the stream strategy that follows one on the same handle
    finds the callback gone: it changes nothing in the strategy, makes no
    call and returns normally.  That holds for the call that comes next, in
    any state, and any number of times; and in every state the strategy can
    reach it holds whatever happens in between, as long as the same callback
    is not subscribed to the same address again.  The handle of the polling
    strategy only clears its flag, which is clear already. *)
Theorem unsubscribe_is_idempotent :
  (forall (R : Runtime) (handle : string * callback) (s : SSEStrategy) (n : nat),
      let s1 := Eff.state_of (SSE.unsubscribe R handle s) in
      SSE.unsubscribe R handle s1 = (s1, [], Ok tt)
      /\ Nat.iter n (fun st => Eff.state_of (SSE.unsubscribe R handle st)) s1 = s1)
  /\ (forall (R : Runtime) (handle : string * callback) (s : SSEStrategy)
             (actions : list action),
         reachable R s ->
         forallb (fun a => negb (resubscribes handle a)) actions = true ->
         let s2 := after R actions (Eff.state_of (SSE.unsubscribe R handle s)) in
         SSE.unsubscribe R handle s2 = (s2, [], Ok tt))
  /\ (forall (sub : Polling.PollingSubscription) (n : nat),
         Polling.unsubscribe (Polling.unsubscribe sub) = Polling.unsubscribe sub
         /\ Nat.iter n Polling.unsubscribe (Polling.unsubscribe sub)
            = Polling.unsubscribe sub
         /\ forall this fetched,
             Polling.poll_round this fetched (Polling.unsubscribe sub)
             = ([], Polling.unsubscribe sub)).
Proof.
  split; [|split].
  - intros R handle s n s1.
    pose proof (unsubscribe_again R handle s) as H. fold s1 in H.
    split; [exact H|].
    induction n as [|n IH]; [reflexivity|].
    rewrite Nat.iter_succ, IH, H. reflexivity.
  - intros R handle s actions Hr Hall s2.
    assert (Ht : tidy (subscriptions s)) by now apply (@reachable_tidy R).
    assert (Ht1 : tidy (subscriptions (Eff.state_of (SSE.unsubscribe R handle s)))).
    { exact (@tidy_perform R (Unsubscribe handle) s Ht). }
    destruct (@after_keeps_unregistered R handle actions _ Ht1
                (@unsubscribe_unregisters R handle s) Hall) as [Ht2 Hn2].
    now apply unsubscribe_unregistered.
  - intros sub n. split; [reflexivity|]. split.
    + induction n as [|n IH]; [reflexivity|].
      now rewrite Nat.iter_succ, IH.
    + reflexivity.
Qed.

Lemma unsubscribe_is_idempotent_witness :
  let acts := [Subscribe "a@x" "h1" Crypto.sample_keypair 3%nat; OnError; TimerFires;
               Unsubscribe ("b@x", 2%nat)] in
  let s2 := after always_constructs acts
                  (Eff.state_of (SSE.unsubscribe always_constructs ("a@x", 1%nat)
                                                 two_inboxes)) in
  SSE.unsubscribe always_constructs ("a@x", 1%nat) s2 = (s2, [], Ok tt).
Proof.
  apply (proj1 (proj2 unsubscribe_is_idempotent) always_constructs ("a@x", 1%nat)
           two_inboxes).
  - exists sample_config,
      [Subscribe "a@x" "h1" Crypto.sample_keypair 1%nat;
       Subscribe "b@x" "h2" Crypto.sample_keypair 2%nat].
    reflexivity.
  - reflexivity.
Defined.

(** A handle is the address and the callback it was made for.  When the
    same callback is subscribed to the same address again, a further call
    on the first handle, already used once, removes the new registration
    and, the registry being empty then, closes the stream. *)
Lemma unsubscribe_after_resubscription_counterexample :
  let R := always_constructs in
  let handle := ("a@x", 1%nat) in
  let s0 := new_SSEStrategy sample_config in
  let first := subscribe R "a@x" "h1" Crypto.sample_keypair 1%nat s0 in
  let s1 := Eff.state_of (SSE.unsubscribe R handle (Eff.state_of first)) in
  let s2 := Eff.state_of (subscribe R "a@x" "h1" Crypto.sample_keypair 1%nat s1) in
  let again := SSE.unsubscribe R handle s2 in
  Eff.outcome_of first = Ok handle
  /\ subscriptions s2
     = [("a@x", {| emailAddress := "a@x"; inboxHash := "h1";
                   keypair := Crypto.sample_keypair; callbacks := [1%nat] |})]
  /\ eventSource s2
     = Some {| es_url := "http://localhost:3000/api/events?inboxes=h1"; readyState := 0 |}
  /\ subscriptions (Eff.state_of again) = []
  /\ eventSource (Eff.state_of again) = None
  /\ Eff.events_of again = [Io_close "http://localhost:3000/api/events?inboxes=h1"]
  /\ again <> (s2, [], Ok tt).
Proof.
  cbv zeta. repeat split; try (vm_compute; reflexivity).
  vm_compute. discriminate.
Qed.

End SSEHandleFacts.


Module SSEWaitFacts.
Import Mail SSE SSEFacts SSERuns.
Local Open Scope string_scope.

Section WithRuntime.
Variable R : Runtime.

(** X29.  How a wait on the stream ends.  For a wait that has not
    ended, the callback of the wait runs the filters on the email it is
    given.  When they answer false, or throw, nothing else happens: no call
    is made, the strategy and the wait are as before (the error rejects the
    promise of the callback, not the wait).  When they answer true, the
    callback sets [resolved], clears the wait's timer and unsubscribes; if
    [unsubscribe] returns, the promise is fulfilled with that email, and if
    it throws the promise stays pending.  Either way, from then on a later
    email is not even tested and the timer does nothing.  The timer, when it
    fires first and [unsubscribe] returns, rejects the promise with the
    timeout error after unsubscribing. *)
Theorem wait_is_fulfilled_once (w : Wait) (email later : IEmail) (h hl : heap)
        (s : SSEStrategy) :
  resolved w = false ->
  settled w = Pending ->
  let u := unsubscribe R (w_handle w) s in
  match matchesFilters email (w_options w) h with
  | (h', Ok false) => wait_receives R w email h s = (w, h', (s, [], Ok tt))
  | (h', Err error) => wait_receives R w email h s = (w, h', (s, [], Err error))
  | (h', Ok true) =>
      exists w',
        wait_receives R w email h s
        = (w', h', (Eff.state_of u,
                    Io_clearWaitTimer (w_timeout w) :: Eff.events_of u,
                    Eff.outcome_of u))
        /\ resolved w' = true
        /\ settled w' = match Eff.outcome_of u with
                        | Ok _ => Fulfilled email
                        | Err _ => Pending
                        end
        /\ (forall s', wait_receives R w' later hl s' = (w', hl, (s', [], Ok tt)))
        /\ (forall s', wait_timer_fires R w' s' = (s', [], Ok w'))
  end
  /\ (Eff.outcome_of u = Ok tt ->
      exists w',
        wait_timer_fires R w s = (Eff.state_of u, Eff.events_of u, Ok w')
        /\ settled w'
           = Rejected (TimeoutError "No matching email received within timeout")).
Proof.
  intros Hr Hp u. subst u. split.
  - unfold wait_receives. rewrite Hr.
    destruct (matchesFilters email (w_options w) h) as [h' [[|]|error]];
      [|reflexivity|reflexivity].
    destruct (unsubscribe R (w_handle w) s) as [[s1 evs1] [[]|e]];
      cbn [Eff.outcome_of Eff.events_of Eff.state_of fst snd].
    + exists (settle (Fulfilled email) (set_resolved w)).
      unfold settle, set_resolved. cbn [settled resolved]. rewrite Hp.
      repeat split.
    + exists (set_resolved w). unfold set_resolved. cbn [settled resolved].
      repeat split. exact Hp.
  - intros Hu. unfold wait_timer_fires. rewrite Hr.
    unfold Eff.bind, Eff.ret.
    unfold Eff.outcome_of in Hu.
    destruct (unsubscribe R (w_handle w) s) as [[s1 evs1] [[]|e]] eqn:Hun;
      cbn [snd] in Hu; [|discriminate].
    cbn [Eff.outcome_of Eff.events_of Eff.state_of fst snd].
    exists (settle (Rejected (TimeoutError "No matching email received within timeout")) w).
    unfold settle. cbn [settled]. rewrite Hp, app_nil_r. split; reflexivity.
Qed.

Lemma timer_run (s : SSEStrategy) (t : Timeout) :
  reconnectTimer s = Some t ->
  pending t = true ->
  isClosing s = false ->
  hashes s <> [] ->
  EventSource_constructs R (stream_url s) = true ->
  reconnectTimer_fires R s
  = (set_eventSource (Some {| es_url := stream_url s; readyState := 0 |})
       (set_reconnectAttempts (reconnectAttempts s + 1)
          (set_reconnectTimer (Some {| delay := delay t; pending := false |}) s)),
     [Io_open (stream_url s)], Ok tt).
Proof.
  intros Ht Hp Hc Hh Hk.
  unfold reconnectTimer_fires, Eff.bind at 1, Eff.get at 1. rewrite Ht, Hp.
  unfold Eff.bind, Eff.modify.
  set (s1 := set_reconnectAttempts _ _).
  assert (Hne : is_empty (subscriptions s) = false).
  { destruct (subscriptions s) eqn:E; [|reflexivity].
    exfalso. apply Hh. unfold hashes. now rewrite E. }
  assert (Hcat : String.eqb (String.concat "," (hashes s)) EmptyString = false).
  { apply String.eqb_neq. apply concat_nonempty; [exact Hh | apply hashes_nonempty]. }
  rewrite (connect_run R s1).
  change (isClosing s1) with (isClosing s).
  change (subscriptions s1) with (subscriptions s).
  change (hashes s1) with (hashes s).
  change (stream_url s1) with (stream_url s).
  rewrite Hc, Hne, Hcat, Hk. reflexivity.
Qed.

(** X30.  The reconnect timer and a connection made in the meantime.
    When the reconnect timer fires on a strategy that holds a connection
    (one opened by a [subscribe] during the delay), is not closed and has
    an inbox hash to ask for, and the [EventSource] constructor does not
    throw, [connect] opens a new connection for the current hashes and
    holds it in place of the old one; the only call made is that opening,
    so the connection held before is not closed.  The number of attempts
    goes up by one. *)
Theorem timer_replaces_connection (s : SSEStrategy) (es : EventSource) (t : Timeout) :
  eventSource s = Some es ->
  reconnectTimer s = Some t ->
  pending t = true ->
  isClosing s = false ->
  hashes s <> [] ->
  EventSource_constructs R (stream_url s) = true ->
  let r := reconnectTimer_fires R s in
  Eff.events_of r = [Io_open (stream_url s)]
  /\ ~ In (Io_close (es_url es)) (Eff.events_of r)
  /\ eventSource (Eff.state_of r) = Some {| es_url := stream_url s; readyState := 0 |}
  /\ reconnectAttempts (Eff.state_of r) = (reconnectAttempts s + 1)%Z
  /\ Eff.outcome_of r = Ok tt.
Proof.
  intros He Ht Hp Hc Hh Hk r. subst r.
  rewrite (@timer_run s t Ht Hp Hc Hh Hk).
  cbn [Eff.events_of Eff.state_of Eff.outcome_of fst snd].
  repeat split; try reflexivity.
  intros [H|[]]. discriminate.
Qed.

End WithRuntime.

Lemma wait_is_fulfilled_once_witness :
  exists w',
    fst (fst (wait_receives always_constructs pending_wait a_mail fresh_heap two_inboxes))
    = w'
    /\ settled w' = Fulfilled a_mail.
Proof.
  pose proof (@wait_is_fulfilled_once always_constructs pending_wait a_mail a_mail
                fresh_heap fresh_heap two_inboxes eq_refl eq_refl) as H.
  cbv zeta in H.
  change (matchesFilters a_mail (w_options pending_wait) fresh_heap)
    with (fresh_heap, @Ok bool true) in H.
  destruct H as [(w' & E & _ & S & _) _].
  exists w'. split; [now rewrite E | exact S].
Defined.

Lemma timer_replaces_connection_witness :
  eventSource subscribed_during_backoff
  = Some {| es_url := "http://localhost:3000/api/events?inboxes=h1,h2"; readyState := 0 |}
  /\ Eff.events_of (reconnectTimer_fires always_constructs subscribed_during_backoff)
     = [Io_open "http://localhost:3000/api/events?inboxes=h1,h2"].
Proof.
  split; [reflexivity|].
  refine (proj1 (@timer_replaces_connection always_constructs subscribed_during_backoff
                   {| es_url := "http://localhost:3000/api/events?inboxes=h1,h2";
                      readyState := 0 |}
                   {| delay := 5000; pending := true |} _ _ _ _ _ _)).
  - reflexivity.
  - reflexivity.
  - reflexivity.
  - reflexivity.
  - vm_compute. discriminate.
  - reflexivity.
Defined.

(** C7, at the run that breaks it.  The stream of one inbox fails and a
    second inbox subscribes before the reconnect timer is due: [subscribe]
    finds no connection and opens one, leaving the timer pending; when the
    timer fires, [connect] opens another connection for the same two hashes
    in its place without closing it.  Two connections are then open at once;
    the removal of one inbox closes the one the strategy holds and opens one
    for the other inbox, the removal of the last inbox closes that one, and
    the connection that was replaced is still open when the registry is
    empty and the strategy holds none. *)
Theorem replaced_connection_stays_open :
  let R := always_constructs in
  let s0 := new_SSEStrategy sample_config in
  let u1 := "http://localhost:3000/api/events?inboxes=h1" in
  let u12 := "http://localhost:3000/api/events?inboxes=h1,h2" in
  stream_events (trace R late_timer_run s0)
  = [Io_open u1; Io_close u1; Io_open u12; Io_open u12; Io_close u12;
     Io_open u1; Io_close u1]
  /\ open_streams (trace R (firstn 4 late_timer_run) s0) [] = [u12; u12]
  /\ subscriptions (after R late_timer_run s0) = []
  /\ eventSource (after R late_timer_run s0) = None
  /\ open_streams (trace R late_timer_run s0) [] = [u12].
Proof. cbv zeta. repeat split; vm_compute; reflexivity. Qed.

End SSEWaitFacts.

Module RetryFacts.
Import ApiClient Retry.
Local Open Scope string_scope.

Section Requests.
Variable A : Type.
Variable this : RetryConfig.

Lemma request_from (script : list (answer A)) (c : RequestConfig) :
  let r := request this script c in
  let n := List.length (delays (fst r)) in
  delays (fst r)
  = map (fun i => (the_retryDelay this * Qpower 2 (count_of c + Z.of_nat i))%Q) (seq 0 n)
  /\ requests (fst r) = S n
  /\ (n <= List.length script)%nat
  /\ (0 < n -> (count_of c + Z.of_nat n <= the_maxRetries this)%Z)%nat
  /\ Forall (fun a => retryable this a = true) (firstn n script)
  /\ match nth_error script n with
     | None => snd r = Pending
     | Some (Responds data) => snd r = Returned data
     | Some (Fails e false) => snd r = Thrown (JsError (message e))
     | Some (Fails e true) =>
         snd r = Thrown (handleError e)
         /\ (retryable this (Fails e true : answer A) = false
             \/ (the_maxRetries this <= count_of c + Z.of_nat n)%Z)
     end.
Proof.
  revert c. induction script as [|a rest IH]; intros c; cbn [request].
  - cbn. repeat split; try lia. constructor.
  - destruct a as [data|e [|]].
    + cbn. repeat split; try lia. constructor.
    + unfold on_rejected. cbn [config error]. fold (count_of c).
      destruct (count_of c <? the_maxRetries this)%Z eqn:Hlt; cbn [andb].
      * destruct (match response e with
                  | Some resp => existsb (Z.eqb (status resp)) (the_retryOn this)
                  | None => false
                  end) eqn:Hre.
        -- specialize (IH {| retryCount_ := Some (count_of c + 1)%Z |}).
           destruct (request this rest _) as [evs o].
           cbn [fst snd delays requests List.length] in *.
           destruct IH as (I1 & I2 & I3 & I4 & I5 & I6).
           cbn [count_of retryCount_] in *.
           set (n := List.length (delays evs)) in *.
           split; [|split; [|split; [|split; [|split]]]].
           ++ cbn [seq map]. f_equal; [now rewrite Z.add_0_r|].
              rewrite I1 at 1. rewrite <- seq_shift, map_map. apply map_ext. intros i.
              now replace (count_of c + 1 + Z.of_nat i)%Z
                with (count_of c + Z.of_nat (S i))%Z by lia.
           ++ now rewrite I2.
           ++ lia.
           ++ intros _. apply Z.ltb_lt in Hlt.
              destruct n as [|n']; [lia|]. specialize (I4 ltac:(lia)). lia.
           ++ cbn [firstn]. constructor; [exact Hre | exact I5].
           ++ cbn [nth_error].
              destruct (nth_error rest n) as [[data|e' [|]]|]; try exact I6.
              destruct I6 as [I6 I7]. split; [exact I6|].
              destruct I7 as [I7|I7]; [now left | right; lia].
        -- cbn. split; [reflexivity|]. split; [reflexivity|]. split; [lia|].
           split; [lia|]. split; [constructor|]. split; [reflexivity|]. left. exact Hre.
      * cbn. split; [reflexivity|]. split; [reflexivity|]. split; [lia|].
        split; [lia|]. split; [constructor|]. split; [reflexivity|]. right.
        apply Z.ltb_ge in Hlt. lia.
    + cbn. repeat split; try lia. constructor.
Qed.

(** X24.  The retry interceptor.  A request through the client is sent
    again only after a failure that has its configuration and a response
    whose status is in the retry list, at most [maxRetries] times, so at
    most [maxRetries] + 1 requests are sent; before the n-th retry it sleeps
    retryDelay x 2^(n-1).  The request ends with the first response, or
    with the first failure that is not retried: a failure without a
    configuration is thrown as it is, and any other one as the error
    [handleError] makes of it, which happens when the failure is not
    retryable or the retries are used up. *)
Theorem request_retries_with_backoff (script : list (answer A)) :
  let r := request this script fresh in
  let n := List.length (delays (fst r)) in
  delays (fst r)
  = map (fun i => (the_retryDelay this * Qpower 2 (Z.of_nat i))%Q) (seq 0 n)
  /\ requests (fst r) = S n
  /\ (Z.of_nat n <= Z.max 0 (the_maxRetries this))%Z
  /\ Forall (fun a => retryable this a = true) (firstn n script)
  /\ match nth_error script n with
     | None => snd r = Pending
     | Some (Responds data) => snd r = Returned data
     | Some (Fails e false) => snd r = Thrown (JsError (message e))
     | Some (Fails e true) =>
         snd r = Thrown (handleError e)
         /\ (retryable this (Fails e true : answer A) = false
             \/ (the_maxRetries this <= Z.of_nat n)%Z)
     end.
Proof.
  intros r n. destruct (request_from script fresh) as (H1 & H2 & H3 & H4 & H5 & H6).
  fold r in H1, H2, H3, H4, H5, H6. fold n in H1, H2, H3, H4, H5, H6.
  cbn [count_of fresh retryCount_] in *.
  split; [exact H1|]. split; [exact H2|]. split.
  - destruct n as [|n']; [lia|]. specialize (H4 ltac:(lia)). lia.
  - split; [exact H5 | exact H6].
Qed.

End Requests.
End RetryFacts.


Module ClientFacts.
Import Codec Crypto Keys Client CodecFacts BuffersFacts KeysFacts.
Local Open Scope string_scope.

Lemma map_get_set_same (k : string) (x : Inbox) (m : list (string * Inbox)) :
  map_get k (map_set k x m) = Some x.
Proof.
  induction m as [|[k' y] m IH]; cbn [map_set map_get].
  - now rewrite String.eqb_refl.
  - destruct (String.eqb k k') eqn:E; cbn [map_get]; rewrite E; [reflexivity | exact IH].
Qed.

Lemma b64_chars_ok : all_below 64 b64_char_ok = true.
Proof. vm_compute. reflexivity. Qed.

Lemma toBase64_not_blank (b : bytes) : b <> [] -> blank (toBase64 b) = false.
Proof.
  intros Hb. unfold toBase64.
  assert (H : forall n s, (n < 64)%N -> blank (String (b64_char n) s) = false).
  { intros n s Hn. cbn [blank].
    pose proof (@all_below_spec 64 b64_char_ok b64_chars_ok n Hn) as H.
    unfold b64_char_ok in H. apply negb_true_iff in H. now rewrite H. }
  destruct b as [|x [|y [|z rest]]]; [congruence| | |];
    cbn [Buffer_toString_base64]; apply H;
    destruct (byte_facts x) as ((H0 & _) & _); exact H0.
Qed.

Section WithDates.
Variable Date_parse : string -> option Z.
Variable toISOString : Z -> string.

Lemma ensureInitialized_inboxes (this : VaultSandboxClient) (info : result string) :
  inboxes (fst (fst (ensureInitialized this info))) = inboxes this.
Proof.
  unfold ensureInitialized.
  destruct (serverPublicKey this) as [pk|]; [destruct (truthy pk)|];
    try reflexivity; destruct info; reflexivity.
Qed.

Lemma ensureInitialized_key (this : VaultSandboxClient) (info : result string) :
  match snd (ensureInitialized this info) with
  | Returns _ =>
      match serverPublicKey this with
      | Some pk =>
          if truthy pk
          then ensureInitialized this info = (this, [], Returns tt)
          else exists k, info = Ok k
                         /\ serverPublicKey (fst (fst (ensureInitialized this info))) = Some k
      | None => exists k, info = Ok k
                          /\ serverPublicKey (fst (fst (ensureInitialized this info))) = Some k
      end
  | Throws e => fst (fst (ensureInitialized this info)) = this
  end.
Proof.
  unfold ensureInitialized.
  destruct (serverPublicKey this) as [pk|] eqn:Hk; [destruct (truthy pk) eqn:Ht|].
  - reflexivity.
  - destruct info as [k|e]; cbn; [rewrite ?Ht; eauto | reflexivity].
  - destruct info as [k|e]; cbn; [eauto | reflexivity].
Qed.

Lemma importInbox_spec (this : VaultSandboxClient) (info : result string)
      (data : ExportedInboxData) :
  let r := importInbox Date_parse this info data in
  let this' := fst (fst r) in
  match snd r with
  | Throws e =>
      inboxes this' = inboxes this
      /\ (snd (fst r) <> [] ->
          validateRequiredFields data = Returns tt
          /\ map_get (emailAddress data) (inboxes this) = None)
  | Returns inbox =>
      validateRequiredFields data = Returns tt
      /\ map_get (emailAddress data) (inboxes this) = None
      /\ inboxes this' = map_set (emailAddress data) inbox (inboxes this)
      /\ map_get (emailAddress data) (inboxes this') = Some inbox
      /\ serverPublicKey this' = Some (serverSigPk data)
      /\ inbox_emailAddress inbox = emailAddress data
      /\ inbox_inboxHash inbox = inboxHash data
      /\ inbox_serverPublicKey inbox = serverSigPk data
      /\ Date_parse (expiresAt data) = Some (inbox_expiresAt inbox)
      /\ inbox_strategy inbox = the_strategy this'
      /\ List.length (publicKey (inbox_keypair inbox)) = 1184%nat
      /\ List.length (secretKey (inbox_keypair inbox)) = 2400%nat
      /\ secretKey (inbox_keypair inbox) = fromBase64 (secretKeyB64 data)
      /\ Crypto.publicKeyB64 (inbox_keypair inbox)
         = toBase64Url (publicKey (inbox_keypair inbox))
  end.
Proof.
  intros r this'. subst this' r. unfold Client.importInbox.
  destruct (validateRequiredFields data) as [[]|e] eqn:Hf; [|cbn; split; [reflexivity | congruence]].
  destruct (ensurePublicKeyPresent data) as [data'|e] eqn:Hp;
    [|cbn; split; [reflexivity | congruence]].
  assert (Hsame : emailAddress data' = emailAddress data
                  /\ expiresAt data' = expiresAt data
                  /\ inboxHash data' = inboxHash data
                  /\ serverSigPk data' = serverSigPk data
                  /\ secretKeyB64 data' = secretKeyB64 data).
  { unfold ensurePublicKeyPresent in Hp.
    destruct (truthy (publicKeyB64 data)); [injection Hp as <-; repeat split|].
    destruct (derivePublicKeyFromSecret _); [|discriminate].
    injection Hp as <-. repeat split. }
  destruct Hsame as (Sa & Se & Sh & Ss & Sk).
  destruct (validateTimestamps Date_parse data') as [[]|e] eqn:Ht;
    [|cbn; split; [reflexivity | congruence]].
  unfold checkInboxDoesNotExist, map_has. rewrite Sa.
  destruct (map_get (emailAddress data) (inboxes this)) as [old|] eqn:Hg;
    [cbn; split; [reflexivity | congruence]|].
  pose proof (ensureInitialized_inboxes this info) as Hinb.
  pose proof (ensureInitialized_key this info) as Hkey.
  destruct (ensureInitialized this info) as [[this1 evs] [[]|e]] eqn:Hi; cbn [fst snd] in *.
  2:{ split; [congruence | auto]. }
  unfold validateServerPublicKey. rewrite Ss.
  destruct (serverPublicKey this1) as [pk1|] eqn:Hk1; [|cbn; split; [congruence | auto]].
  destruct (String.eqb (serverSigPk data) pk1) eqn:Epk; [|cbn; split; [congruence | auto]].
  apply String.eqb_eq in Epk. subst pk1.
  unfold decodeAndValidateKeys, decodeBase64Key, and_then, validateKeyLength.
  destruct (Nat.eqb (List.length (fromBase64 (publicKeyB64 data'))) PUBLIC_KEY_SIZE) eqn:Lp;
    cbn [negb]; [|cbn; split; [congruence | auto]].
  destruct (Nat.eqb (List.length (fromBase64 (secretKeyB64 data'))) SECRET_KEY_SIZE) eqn:Ls;
    cbn [negb]; [|cbn; split; [congruence | auto]].
  apply Nat.eqb_eq in Lp, Ls.
  unfold createAndTrackInbox, new_Inbox, buildInboxData. cbn [data_expiresAt].
  unfold validateTimestamps in Ht.
  destruct (Date_parse (expiresAt data')) as [t|] eqn:Hd; [|discriminate].
  cbn [data_emailAddress data_inboxHash data_serverSigPk].
  rewrite Se in Hd. rewrite Sa, Sh, Ss, Sk in *.
  destruct (the_strategy this1) as [st|] eqn:Hst; cbn [fst snd inboxes serverPublicKey
    the_strategy setStrategy inbox_emailAddress inbox_inboxHash inbox_serverPublicKey
    inbox_expiresAt inbox_strategy inbox_keypair Crypto.publicKey Crypto.secretKey
    Crypto.publicKeyB64];
    rewrite Hinb, map_get_set_same; repeat split; try assumption; try reflexivity.
Qed.


Lemma importInbox_returns (this : VaultSandboxClient) (info : result string)
      (data : ExportedInboxData) (inbox : Inbox) :
  snd (importInbox Date_parse this info data) = Returns inbox ->
  exists data',
    validateRequiredFields data = Returns tt
    /\ ensurePublicKeyPresent data = Returns data'
    /\ emailAddress data' = emailAddress data
    /\ validateTimestamps Date_parse data' = Returns tt.
Proof.
  unfold importInbox.
  destruct (validateRequiredFields data) as [[]|e] eqn:Hf; [|discriminate].
  destruct (ensurePublicKeyPresent data) as [data'|e] eqn:Hp; [|discriminate].
  destruct (validateTimestamps Date_parse data') as [[]|e] eqn:Ht; [|discriminate].
  intros _. exists data'.
  split; [reflexivity|]. split; [reflexivity|]. split; [|exact Ht].
  unfold ensurePublicKeyPresent in Hp.
  destruct (truthy (publicKeyB64 data)); [now injection Hp as <-|].
  destruct (derivePublicKeyFromSecret _); [|discriminate].
  now injection Hp as <-.
Qed.

Lemma ensureInitialized_cases (this : VaultSandboxClient) (info : result string) :
  let r := ensureInitialized this info in
  (snd (fst r) = [] -> fst (fst r) = this)
  /\ (snd (fst r) <> [] ->
      match info with
      | Ok serverSigPk =>
          serverPublicKey (fst (fst r)) = Some serverSigPk
          /\ the_strategy (fst (fst r)) = Some (createStrategy this)
      | Err _ => fst (fst r) = this
      end).
Proof.
  unfold ensureInitialized.
  destruct (serverPublicKey this) as [pk|]; [destruct (truthy pk)|];
    destruct info as [k|err]; cbn; split; intros H; try reflexivity; try discriminate;
    try (now destruct H); now split.
Qed.

(** What a refused import leaves of the client. *)
Lemma importInbox_throws (this : VaultSandboxClient) (info : result string)
      (data : ExportedInboxData) :
  let r := importInbox Date_parse this info data in
  let this' := fst (fst r) in
  match snd r with
  | Throws e =>
      (snd (fst r) = [] -> this' = this)
      /\ (snd (fst r) <> [] ->
          this' = fst (fst (ensureInitialized this info))
          /\ match info with
             | Ok serverSigPk =>
                 serverPublicKey this' = Some serverSigPk
                 /\ the_strategy this' = Some (createStrategy this)
             | Err _ => this' = this
             end)
  | Returns _ => True
  end.
Proof.
  intros r this'. subst this' r. unfold Client.importInbox.
  destruct (validateRequiredFields data) as [[]|e]; [|cbn; split; [reflexivity | congruence]].
  destruct (ensurePublicKeyPresent data) as [data'|e];
    [|cbn; split; [reflexivity | congruence]].
  destruct (validateTimestamps Date_parse data') as [[]|e];
    [|cbn; split; [reflexivity | congruence]].
  destruct (checkInboxDoesNotExist this (emailAddress data')) as [[]|e];
    [|cbn; split; [reflexivity | congruence]].
  pose proof (ensureInitialized_cases this info) as Hc. cbv zeta in Hc.
  destruct (ensureInitialized this info) as [[this1 evs] o]. cbn [fst snd] in Hc.
  destruct Hc as [H0 H1].
  assert (Hgoal : (evs = [] -> this1 = this)
                  /\ (evs <> [] ->
                      this1 = this1
                      /\ match info with
                         | Ok serverSigPk =>
                             serverPublicKey this1 = Some serverSigPk
                             /\ the_strategy this1 = Some (createStrategy this)
                         | Err _ => this1 = this
                         end)).
  { split; [exact H0|]. intros Hne. split; [reflexivity | exact (H1 Hne)]. }
  destruct o as [[]|e]; [|exact Hgoal].
  destruct (validateServerPublicKey this1 (serverSigPk data')) as [[]|e];
    [|exact Hgoal].
  destruct (decodeAndValidateKeys data') as [keypair|e]; [|exact Hgoal].
  unfold createAndTrackInbox.
  destruct (new_Inbox Date_parse (buildInboxData data') keypair
              (data_serverSigPk (buildInboxData data'))) as [inbox|e];
    [exact I | exact Hgoal].
Qed.

(** X25.  [importInbox] checks before it contacts the server.  When the
    import throws, the client tracks the inboxes it tracked before.  If the
    server was not contacted, the client is unchanged.  If it was, the
    required fields were present and no inbox of that address was tracked,
    and the client is as [ensureInitialized] left it: when the server
    answered, its key and the strategy have been set although the import was
    refused afterwards.  When the import returns, the inbox is tracked under
    the address of the data and carries the address, the routing hash, the
    server key and the expiry date of the data and the strategy of the
    client; the server key of the data is the one of the client; the public
    key has 1184 bytes and the secret key, decoded from the data, 2400; and
    the base64url text of the keypair is the encoding of its public key. *)
Theorem import_checks_before_contact (this : VaultSandboxClient) (info : result string)
        (data : ExportedInboxData) :
  let r := importInbox Date_parse this info data in
  let this' := fst (fst r) in
  match snd r with
  | Throws e =>
      inboxes this' = inboxes this
      /\ (snd (fst r) = [] -> this' = this)
      /\ (snd (fst r) <> [] ->
          validateRequiredFields data = Returns tt
          /\ map_get (emailAddress data) (inboxes this) = None
          /\ this' = fst (fst (ensureInitialized this info))
          /\ match info with
             | Ok serverSigPk =>
                 serverPublicKey this' = Some serverSigPk
                 /\ the_strategy this' = Some (createStrategy this)
             | Err _ => this' = this
             end)
  | Returns inbox =>
      validateRequiredFields data = Returns tt
      /\ map_get (emailAddress data) (inboxes this) = None
      /\ inboxes this' = map_set (emailAddress data) inbox (inboxes this)
      /\ map_get (emailAddress data) (inboxes this') = Some inbox
      /\ serverPublicKey this' = Some (serverSigPk data)
      /\ inbox_emailAddress inbox = emailAddress data
      /\ inbox_inboxHash inbox = inboxHash data
      /\ inbox_serverPublicKey inbox = serverSigPk data
      /\ Date_parse (expiresAt data) = Some (inbox_expiresAt inbox)
      /\ inbox_strategy inbox = the_strategy this'
      /\ List.length (publicKey (inbox_keypair inbox)) = 1184%nat
      /\ List.length (secretKey (inbox_keypair inbox)) = 2400%nat
      /\ secretKey (inbox_keypair inbox) = fromBase64 (secretKeyB64 data)
      /\ Crypto.publicKeyB64 (inbox_keypair inbox)
         = toBase64Url (publicKey (inbox_keypair inbox))
  end.
Proof.
  intros r this'.
  pose proof (importInbox_spec this info data) as Hs. cbv zeta in Hs.
  fold r in Hs. fold this' in Hs.
  destruct (snd r) as [inbox|e] eqn:Hr; [exact Hs|].
  destruct Hs as [Hi Hc]. split; [exact Hi|].
  pose proof (importInbox_throws this info data) as Ht. cbv zeta in Ht.
  fold r in Ht. fold this' in Ht. rewrite Hr in Ht.
  destruct Ht as [Ht0 Ht1].
  split; [exact Ht0|].
  intros Hne. destruct (Hc Hne) as [Hf Hg]. split; [exact Hf|]. split; [exact Hg|].
  exact (Ht1 Hne).
Qed.

(** X28.  An inbox is imported once.  After an import that returned,
    the client tracks the inbox under the address of the data:
    [exportInbox] for that address returns the export of the imported
    inbox, and importing the same data again throws
    [InboxAlreadyExistsError] naming the address, without contacting the
    server and without changing the client. *)
Theorem import_twice_is_refused (this : VaultSandboxClient) (info info2 : result string)
        (data : ExportedInboxData) (inbox : Inbox) (now : Z) :
  snd (importInbox Date_parse this info data) = Returns inbox ->
  let this' := fst (fst (importInbox Date_parse this info data)) in
  importInbox Date_parse this' info2 data
  = (this', [],
     Throws (InboxAlreadyExistsError ("Inbox already exists: " ++ emailAddress data)))
  /\ exportInbox toISOString this' (emailAddress data) now
     = Returns (export toISOString inbox now).
Proof.
  intros Hr this'.
  destruct (importInbox_returns _ _ _ Hr) as (data' & Hf & Hp & Sa & Ht).
  pose proof (importInbox_spec this info data) as Hs. cbv zeta in Hs.
  rewrite Hr in Hs. destruct Hs as (_ & _ & _ & Hg & _). fold this' in Hg.
  split.
  - unfold importInbox. rewrite Hf, Hp, Ht.
    unfold checkInboxDoesNotExist, map_has. rewrite Sa, Hg. reflexivity.
  - unfold exportInbox. now rewrite Hg.
Qed.

(** X27.  Data without a public key.  [ensurePublicKeyPresent] on data
    whose public key is empty decodes the secret key; if it has 2400 bytes,
    the data is completed with the base64 text of its last 1184 bytes, and
    the keypair then decoded from the data has these bytes as public key
    and the decoded secret key as secret key; for any other length the
    import is refused with [InvalidImportDataError]. *)
Theorem missing_public_key_is_derived (data : ExportedInboxData) :
  let data0 := set_publicKeyB64 EmptyString data in
  let sk := fromBase64 (secretKeyB64 data) in
  match ensurePublicKeyPresent data0 with
  | Returns data' =>
      List.length sk = 2400%nat
      /\ data' = set_publicKeyB64 (toBase64 (skipn 1216 sk)) data
      /\ decodeAndValidateKeys data'
         = Returns {| Crypto.publicKey := skipn 1216 sk; Crypto.secretKey := sk;
                      Crypto.publicKeyB64 := toBase64Url (skipn 1216 sk) |}
  | Throws e =>
      List.length sk <> 2400%nat
      /\ exists m, e = InvalidImportDataError m
  end.
Proof.
  intros data0 sk. unfold ensurePublicKeyPresent. subst data0.
  cbn [publicKeyB64 secretKeyB64 set_publicKeyB64 truthy String.eqb negb]. fold sk.
  unfold derivePublicKeyFromSecret.
  destruct (Nat.eqb (List.length sk) SECRET_KEY_SIZE) eqn:E; cbn [negb].
  - apply Nat.eqb_eq in E. split; [exact E|]. rewrite E.
    change (SECRET_KEY_SIZE - PUBLIC_KEY_SIZE)%nat with 1216%nat.
    split; [reflexivity|].
    unfold decodeAndValidateKeys, decodeBase64Key, and_then, validateKeyLength.
    cbn [publicKeyB64 secretKeyB64 set_publicKeyB64]. fold sk.
    rewrite fromBase64_toBase64, length_skipn, E.
    reflexivity.
  - apply Nat.eqb_neq in E. split; [exact E | eauto].
Qed.

(** X26.  Export and import are inverse.  Take an inbox whose keypair
    has keys of the ML-KEM-768 sizes and the base64url text of its public
    key, whose address, routing hash and server key are not blank, and
    whose dates survive [toISOString] and parsing.  Importing what [export]
    makes of it, into a client that knows the same server key and tracks no
    inbox of that address, contacts nobody and returns the same inbox (same
    address, expiry, routing hash, keypair and server key) with the
    strategy of the importing client, tracked under its address. *)
Theorem export_import_round_trip (inbox : Inbox) (now : Z) (this : VaultSandboxClient)
        (info : result string) :
  Date_parse (toISOString (inbox_expiresAt inbox)) = Some (inbox_expiresAt inbox) ->
  Date_parse (toISOString now) = Some now ->
  (forall s, blank s = true -> Date_parse s = None) ->
  blank (inbox_emailAddress inbox) = false ->
  blank (inbox_inboxHash inbox) = false ->
  blank (inbox_serverPublicKey inbox) = false ->
  List.length (publicKey (inbox_keypair inbox)) = PUBLIC_KEY_SIZE ->
  List.length (secretKey (inbox_keypair inbox)) = SECRET_KEY_SIZE ->
  Crypto.publicKeyB64 (inbox_keypair inbox) = toBase64Url (publicKey (inbox_keypair inbox)) ->
  serverPublicKey this = Some (inbox_serverPublicKey inbox) ->
  map_get (inbox_emailAddress inbox) (inboxes this) = None ->
  let inbox' := {| inbox_emailAddress := inbox_emailAddress inbox;
                   inbox_expiresAt := inbox_expiresAt inbox;
                   inbox_inboxHash := inbox_inboxHash inbox;
                   inbox_keypair := inbox_keypair inbox;
                   inbox_serverPublicKey := inbox_serverPublicKey inbox;
                   inbox_strategy := the_strategy this |} in
  importInbox Date_parse this info (export toISOString inbox now)
  = ({| config := config this; serverPublicKey := serverPublicKey this;
        inboxes := map_set (inbox_emailAddress inbox) inbox' (inboxes this);
        the_strategy := the_strategy this |},
     [], Returns inbox').
Proof.
  intros He Hn Hblank Ba Bh Bs Lp Ls Hb64 Hk Hg inbox'.
  assert (Bd : forall t u, Date_parse (toISOString t) = Some u -> blank (toISOString t) = false).
  { intros t u H. destruct (blank (toISOString t)) eqn:E; [|reflexivity].
    rewrite (Hblank _ E) in H. discriminate. }
  assert (Nsk : secretKey (inbox_keypair inbox) <> []).
  { intros E. rewrite E in Ls. discriminate. }
  assert (Npk : publicKey (inbox_keypair inbox) <> []).
  { intros E. rewrite E in Lp. discriminate. }
  assert (Tpk : truthy (toBase64 (publicKey (inbox_keypair inbox))) = true).
  { unfold truthy. destruct (String.eqb_spec (toBase64 (publicKey (inbox_keypair inbox)))
                                             EmptyString) as [E|E]; [|reflexivity].
    pose proof (toBase64_not_blank Npk) as H. rewrite E in H. discriminate. }
  unfold importInbox, validateRequiredFields, requiredFields, export.
  cbn [emailAddress expiresAt inboxHash serverSigPk secretKeyB64 exportedAt publicKeyB64
       check_fields].
  rewrite Ba, (Bd _ _ He), Bh, Bs, (toBase64_not_blank Nsk), (Bd _ _ Hn).
  unfold ensurePublicKeyPresent. cbn [publicKeyB64]. rewrite Tpk.
  unfold validateTimestamps. cbn [expiresAt exportedAt]. rewrite He, Hn.
  unfold checkInboxDoesNotExist, map_has. cbn [emailAddress]. rewrite Hg.
  unfold ensureInitialized. rewrite Hk.
  assert (Tk : truthy (inbox_serverPublicKey inbox) = true).
  { unfold truthy. destruct (String.eqb_spec (inbox_serverPublicKey inbox) EmptyString)
      as [E|E]; [|reflexivity]. rewrite E in Bs. discriminate. }
  rewrite Tk. unfold validateServerPublicKey. cbn [serverSigPk]. rewrite Hk, String.eqb_refl.
  unfold decodeAndValidateKeys, decodeBase64Key, and_then, validateKeyLength.
  cbn [publicKeyB64 secretKeyB64]. rewrite !fromBase64_toBase64, Lp, Ls, !Nat.eqb_refl.
  cbn [negb]. unfold createAndTrackInbox, new_Inbox, buildInboxData.
  cbn [data_expiresAt data_emailAddress data_inboxHash data_serverSigPk
       emailAddress expiresAt inboxHash serverSigPk].
  rewrite He, <- Hb64.
  replace {| Crypto.publicKey := publicKey (inbox_keypair inbox);
             Crypto.secretKey := secretKey (inbox_keypair inbox);
             Crypto.publicKeyB64 := Crypto.publicKeyB64 (inbox_keypair inbox) |}
    with (inbox_keypair inbox) by (now destruct (inbox_keypair inbox)).
  subst inbox'. destruct (the_strategy this); cbn; rewrite ?Hk; reflexivity.
Qed.

End WithDates.

Lemma export_import_round_trip_witness :
  snd (importInbox epoch_parse sample_client (Err (NetworkError "offline"))
                   (export epoch_format sample_inbox 0))
  = Returns sample_inbox.
Proof.
  refine (f_equal snd
            (@export_import_round_trip epoch_parse epoch_format sample_inbox 0%Z
               sample_client (Err (NetworkError "offline")) _ _ _ _ _ _ _ _ _ _ _));
    try reflexivity.
  intros s Hs. unfold epoch_parse.
  destruct (String.eqb_spec s iso_epoch) as [->|_]; [discriminate | reflexivity].
Defined.

Lemma import_twice_is_refused_witness :
  snd (importInbox epoch_parse
         (fst (fst (importInbox epoch_parse sample_client (Err (NetworkError "offline"))
                                (export epoch_format sample_inbox 0))))
         (Err (NetworkError "offline"))
         (export epoch_format sample_inbox 0))
  = Throws (InboxAlreadyExistsError "Inbox already exists: a@x").
Proof.
  refine (f_equal snd
            (proj1 (@import_twice_is_refused epoch_parse epoch_format sample_client
                      (Err (NetworkError "offline")) (Err (NetworkError "offline"))
                      (export epoch_format sample_inbox 0) sample_inbox 0%Z _))).
  vm_compute. reflexivity.
Defined.

End ClientFacts.

